(** * TChannel v2 core: frame codec, chunk readers, connection and channel

    A shallow embedding of the JavaScript sources
      - [index.js]             (TChannel, TChannelConnection, the operation records),
      - [v2/parser.js]         (ChunkParser),
      - the bufrw chunk reader (ChunkReader),
      - [v2/frame.js], [v2/init.js], [v2/call.js] (frame and body codecs),
      - [lib/error_serial.js]  (application error envelope) and the router
        services (TRouterService),
    together with the properties of the specification that they decide.

    Conventions.
      - A [Buffer] is a [list byte].  A JS string that is written to or read
        from the wire is represented by its bytes (its UTF-8 form), so that
        [String(buf)] and the string writers are the identity on it.
      - JS numbers that hold integers are [Z]; fixed-width wire integers are
        written big-endian.
      - JS strings handled by [JSON.parse] are lists of UTF-16 code units.
      - Callbacks, handlers and timers are identified by numbers; what a
        function of the program does to the outside (socket, user callbacks,
        event listeners, log) is recorded in a trace of effects. *)

From Stdlib Require Import ZArith Lia Strings.Byte Strings.String Strings.Ascii.
From Stdlib Require Import Numbers.DecimalString.
From stdpp Require Import base list gmap sorting.

Local Open Scope Z_scope.

(** ** Bytes and big-endian integers *)

Abbreviation byte := Byte.byte.
Abbreviation Buf := (list byte).

#[global] Instance byte_eq_dec : EqDecision byte := Byte.byte_eq_dec.
#[global] Program Instance byte_countable : Countable byte :=
  inj_countable Byte.to_N Byte.of_N _.
Next Obligation. intros b. apply Byte.of_to_N. Qed.

Definition Z_of_byte (b : byte) : Z := Z.of_N (Byte.to_N b).

Definition byte_of_Z (z : Z) : byte :=
  match Byte.of_N (Z.to_N (z mod 256)) with
  | Some b => b
  | None => Byte.x00
  end.

(** The bytes of an ASCII literal of the source. *)
Definition bytes_of (s : string) : Buf := list_byte_of_string s.

(** [buf.length] as a JS number. *)
Definition blen (b : Buf) : Z := Z.of_nat (length b).

(** [buf.slice(a, b)] for [0 <= a <= b]. *)
Definition slice (b : Buf) (from to : Z) : Buf :=
  take (Z.to_nat (to - from)) (drop (Z.to_nat from) b).

(** [buf[i]], 0 when out of range (callers check the range first). *)
Definition byte_at (b : Buf) (i : Z) : Z :=
  match b !! Z.to_nat i with
  | Some x => Z_of_byte x
  | None => 0
  end.

Definition readUInt8 (b : Buf) (o : Z) : Z := byte_at b o.
Definition readUInt16BE (b : Buf) (o : Z) : Z :=
  byte_at b o * 256 + byte_at b (o + 1).
Definition readUInt32BE (b : Buf) (o : Z) : Z :=
  ((byte_at b o * 256 + byte_at b (o + 1)) * 256 + byte_at b (o + 2)) * 256
  + byte_at b (o + 3).

Definition enc_u8 (n : Z) : Buf := [byte_of_Z n].
Definition enc_u16 (n : Z) : Buf := [byte_of_Z (n / 256); byte_of_Z n].
Definition enc_u32 (n : Z) : Buf :=
  [byte_of_Z (n / 16777216); byte_of_Z (n / 65536); byte_of_Z (n / 256); byte_of_Z n].

(** ** Read and write combinators ([lib/read.js], [lib/write.js]) *)

Inductive ReadError : Type :=
  | ShortReadError (remaining expected : Z)
  | InvalidFrameTypeError (typeNumber : Z)
  | ExtraFrameDataError (length trailing : Z)
  | DuplicateInitHeaderError (name : Buf)
  | InvalidInitHeaderError (name : Buf)
  | InvalidChecksumTypeError (csumtype : Z)
  | ChecksumError (expected actual : Z)
  | ShortChunkRead (remaining : Z).

(** The triple [[err, offset, value]] that every reader returns. *)
Inductive Res (A : Type) : Type :=
  | ResErr (err : ReadError) (offset : Z)
  | ResOk (offset : Z) (value : A).
Arguments ResErr {A} err offset.
Arguments ResOk {A} offset value.

Definition Reader (A : Type) : Type := Buf -> Z -> Res A.

(** Modelled from the spec: [read.want] of lib/read.js, which is not among
    the sources; it refuses a read of [n] bytes when fewer remain. *)
Definition read_want (n : Z) (buffer : Buf) (offset : Z) : option ReadError :=
  let remain := blen buffer - offset in
  if remain <? n then Some (ShortReadError remain n) else None.

(** Modelled from the spec: [read.chain] and [read.chained] of lib/read.js:
    run a reader, stop at its error, hand its value and the new offset on. *)
Definition read_chain {A B} (r : Reader A) (buffer : Buf) (offset : Z)
    (k : A -> Buf -> Z -> Res B) : Res B :=
  match r buffer offset with
  | ResErr e o => ResErr e o
  | ResOk o v => k v buffer o
  end.

Definition read_chained {A B} (r : Reader A) (k : A -> Buf -> Z -> Res B) : Reader B :=
  fun buffer offset => read_chain r buffer offset k.

Definition read_ret {A} (v : A) : Buf -> Z -> Res A :=
  fun _ offset => ResOk offset v.

(** Modelled from the spec: the integer readers of lib/read.js (unsigned,
    big-endian). *)
Definition read_UInt8 : Reader Z := fun buffer offset =>
  match read_want 1 buffer offset with
  | Some e => ResErr e offset
  | None => ResOk (offset + 1) (readUInt8 buffer offset)
  end.

Definition read_UInt16BE : Reader Z := fun buffer offset =>
  match read_want 2 buffer offset with
  | Some e => ResErr e offset
  | None => ResOk (offset + 2) (readUInt16BE buffer offset)
  end.

Definition read_UInt32BE : Reader Z := fun buffer offset =>
  match read_want 4 buffer offset with
  | Some e => ResErr e offset
  | None => ResOk (offset + 4) (readUInt32BE buffer offset)
  end.

(** Modelled from the spec: [read.fixed(n)], a field of exactly [n] bytes. *)
Definition read_fixed (n : Z) : Reader Buf := fun buffer offset =>
  match read_want n buffer offset with
  | Some e => ResErr e offset
  | None => ResOk (offset + n) (slice buffer offset (offset + n))
  end.

(** Modelled from the spec: [read.buf1] and [read.buf2], the [~1] and [~2]
    grammar: a big-endian length and then that many bytes. *)
Definition read_buf1 : Reader Buf :=
  read_chained read_UInt8 (fun len => read_fixed len).

Definition read_buf2 : Reader Buf :=
  read_chained read_UInt16BE (fun len => read_fixed len).

(** Modelled from the spec: [read.pair2], [key~2 value~2]. *)
Definition read_pair2 : Reader (Buf * Buf) :=
  read_chained read_buf2 (fun k =>
  read_chained read_buf2 (fun v => read_ret (k, v))).

(** Modelled from the spec: the writers of lib/write.js.  A writer is
    represented by the bytes it produces; [write.series] concatenates.  A
    number outside its field is outside the legal value space; the model
    keeps its low-order bytes. *)
Definition write_UInt8 (n : Z) : Buf := enc_u8 n.
Definition write_UInt16BE (n : Z) : Buf := enc_u16 n.
Definition write_UInt32BE (n : Z) : Buf := enc_u32 n.
Definition write_fill (b : byte) (n : nat) : Buf := repeat b n.
Definition write_buf1 (b : Buf) : Buf := enc_u8 (blen b) ++ b.
Definition write_buf2 (b : Buf) : Buf := enc_u16 (blen b) ++ b.
(** [write.fixed(n, buf)]: a field of [n] bytes holding [buf]. *)
Definition write_fixed (n : nat) (b : Buf) : Buf := take n (b ++ repeat Byte.x00 n).

(** ** Headers ([v2/header.js]) *)

(** Modelled from the spec: [header.read] and [header.write] of v2/header.js,
    which is not among the sources: [nh:1 (hk~1 hv~1){nh}], an ordered
    sequence of pairs. *)
Fixpoint header_read_pairs (n : nat) : Reader (list (Buf * Buf)) :=
  match n with
  | O => read_ret []
  | S n' =>
      read_chained read_buf1 (fun k =>
      read_chained read_buf1 (fun v =>
      read_chained (header_read_pairs n') (fun rest => read_ret ((k, v) :: rest))))
  end.

Definition header_read : Reader (list (Buf * Buf)) :=
  read_chained read_UInt8 (fun nh => header_read_pairs (Z.to_nat nh)).

Definition header_write_pairs (hs : list (Buf * Buf)) : Buf :=
  concat (map (fun kv => write_buf1 kv.1 ++ write_buf1 kv.2) hs).

Definition header_write (hs : list (Buf * Buf)) : Buf :=
  write_UInt8 (Z.of_nat (length hs)) ++ header_write_pairs hs.

(** ** Frames and bodies ([v2/frame.js], [v2/init.js], [v2/call.js]) *)

(** A checksum object: its algorithm and, unless the algorithm is [none],
    its 32-bit value. *)
Inductive Checksum : Type :=
  | CsumNone
  | CsumCrc32 (val : Z)
  | CsumFarmHash32 (val : Z).

(** [Checksum.Types]: none = 0, crc32 = 1, farmhash32 = 2. *)
Definition Checksum_type (c : Checksum) : Z :=
  match c with
  | CsumNone => 0
  | CsumCrc32 _ => 1
  | CsumFarmHash32 _ => 2
  end.

(** [undefined] is [None]: the init reader can leave a field undefined. *)
Record InitBody : Type := mkInitBody {
  init_version : Z;
  init_hostPort : option Buf;
  init_processName : option Buf
}.

Record CallRequestBody : Type := mkCallRequest {
  req_ttl : Z;
  req_tracing : Buf;
  req_service : Buf;
  req_headers : list (Buf * Buf);
  req_arg1 : Buf;
  req_arg2 : Buf;
  req_arg3 : Buf;
  req_csum : Checksum
}.

Record CallResponseBody : Type := mkCallResponse {
  res_code : Z;
  res_headers : list (Buf * Buf);
  res_arg1 : Buf;
  res_arg2 : Buf;
  res_arg3 : Buf;
  res_csum : Checksum
}.

Record ErrorBody : Type := mkErrorBody {
  err_code : Z;
  err_message : Buf
}.

Inductive Body : Type :=
  | InitRequest (b : InitBody)
  | InitResponse (b : InitBody)
  | CallRequest (b : CallRequestBody)
  | CallResponse (b : CallResponseBody)
  | ErrorFrame (b : ErrorBody).

(** [body.type], the [TypeCode] of the body's constructor. *)
Definition Body_type (b : Body) : Z :=
  match b with
  | InitRequest _ => 1
  | InitResponse _ => 2
  | CallRequest _ => 3
  | CallResponse _ => 4
  | ErrorFrame _ => 255
  end.

Record Frame : Type := mkFrame {
  frame_id : Z;
  frame_flags : Z;
  frame_body : Body
}.

(** [CallResponse.Codes]. *)
Definition Code_OK : Z := 0.
Definition Code_Timeout : Z := 1.
Definition Code_Cancelled : Z := 2.
Definition Code_Busy : Z := 3.
Definition Code_SocketErrorNoRetries : Z := 4.
Definition Code_SocketError : Z := 5.
Definition Code_AppException : Z := 6.

(** A JS value used as a condition: a string is true unless it is empty,
    [undefined] is false. *)
Definition truthy_str (o : option Buf) : bool :=
  match o with
  | Some (_ :: _) => true
  | _ => false
  end.

(** The loop of [InitRequest.read] over the pairs read after the version. *)
Fixpoint init_read_pairs (pairs : list (Buf * Buf))
    (hostPort processName : option Buf) (offset : Z)
    : Res (option Buf * option Buf) :=
  match pairs with
  | [] => ResOk offset (hostPort, processName)
  | (k, v) :: rest =>
      if decide (k = bytes_of "host_port") then
        if truthy_str hostPort
        then ResErr (DuplicateInitHeaderError (bytes_of "host_port")) offset
        else init_read_pairs rest (Some v) processName offset
      else if decide (k = bytes_of "process_name") then
        if truthy_str processName
        then ResErr (DuplicateInitHeaderError (bytes_of "process_name")) offset
        else init_read_pairs rest hostPort (Some v) offset
      else ResErr (InvalidInitHeaderError k) offset
  end.

(** [InitRequest.read], shared by [InitResponse]; [Type_] is the constructor
    the reader is called on ([this]).  version:2 (key~2 value~2){2} *)
Definition InitRequest_read (Type_ : InitBody -> Body) : Reader Body :=
  read_chained read_UInt16BE (fun version =>
  read_chained read_pair2 (fun p1 =>
  read_chained read_pair2 (fun p2 => fun buffer offset =>
    match init_read_pairs [p1; p2] None None offset with
    | ResErr e o => ResErr e o
    | ResOk o (hostPort, processName) =>
        ResOk o (Type_ (mkInitBody version hostPort processName))
    end))).

(** [InitRequest.prototype.write]; writing an undefined field fails. *)
Definition InitRequest_write (b : InitBody) : option Buf :=
  match init_hostPort b, init_processName b with
  | Some hostPort, Some processName =>
      Some (write_UInt16BE (init_version b)
            ++ write_buf2 (bytes_of "host_port")
            ++ write_buf2 hostPort
            ++ write_buf2 (bytes_of "process_name")
            ++ write_buf2 processName)
  | _, _ => None
  end.

(** Modelled from the spec: the body of an Error frame, whose codec is not
    among the sources: [code:1 message~2]. *)
Definition ErrorBody_read : Reader Body :=
  read_chained read_UInt8 (fun code =>
  read_chained read_buf2 (fun message =>
    read_ret (ErrorFrame (mkErrorBody code message)))).

Definition ErrorBody_write (b : ErrorBody) : Buf :=
  write_UInt8 (err_code b) ++ write_buf2 (err_message b).

Section Codec.

(** The checksum algorithms are pluggable: [digest t bytes] is the value of
    algorithm [t] over [bytes]. *)
Variable digest : Z -> Buf -> Z.

(** Modelled from the spec: [v2/checksum.js] is not among the sources.
    [update] computes the value over the concatenated arguments, [verify]
    rejects any mismatch, [write] emits [csumtype:1] and then [csum:4] unless
    the type is [none], and [read] is its inverse. *)
Definition Checksum_update (c : Checksum) (arg1 arg2 arg3 : Buf) : Checksum :=
  match c with
  | CsumNone => CsumNone
  | CsumCrc32 _ => CsumCrc32 (digest 1 (arg1 ++ arg2 ++ arg3))
  | CsumFarmHash32 _ => CsumFarmHash32 (digest 2 (arg1 ++ arg2 ++ arg3))
  end.

Definition Checksum_verify (c : Checksum) (arg1 arg2 arg3 : Buf) : option ReadError :=
  match c with
  | CsumNone => None
  | CsumCrc32 val =>
      let actual := digest 1 (arg1 ++ arg2 ++ arg3) in
      if val =? actual then None else Some (ChecksumError val actual)
  | CsumFarmHash32 val =>
      let actual := digest 2 (arg1 ++ arg2 ++ arg3) in
      if val =? actual then None else Some (ChecksumError val actual)
  end.

Definition Checksum_write (c : Checksum) : Buf :=
  match c with
  | CsumNone => write_UInt8 0
  | CsumCrc32 val => write_UInt8 1 ++ write_UInt32BE val
  | CsumFarmHash32 val => write_UInt8 2 ++ write_UInt32BE val
  end.

Definition Checksum_read : Reader Checksum :=
  read_chained read_UInt8 (fun type => fun buffer offset =>
    if type =? 0 then ResOk offset CsumNone
    else if type =? 1 then
      read_chain read_UInt32BE buffer offset (fun val => read_ret (CsumCrc32 val))
    else if type =? 2 then
      read_chain read_UInt32BE buffer offset (fun val => read_ret (CsumFarmHash32 val))
    else ResErr (InvalidChecksumTypeError type) offset).

(** [CallRequest.read].
    ttl:4 tracing:24 service~2 nh:1 (hk~1 hv~1){nh} arg1~2 arg2~2 arg3~2
    csumtype:1 (csum:4){0,1} *)
Definition CallRequest_read : Reader Body :=
  read_chained read_UInt32BE (fun ttl =>
  read_chained (read_fixed 24) (fun tracing =>
  read_chained read_buf2 (fun service =>
  read_chained header_read (fun headers =>
  read_chained read_buf2 (fun arg1 =>
  read_chained read_buf2 (fun arg2 =>
  read_chained read_buf2 (fun arg3 =>
  read_chained Checksum_read (fun csum => fun buffer offset =>
    match Checksum_verify csum arg1 arg2 arg3 with
    | Some err => ResErr err offset
    | None =>
        ResOk offset
          (CallRequest (mkCallRequest ttl tracing service headers arg1 arg2 arg3 csum))
    end)))))))).

(** [CallRequest.prototype.write]: the bytes, and the body as the call
    leaves it (the checksum object is updated in place). *)
Definition CallRequest_write (b : CallRequestBody) : Buf * CallRequestBody :=
  let csum := Checksum_update (req_csum b) (req_arg1 b) (req_arg2 b) (req_arg3 b) in
  (write_UInt32BE (req_ttl b)
   ++ write_fixed 24 (req_tracing b)
   ++ write_buf2 (req_service b)
   ++ header_write (req_headers b)
   ++ write_buf2 (req_arg1 b)
   ++ write_buf2 (req_arg2 b)
   ++ write_buf2 (req_arg3 b)
   ++ Checksum_write csum,
   mkCallRequest (req_ttl b) (req_tracing b) (req_service b) (req_headers b)
     (req_arg1 b) (req_arg2 b) (req_arg3 b) csum).

(** [CallResponse.read].
    code:1 nh:1 (hk~1 hv~1){nh} arg1~2 arg2~2 arg3~2 csumtype:1 (csum:4){0,1} *)
Definition CallResponse_read : Reader Body :=
  read_chained read_UInt8 (fun code =>
  read_chained header_read (fun headers =>
  read_chained read_buf2 (fun arg1 =>
  read_chained read_buf2 (fun arg2 =>
  read_chained read_buf2 (fun arg3 =>
  read_chained Checksum_read (fun csum => fun buffer offset =>
    match Checksum_verify csum arg1 arg2 arg3 with
    | Some err => ResErr err offset
    | None =>
        ResOk offset (CallResponse (mkCallResponse code headers arg1 arg2 arg3 csum))
    end)))))).

(** [CallResponse.prototype.write]. *)
Definition CallResponse_write (b : CallResponseBody) : Buf * CallResponseBody :=
  let csum := Checksum_update (res_csum b) (res_arg1 b) (res_arg2 b) (res_arg3 b) in
  (write_UInt8 (res_code b)
   ++ header_write (res_headers b)
   ++ write_buf2 (res_arg1 b)
   ++ write_buf2 (res_arg2 b)
   ++ write_buf2 (res_arg3 b)
   ++ Checksum_write csum,
   mkCallResponse (res_code b) (res_headers b)
     (res_arg1 b) (res_arg2 b) (res_arg3 b) csum).

(** Modelled from the spec: the table [Frame.Types], filled in outside the
    sources, from the frame types of the wire format. *)
Definition Frame_Types (type : Z) : option (Reader Body) :=
  if type =? 1 then Some (InitRequest_read InitRequest)
  else if type =? 2 then Some (InitRequest_read InitResponse)
  else if type =? 3 then Some CallRequest_read
  else if type =? 4 then Some CallResponse_read
  else if type =? 255 then Some ErrorBody_read
  else None.

(** [body.write()] for each body type: the bytes and the body afterwards. *)
Definition Body_write (b : Body) : option (Buf * Body) :=
  match b with
  | InitRequest i => (fun w => (w, b)) <$> InitRequest_write i
  | InitResponse i => (fun w => (w, b)) <$> InitRequest_write i
  | CallRequest c => let '(w, c') := CallRequest_write c in Some (w, CallRequest c')
  | CallResponse c => let '(w, c') := CallResponse_write c in Some (w, CallResponse c')
  | ErrorFrame e => Some (ErrorBody_write e, b)
  end.

(** [Frame.read].  size:4 id:4 type:1 flags:1 reserved:6 ... *)
Definition Frame_read : Reader Frame :=
  read_chained read_UInt32BE (fun length =>
  read_chained read_UInt32BE (fun id =>
  read_chained read_UInt8 (fun type =>
  read_chained read_UInt8 (fun flags =>
  read_chained (read_fixed 6) (fun _reserved => fun buffer offset =>
    match Frame_Types type with
    | None => ResErr (InvalidFrameTypeError type) offset
    | Some BodyType_read =>
        let bodyLength := length - 16 in
        match read_want bodyLength buffer offset with
        | Some err => ResErr err offset
        | None =>
            let end_ := offset + bodyLength in
            read_chain BodyType_read buffer offset (fun body => fun buffer offset =>
              if offset <? end_
              then ResErr (ExtraFrameDataError length (end_ - offset)) offset
              else ResOk offset (mkFrame id flags body))
        end
    end))))).

(** [Frame.prototype.write] followed by [create()] ([toBuffer]): the bytes,
    and the frame as the call leaves it. *)
Definition Frame_write (f : Frame) : option (Buf * Frame) :=
  match Body_write (frame_body f) with
  | None => None
  | Some (body, b') =>
      let len := 16 + blen body in
      Some (write_UInt32BE len
            ++ write_UInt32BE (frame_id f)
            ++ write_UInt8 (Body_type (frame_body f))
            ++ write_UInt8 (frame_flags f)
            ++ write_fill Byte.x00 6
            ++ body,
            mkFrame (frame_id f) (frame_flags f) b')
  end.

Definition Frame_toBuffer (f : Frame) : option Buf := fst <$> Frame_write f.

End Codec.

(** ** The legal value space of a frame *)

Definition is_u8 (n : Z) : Prop := 0 <= n < 256.
Definition is_u16 (n : Z) : Prop := 0 <= n < 65536.
Definition is_u32 (n : Z) : Prop := 0 <= n < 4294967296.

(** [nh:1 (hk~1 hv~1){nh}]: at most 255 pairs, of keys and values of at most
    255 bytes. *)
Definition legal_headers (hs : list (Buf * Buf)) : Prop :=
  (length hs <= 255)%nat /\
  Forall (fun kv : Buf * Buf => blen kv.1 < 256 /\ blen kv.2 < 256) hs.

Definition legal_init (b : InitBody) : Prop :=
  is_u16 (init_version b) /\
  exists hostPort processName,
    init_hostPort b = Some hostPort /\
    init_processName b = Some processName /\
    blen hostPort < 65536 /\ blen processName < 65536.

Definition legal_body (b : Body) : Prop :=
  match b with
  | InitRequest i | InitResponse i => legal_init i
  | CallRequest c =>
      is_u32 (req_ttl c) /\ length (req_tracing c) = 24%nat /\
      blen (req_service c) < 65536 /\ legal_headers (req_headers c) /\
      blen (req_arg1 c) < 65536 /\ blen (req_arg2 c) < 65536 /\
      blen (req_arg3 c) < 65536
  | CallResponse c =>
      is_u8 (res_code c) /\ legal_headers (res_headers c) /\
      blen (res_arg1 c) < 65536 /\ blen (res_arg2 c) < 65536 /\
      blen (res_arg3 c) < 65536
  | ErrorFrame e => is_u8 (err_code e) /\ blen (err_message e) < 65536
  end.

Definition legal_frame (f : Frame) : Prop :=
  is_u32 (frame_id f) /\ is_u8 (frame_flags f) /\ legal_body (frame_body f).


(** [reads r enc v]: wherever the bytes [enc] stand in a buffer, the reader
    [r] started at their first byte returns [v] and the offset after them. *)
Definition reads {A} (r : Reader A) (enc : Buf) (v : A) : Prop :=
  forall pre post : Buf,
    r (pre ++ enc ++ post) (blen pre) = ResOk (blen pre + blen enc) v.

(** What [write] leaves of a body is the body with its checksum updated. *)
Definition Body_updated (digest : Z -> Buf -> Z) (b : Body) : Body :=
  match b with
  | CallRequest c => CallRequest (CallRequest_write digest c).2
  | CallResponse c => CallResponse (CallResponse_write digest c).2
  | _ => b
  end.

(** ** Chunk readers *)

(** [while (cond) { body }] over a state, with the events the body emits.
    The body answers [true] when it returns from the enclosing function.
    [None] is a loop that has not ended after [fuel] rounds. *)
Fixpoint while_loop {S E : Type} (cond : S -> bool) (body : S -> S * list E * bool)
    (fuel : nat) (s : S) : option (S * list E) :=
  if cond s then
    match fuel with
    | O => None
    | Datatypes.S fuel' =>
        match body s with
        | (s', evs, true) => Some (s', evs)
        | (s', evs, false) =>
            match while_loop cond body fuel' s' with
            | Some (s'', evs') => Some (s'', evs ++ evs')
            | None => None
            end
        end
    end
  else Some (s, []).

(** Chunks handed one after the other to a reader [exec]; the events of all
    calls, in order. *)
Fixpoint feed_chunks {S E : Type} (exec : S -> Buf -> option (S * list E))
    (s : S) (chunks : list Buf) : option (S * list E) :=
  match chunks with
  | [] => Some (s, [])
  | c :: rest =>
      match exec s c with
      | Some (s', evs) =>
          match feed_chunks exec s' rest with
          | Some (s'', evs') => Some (s'', evs ++ evs')
          | None => None
          end
      | None => None
      end
  end.

Inductive States : Type := PendingLength | Seeking.

(** *** [ChunkParser] of v2/parser.js *)

Module ChunkParser.
Section WithFrameType.

(** The frames and [FrameType.read], given to the constructor. *)
Context {F : Type}.
Variable FrameType_read : Reader F.

Record t : Type := mk {
  buffer : Buf;
  expecting : Z;
  state : States
}.

(** What the parser emits: ['error'] with the error, to which [offset] and
    [buffer] are attached, or ['frame']. *)
Inductive Event : Type :=
  | EmitError (err : ReadError) (offset : Z) (buf : Buf)
  | EmitFrame (frame : F).

Definition new : t := mk [] 4 PendingLength.

Definition push (self : t) (chunk : Buf) : t :=
  mk (if bool_decide (blen (buffer self) = 0) then chunk else buffer self ++ chunk)
     (expecting self) (state self).

Definition shift (self : t) : Buf * t :=
  if blen (buffer self) <? expecting self then ([], self)
  else if expecting self <? blen (buffer self) then
    (slice (buffer self) 0 (expecting self),
     mk (slice (buffer self) (expecting self) (blen (buffer self)))
        (expecting self) (state self))
  else (buffer self, mk [] (expecting self) (state self)).

Definition handleFrame (chunk : Buf) : list Event :=
  match FrameType_read chunk 0 with
  | ResErr err end_ => [EmitError err end_ chunk]
  | ResOk end_ frame =>
      if end_ <? blen chunk
      then [EmitError (ShortChunkRead (blen chunk - end_)) end_ chunk]
      else [EmitFrame frame]
  end.

Definition cond (self : t) : bool := expecting self <=? blen (buffer self).

Definition body (self : t) : t * list Event * bool :=
  match state self with
  | PendingLength =>
      (mk (buffer self) (readUInt32BE (buffer self) 0) Seeking, [], false)
  | Seeking =>
      let '(frameChunk, self1) := shift self in
      (mk (buffer self1) 4 PendingLength, handleFrame frameChunk, false)
  end.

(** [ChunkParser.prototype.execute]. *)
Definition execute (fuel : nat) (self : t) (chunk : Buf) : option (t * list Event) :=
  while_loop cond body fuel (push self chunk).

End WithFrameType.
Arguments Event F : clear implicits.
End ChunkParser.

(** *** [ChunkReader], the chunk reader over a parse buffer *)

Module ChunkReader.
Section WithFrameType.

(** The frames, the errors of the frame decoder and
    [bufrw.fromBufferTuple(FrameType.struct, chunk)]. *)
Context {F D : Type}.
Variable fromBufferTuple : Buf -> D + F.

Record t : Type := mk {
  buffer : Buf;
  frameLengthSize : Z;
  expecting : Z;
  state : States
}.

Inductive Error : Type :=
  | ZeroLengthFrameError
  | BrokenReaderStateError (st : States) (expecting avail : Z)
  | DecodeError (err : D).

(** What the reader emits: ['error'], a frame pushed to the readable side,
    or an error handed to the callback of [_transform]. *)
Inductive Event : Type :=
  | EmitError (err : Error)
  | Push (frame : F)
  | CallbackError (err : Error).

(** The constructor; the length prefix takes 1, 2 or 4 bytes, 2 unless
    [options.frameLengthSize] says otherwise. *)
Definition new (frameLengthSize : option Z) : option t :=
  let fls := match frameLengthSize with
             | Some n => if n =? 0 then 2 else n
             | None => 2
             end in
  if (fls =? 1) || (fls =? 2) || (fls =? 4)
  then Some (mk [] fls fls PendingLength)
  else None.

(** Modelled from the spec: the parse buffer, which is not among the
    sources: [push] appends, [avail] counts, [shift(n)] takes [n] bytes off
    the front and gives nothing when fewer are there. *)
Definition avail (self : t) : Z := blen (buffer self).

Definition readLength (self : t) : Z :=
  if frameLengthSize self =? 1 then readUInt8 (buffer self) 0
  else if frameLengthSize self =? 2 then readUInt16BE (buffer self) 0
  else readUInt32BE (buffer self) 0.

Definition buffer_shift (n : Z) (b : Buf) : Buf * Buf :=
  if blen b <? n then ([], b) else (slice b 0 n, slice b n (blen b)).

Definition handleFrame (chunk : Buf) : list Event :=
  match fromBufferTuple chunk with
  | inl err => [EmitError (DecodeError err)]
  | inr frame => [Push frame]
  end.

Definition cond (self : t) : bool := expecting self <=? avail self.

Definition body (self : t) : t * list Event * bool :=
  match state self with
  | PendingLength =>
      let expecting := readLength self in
      if expecting =? 0 then
        (mk (buffer_shift (frameLengthSize self) (buffer self)).2
            (frameLengthSize self) (frameLengthSize self) PendingLength,
         [EmitError ZeroLengthFrameError], false)
      else (mk (buffer self) (frameLengthSize self) expecting Seeking, [], false)
  | Seeking =>
      let '(frameChunk, rest) := buffer_shift (expecting self) (buffer self) in
      if blen frameChunk =? 0 then
        (mk rest (frameLengthSize self) (expecting self) Seeking,
         [CallbackError (BrokenReaderStateError Seeking (expecting self) (blen rest))],
         true)
      else
        (mk rest (frameLengthSize self) (frameLengthSize self) PendingLength,
         handleFrame frameChunk, false)
  end.

Definition push (self : t) (chunk : Buf) : t :=
  mk (buffer self ++ chunk) (frameLengthSize self) (expecting self) (state self).

(** [ChunkReader.prototype._transform]. *)
Definition _transform (fuel : nat) (self : t) (chunk : Buf) : option (t * list Event) :=
  while_loop cond body fuel (push self chunk).

End WithFrameType.
Arguments Error D : clear implicits.
Arguments Event F D : clear implicits.
End ChunkReader.

(** *** Reachable reader states and valid streams *)

(** The states of a [ChunkParser] between and during calls of [execute]:
    while the length is pending, four bytes are expected. *)
Definition ChunkParser_inv (p : ChunkParser.t) : Prop :=
  (ChunkParser.state p = PendingLength -> ChunkParser.expecting p = 4) /\
  0 <= ChunkParser.expecting p.

(** The states of a [ChunkReader]: the width of the length prefix is 1, 2 or
    4; while the length is pending, that many bytes are expected; while
    seeking, a nonzero length is. *)
Definition ChunkReader_inv (r : ChunkReader.t) : Prop :=
  (ChunkReader.frameLengthSize r = 1 \/ ChunkReader.frameLengthSize r = 2 \/
   ChunkReader.frameLengthSize r = 4) /\
  (ChunkReader.state r = PendingLength ->
   ChunkReader.expecting r = ChunkReader.frameLengthSize r) /\
  (ChunkReader.state r = Seeking -> 0 < ChunkReader.expecting r).

(** A well-formed frame on the wire: its first four bytes hold, big-endian,
    its own length.  A valid stream is a concatenation of such frames. *)
Definition wellformed_frame (e : Buf) : Prop :=
  4 <= blen e /\ readUInt32BE e 0 = blen e.

(** The rounds that the loop of a [ChunkReader] can still make are bounded
    by this measure of its state. *)
Definition ChunkReader_measure (r : ChunkReader.t) : nat :=
  (2 * length (ChunkReader.buffer r)
   + match ChunkReader.state r with PendingLength => 1 | Seeking => 0 end)%nat.

(** ** JS values and [JSON.parse] *)

(** A JS string: its UTF-16 code units. *)
Abbreviation jsstring := (list N).

Definition ch (a : ascii) : N := N_of_ascii a.
Definition c_quote : N := 34.
Definition c_backslash : N := 92.

(** The JS string of an ASCII literal of the source. *)
Definition js (s : string) : jsstring := map ch (list_ascii_of_string s).

(** The values that the error codec handles.  A number is kept as the
    literal it was parsed from.  An error object has the name of its
    constructor, the message it was made with and its own enumerable
    properties. *)
#[local] Set Warnings "-register-all".
Inductive jsval : Type :=
  | VUndefined
  | VNull
  | VBool (b : bool)
  | VNumber (literal : jsstring)
  | VString (s : jsstring)
  | VArray (items : list jsval)
  | VObject (props : list (jsstring * jsval))
  | VError (constructor_name : jsstring) (message : jsval)
           (props : list (jsstring * jsval)).

(** [new Error(message)]. *)
Definition Error_new (message : jsstring) : jsval :=
  VError (js "Error") (VString message) [].

(** [obj[k] = v] on the properties of an object: a key that is there keeps
    its place. *)
Fixpoint props_set (props : list (jsstring * jsval)) (k : jsstring) (v : jsval)
    : list (jsstring * jsval) :=
  match props with
  | [] => [(k, v)]
  | (k', v') :: rest =>
      if decide (k' = k) then (k, v) :: rest else (k', v') :: props_set rest k v
  end.

Fixpoint props_get (props : list (jsstring * jsval)) (k : jsstring) : jsval :=
  match props with
  | [] => VUndefined
  | (k', v') :: rest => if decide (k' = k) then v' else props_get rest k
  end.

Definition props_delete (props : list (jsstring * jsval)) (k : jsstring)
    : list (jsstring * jsval) :=
  filter (fun kv => kv.1 <> k) props.

Inductive ParseResult (A : Type) : Type :=
  | SyntaxError
  | OutOfFuel
  | Parsed (v : A) (rest : jsstring).
Arguments SyntaxError {A}.
Arguments OutOfFuel {A}.
Arguments Parsed {A} v rest.

Definition is_ws (c : N) : bool :=
  (c =? 32)%N || (c =? 9)%N || (c =? 10)%N || (c =? 13)%N.

Definition is_digit (c : N) : bool := (48 <=? c)%N && (c <=? 57)%N.

Fixpoint skip_ws (s : jsstring) : jsstring :=
  match s with
  | c :: r => if is_ws c then skip_ws r else s
  | [] => []
  end.

(** [s] without the prefix [lit], when it starts with it. *)
Fixpoint strip_prefix (lit s : jsstring) : option jsstring :=
  match lit, s with
  | [], _ => Some s
  | l :: lit', c :: s' => if (l =? c)%N then strip_prefix lit' s' else None
  | _ :: _, [] => None
  end.

Definition hex_value (c : N) : option N :=
  if is_digit c then Some (c - 48)%N
  else if (97 <=? c)%N && (c <=? 102)%N then Some (c - 87)%N
  else if (65 <=? c)%N && (c <=? 70)%N then Some (c - 55)%N
  else None.

(** The characters of a string literal after its opening quote, up to the
    closing quote, with the escapes resolved. *)
Fixpoint parse_chars (s : jsstring) (acc : jsstring) : option (jsstring * jsstring) :=
  match s with
  | [] => None
  | c :: r =>
      if (c =? c_quote)%N then Some (rev acc, r)
      else if (c =? c_backslash)%N then
        match r with
        | [] => None
        | e :: r' =>
            if (e =? c_quote)%N then parse_chars r' (c_quote :: acc)
            else if (e =? c_backslash)%N then parse_chars r' (c_backslash :: acc)
            else if (e =? ch "/")%N then parse_chars r' (ch "/" :: acc)
            else if (e =? ch "b")%N then parse_chars r' (8%N :: acc)
            else if (e =? ch "f")%N then parse_chars r' (12%N :: acc)
            else if (e =? ch "n")%N then parse_chars r' (10%N :: acc)
            else if (e =? ch "r")%N then parse_chars r' (13%N :: acc)
            else if (e =? ch "t")%N then parse_chars r' (9%N :: acc)
            else if (e =? ch "u")%N then
              match r' with
              | h1 :: h2 :: h3 :: h4 :: r'' =>
                  match hex_value h1, hex_value h2, hex_value h3, hex_value h4 with
                  | Some a, Some b, Some c', Some d =>
                      parse_chars r'' ((((a * 16 + b) * 16 + c') * 16 + d)%N :: acc)
                  | _, _, _, _ => None
                  end
              | _ => None
              end
            else None
        end
      else if (c <? 32)%N then None
      else parse_chars r (c :: acc)
  end.

(** The digits in front of [s], and what follows them. *)
Fixpoint take_digits (s : jsstring) : jsstring * jsstring :=
  match s with
  | c :: r =>
      if is_digit c then let '(ds, rest) := take_digits r in (c :: ds, rest)
      else ([], s)
  | [] => ([], [])
  end.

(** A number: an optional minus, an integer part without a leading zero
    (or 0 alone), an optional fraction, an optional exponent. *)
Definition parse_number (s : jsstring) : option (jsstring * jsstring) :=
  let '(sign, s1) :=
    match s with
    | c :: r => if (c =? ch "-")%N then ([c], r) else ([], s)
    | [] => ([], s)
    end in
  let '(int, s2) := take_digits s1 in
  match int with
  | [] => None
  | d :: more =>
      if (d =? ch "0")%N && negb (bool_decide (more = [])) then None
      else
        let frac :=
          match s2 with
          | c :: r =>
              if (c =? ch ".")%N then
                let '(ds, rest) := take_digits r in
                match ds with
                | [] => None
                | _ => Some (c :: ds, rest)
                end
              else Some ([], s2)
          | [] => Some ([], s2)
          end in
        match frac with
        | None => None
        | Some (fr, s3) =>
            let exp :=
              match s3 with
              | c :: r =>
                  if (c =? ch "e")%N || (c =? ch "E")%N then
                    let '(sg, r1) :=
                      match r with
                      | c' :: r' =>
                          if (c' =? ch "+")%N || (c' =? ch "-")%N
                          then ([c'], r') else ([], r)
                      | [] => ([], r)
                      end in
                    let '(ds, rest) := take_digits r1 in
                    match ds with
                    | [] => None
                    | _ => Some (c :: sg ++ ds, rest)
                    end
                  else Some ([], s3)
              | [] => Some ([], s3)
              end in
            match exp with
            | None => None
            | Some (ex, s4) => Some (sign ++ int ++ fr ++ ex, s4)
            end
        end
  end.

(** A value, the elements of an array after its bracket, and the members of
    an object after its brace.  Every call takes one unit of fuel. *)
Fixpoint parse_value (fuel : nat) (s : jsstring) : ParseResult jsval :=
  match fuel with
  | O => OutOfFuel
  | S fuel' =>
      match skip_ws s with
      | [] => SyntaxError
      | c :: r =>
          if (c =? ch "{")%N then
            match skip_ws r with
            | c' :: r' =>
                if (c' =? ch "}")%N then Parsed (VObject []) r'
                else parse_members fuel' r []
            | [] => SyntaxError
            end
          else if (c =? ch "[")%N then
            match skip_ws r with
            | c' :: r' =>
                if (c' =? ch "]")%N then Parsed (VArray []) r'
                else parse_elements fuel' r []
            | [] => SyntaxError
            end
          else if (c =? c_quote)%N then
            match parse_chars r [] with
            | Some (str, r') => Parsed (VString str) r'
            | None => SyntaxError
            end
          else if (c =? ch "-")%N || is_digit c then
            match parse_number (c :: r) with
            | Some (lit, r') => Parsed (VNumber lit) r'
            | None => SyntaxError
            end
          else
            match strip_prefix (js "true") (c :: r) with
            | Some r' => Parsed (VBool true) r'
            | None =>
                match strip_prefix (js "false") (c :: r) with
                | Some r' => Parsed (VBool false) r'
                | None =>
                    match strip_prefix (js "null") (c :: r) with
                    | Some r' => Parsed VNull r'
                    | None => SyntaxError
                    end
                end
            end
      end
  end
with parse_elements (fuel : nat) (s : jsstring) (acc : list jsval)
    : ParseResult jsval :=
  match fuel with
  | O => OutOfFuel
  | S fuel' =>
      match parse_value fuel' s with
      | Parsed v r =>
          match skip_ws r with
          | c :: r' =>
              if (c =? ch ",")%N then parse_elements fuel' r' (v :: acc)
              else if (c =? ch "]")%N then Parsed (VArray (rev (v :: acc))) r'
              else SyntaxError
          | [] => SyntaxError
          end
      | SyntaxError => SyntaxError
      | OutOfFuel => OutOfFuel
      end
  end
with parse_members (fuel : nat) (s : jsstring) (acc : list (jsstring * jsval))
    : ParseResult jsval :=
  match fuel with
  | O => OutOfFuel
  | S fuel' =>
      match skip_ws s with
      | c :: r =>
          if (c =? c_quote)%N then
            match parse_chars r [] with
            | Some (k, r1) =>
                match skip_ws r1 with
                | c1 :: r2 =>
                    if (c1 =? ch ":")%N then
                      match parse_value fuel' r2 with
                      | Parsed v r3 =>
                          match skip_ws r3 with
                          | c3 :: r4 =>
                              if (c3 =? ch ",")%N
                              then parse_members fuel' r4 (props_set acc k v)
                              else if (c3 =? ch "}")%N
                              then Parsed (VObject (props_set acc k v)) r4
                              else SyntaxError
                          | [] => SyntaxError
                          end
                      | SyntaxError => SyntaxError
                      | OutOfFuel => OutOfFuel
                      end
                    else SyntaxError
                | [] => SyntaxError
                end
            | None => SyntaxError
            end
          else SyntaxError
      | [] => SyntaxError
      end
  end.

(** [JSON.parse(text)]: one value with white space around it; [SyntaxError]
    is the exception that [JSON.parse] throws. *)
Definition JSON_parse (text : jsstring) : ParseResult jsval :=
  match parse_value (2 * length text + 2) text with
  | Parsed v rest =>
      match skip_ws rest with
      | [] => Parsed v []
      | _ :: _ => SyntaxError
      end
  | SyntaxError => SyntaxError
  | OutOfFuel => OutOfFuel
  end.

(** ** The error envelope ([lib/error_serial.js]) *)

(** How an evaluation ends: with a value or with an exception. *)
Inductive Completion (A : Type) : Type :=
  | Normal (v : A)
  | Throws (exn : jsval).
Arguments Normal {A} v.
Arguments Throws {A} exn.

(** A key that [Object.keys] lists: an index of an array or a string, or the
    name of a property. *)
Inductive PropKey : Type :=
  | KIndex (i : nat)
  | KName (name : jsstring).

(** [ks[0] === '$jsError']: an index is a string of digits and never equal
    to it. *)
Definition key_is_jsError (k : PropKey) : bool :=
  match k with
  | KIndex _ => false
  | KName n => bool_decide (n = js "$jsError")
  end.

Definition TypeError_not_object : jsval :=
  VError (js "TypeError")
    (VString (js "Cannot convert undefined or null to object")) [].

(** [Object.keys(v)]: the own enumerable keys; [undefined] and [null] have
    none to offer and throw, the other primitives are wrapped.  Names come in
    the order of insertion (names that are integers, which JS lists first,
    are not moved to the front). *)
Definition Object_keys (v : jsval) : Completion (list PropKey) :=
  match v with
  | VUndefined | VNull => Throws TypeError_not_object
  | VBool _ | VNumber _ => Normal []
  | VString s => Normal (map KIndex (seq 0 (length s)))
  | VArray items => Normal (map KIndex (seq 0 (length items)))
  | VObject props => Normal (map (fun kv => KName kv.1) props)
  | VError _ _ props => Normal (map (fun kv => KName kv.1) props)
  end.

(** [v[k]] for a name [k] that the prototypes of the values do not define
    (as [name] and [message], which only [Error.prototype] defines). *)
Definition get_prop (v : jsval) (k : jsstring) : jsval :=
  match v with
  | VObject props => props_get props k
  | VError cname message props =>
      if bool_decide (k = js "message") then message
      else if bool_decide (k = js "name") then
        match props_get props k with
        | VUndefined => VString cname
        | own => own
        end
      else props_get props k
  | _ => VUndefined
  end.

(** The mantissa of a number literal: what stands before its exponent. *)
Fixpoint mantissa (lit : jsstring) : jsstring :=
  match lit with
  | c :: r => if (c =? 101)%N || (c =? 69)%N then [] else c :: mantissa r
  | [] => []
  end.

(** A value used as a condition.  A number is false when it is zero, that is
    when no digit of its mantissa differs from 0. *)
Definition truthy (v : jsval) : bool :=
  match v with
  | VUndefined | VNull => false
  | VBool b => b
  | VNumber lit => existsb (fun c => is_digit c && negb (c =? 48)%N) (mantissa lit)
  | VString s => negb (bool_decide (s = []))
  | VArray _ | VObject _ | VError _ _ _ => true
  end.

(** [delete data[k]]. *)
Definition delete_prop (v : jsval) (k : jsstring) : jsval :=
  match v with
  | VObject props => VObject (props_delete props k)
  | VError cname message props => VError cname message (props_delete props k)
  | _ => v
  end.

(** [extend(target, source)] of xtend/mutable: the own enumerable properties
    of [source] are assigned to [target]. *)
Definition extend (target source : jsval) : jsval :=
  let assigned :=
    match source with
    | VObject props | VError _ _ props => props
    | _ => []
    end in
  match target with
  | VObject props =>
      VObject (foldl (fun acc kv => props_set acc kv.1 kv.2) props assigned)
  | VError cname message props =>
      VError cname message (foldl (fun acc kv => props_set acc kv.1 kv.2) props assigned)
  | _ => target
  end.

(** [safeParse(str)] of safe-json-parse/tuple: [JSON.parse] with its
    exception caught; [None] is the pair [[error, undefined]] and [Some json]
    the pair [[null, json]].  ([JSON_parse] has fuel for every text: lemma
    [JSON_parse_total].) *)
Definition safeParse (str : jsstring) : option jsval :=
  match JSON_parse str with
  | Parsed json _ => Some json
  | SyntaxError | OutOfFuel => None
  end.

(** [deserializeError].  The message of the error that is built is kept as
    the value given to [new Error]. *)
Definition deserializeError (str : jsstring) : Completion jsval :=
  match safeParse str with
  | None => Normal (VString str)
  | Some data =>
      match Object_keys data with
      | Throws e => Throws e
      | Normal ks =>
          match ks with
          | [k] =>
              if key_is_jsError k then
                let name := get_prop data (js "name") in
                if negb (truthy name) then Normal data
                else
                  let err := VError (js "Error") (get_prop data (js "message")) [] in
                  let data := delete_prop data (js "name") in
                  let data := delete_prop data (js "message") in
                  Normal (extend err data)
              else Normal data
          | _ => Normal data
          end
      end
  end.

Section Serialize.

(** [stringify] of json-stringify-safe, and the stack trace that the
    platform attaches to an error. *)
Variable stringify : jsval -> jsval.
Variable stack_of : jsval -> jsval.

(** [isError]. *)
Definition isError (obj : jsval) : bool :=
  match obj with
  | VError _ _ _ => true
  | _ => false
  end.



End Serialize.

(** ** Router services *)

Module TRouterService.

(** A value offered as a handler: a function, known by its identity, or
    something that is not a function. *)
Inductive HandlerValue : Type :=
  | Function (f : nat)
  | NotAFunction.

Inductive RegisterError : Type :=
  | EndpointAlreadyDefinedError (service endpoint : Buf)
      (oldHandler newHandler : HandlerValue)
  | InvalidHandler.

Record t : Type := mk {
  name : Buf;
  endpoints : gmap Buf HandlerValue
}.

(** [TRouterService(name)]. *)
Definition new (name : Buf) : t := mk name ∅.

(** [TRouterService.prototype.register]: the service afterwards and the
    handler, or the error thrown. *)
Definition register (self : t) (name : Buf) (handler : HandlerValue)
    : RegisterError + (t * HandlerValue) :=
  match endpoints self !! name with
  | Some old =>
      inl (EndpointAlreadyDefinedError (TRouterService.name self) name old handler)
  | None =>
      match handler with
      | NotAFunction => inl InvalidHandler
      | Function _ =>
          inr (mk (TRouterService.name self) (<[name := handler]> (endpoints self)),
               handler)
      end
  end.

End TRouterService.

(** ** The channel and its connections ([index.js]) *)

Abbreviation HandlerValue := TRouterService.HandlerValue.

Inductive Direction : Type := DirIn | DirOut.

(** What a function of the channel or of a connection does to the outside.
    Calls of the logger are left out. *)
Inductive Effect : Type :=
  | CallbackCall (callback : nat) (err : jsval) (res1 res2 : option Buf)
  | SocketWrite (buffer : Buf)
  | SocketDestroy
  | SetTimeout (timer : nat) (delay : Z)
  | ClearTimeout (timer : nat)
  | ConnectionEmit (event : string)
  | ChannelEmit (event : string) (args : list (option Buf))
  | ChannelEmitSocketClose (conn : nat) (err : jsval)
  | NextTick (handler : nat) (id : Z).

(** [remoteName]: [null] until the init frame of the remote side has come,
    then the [hostPort] taken from it, which is [undefined] ([None]) when
    the frame had none. *)
Inductive RemoteName : Type :=
  | RemoteNull
  | RemoteIs (hostPort : option Buf).

(** [TChannelClientOp]. *)
Record ClientOp : Type := mkClientOp {
  op_frame : Frame;
  op_callback : nat;
  op_start : Z;
  op_timeout : option Z;
  op_timedOut : bool
}.

(** [TChannelServerOp]. *)
Record ServerOp : Type := mkServerOp {
  sop_handler : nat;
  sop_reqFrame : Frame;
  sop_timedOut : bool;
  sop_timeout : option Z;
  sop_start : Z;
  sop_checksumType : option Z;
  sop_responseSent : bool
}.

(** The channel.  [chan_now] and [chan_random] are the injected clock and
    random source: the successive readings of the clock, and the successive
    values of [Math.floor(random() * timeoutFuzz)].  [chan_timers] counts the
    handles that [setTimeout] has given out. *)
Record Channel : Type := mkChannel {
  chan_hostPort : Buf;
  chan_processName : Buf;
  chan_reqTimeoutDefault : Z;
  chan_serverTimeoutDefault : Z;
  chan_timeoutCheckInterval : Z;
  chan_timeoutFuzz : Z;
  chan_peers : gmap Buf (list nat);
  chan_endpoints : gmap Buf HandlerValue;
  chan_destroyed : bool;
  chan_now : nat -> Z;
  chan_now_calls : nat;
  chan_random : nat -> Z;
  chan_random_calls : nat;
  chan_timers : nat
}.

(** A connection.  [conn_id] is the identity of the object.  The listeners
    that [addPeer] attaches with [once] are kept with the connection:
    [conn_reset_once] holds the [hostPort] of each pending listener of
    ['reset'], [conn_socketClose_once] counts those of ['socketClose']. *)
Record Connection : Type := mkConnection {
  conn_id : nat;
  conn_direction : Direction;
  conn_remoteAddr : Buf;
  conn_timer : option nat;
  conn_remoteName : RemoteName;
  conn_inOps : gmap Z ServerOp;
  conn_inPending : Z;
  conn_outOps : gmap Z ClientOp;
  conn_outPending : Z;
  conn_lastSentFrameId : Z;
  conn_lastTimeoutTime : Z;
  conn_closing : bool;
  conn_reset_once : list Buf;
  conn_socketClose_once : nat
}.

Definition set_peers (c : Channel) (v : gmap Buf (list nat)) : Channel :=
  mkChannel (chan_hostPort c) (chan_processName c) (chan_reqTimeoutDefault c) (chan_serverTimeoutDefault c)
    (chan_timeoutCheckInterval c) (chan_timeoutFuzz c) v (chan_endpoints c)
    (chan_destroyed c) (chan_now c) (chan_now_calls c) (chan_random c)
    (chan_random_calls c) (chan_timers c).

Definition set_endpoints (c : Channel) (v : gmap Buf HandlerValue) : Channel :=
  mkChannel (chan_hostPort c) (chan_processName c) (chan_reqTimeoutDefault c) (chan_serverTimeoutDefault c)
    (chan_timeoutCheckInterval c) (chan_timeoutFuzz c) (chan_peers c) v
    (chan_destroyed c) (chan_now c) (chan_now_calls c) (chan_random c)
    (chan_random_calls c) (chan_timers c).

Definition set_now_calls (c : Channel) (v : nat) : Channel :=
  mkChannel (chan_hostPort c) (chan_processName c) (chan_reqTimeoutDefault c) (chan_serverTimeoutDefault c)
    (chan_timeoutCheckInterval c) (chan_timeoutFuzz c) (chan_peers c) (chan_endpoints c)
    (chan_destroyed c) (chan_now c) v (chan_random c)
    (chan_random_calls c) (chan_timers c).

Definition set_random_calls (c : Channel) (v : nat) : Channel :=
  mkChannel (chan_hostPort c) (chan_processName c) (chan_reqTimeoutDefault c) (chan_serverTimeoutDefault c)
    (chan_timeoutCheckInterval c) (chan_timeoutFuzz c) (chan_peers c) (chan_endpoints c)
    (chan_destroyed c) (chan_now c) (chan_now_calls c) (chan_random c)
    v (chan_timers c).

Definition set_timers (c : Channel) (v : nat) : Channel :=
  mkChannel (chan_hostPort c) (chan_processName c) (chan_reqTimeoutDefault c) (chan_serverTimeoutDefault c)
    (chan_timeoutCheckInterval c) (chan_timeoutFuzz c) (chan_peers c) (chan_endpoints c)
    (chan_destroyed c) (chan_now c) (chan_now_calls c) (chan_random c)
    (chan_random_calls c) v.

Definition set_timer (c : Connection) (v : option nat) : Connection :=
  mkConnection (conn_id c) (conn_direction c) (conn_remoteAddr c) v
    (conn_remoteName c) (conn_inOps c) (conn_inPending c) (conn_outOps c)
    (conn_outPending c) (conn_lastSentFrameId c) (conn_lastTimeoutTime c)
    (conn_closing c) (conn_reset_once c) (conn_socketClose_once c).

Definition set_remoteName (c : Connection) (v : RemoteName) : Connection :=
  mkConnection (conn_id c) (conn_direction c) (conn_remoteAddr c) (conn_timer c)
    v (conn_inOps c) (conn_inPending c) (conn_outOps c)
    (conn_outPending c) (conn_lastSentFrameId c) (conn_lastTimeoutTime c)
    (conn_closing c) (conn_reset_once c) (conn_socketClose_once c).

Definition set_inOps (c : Connection) (v : gmap Z ServerOp) : Connection :=
  mkConnection (conn_id c) (conn_direction c) (conn_remoteAddr c) (conn_timer c)
    (conn_remoteName c) v (conn_inPending c) (conn_outOps c)
    (conn_outPending c) (conn_lastSentFrameId c) (conn_lastTimeoutTime c)
    (conn_closing c) (conn_reset_once c) (conn_socketClose_once c).

Definition set_inPending (c : Connection) (v : Z) : Connection :=
  mkConnection (conn_id c) (conn_direction c) (conn_remoteAddr c) (conn_timer c)
    (conn_remoteName c) (conn_inOps c) v (conn_outOps c)
    (conn_outPending c) (conn_lastSentFrameId c) (conn_lastTimeoutTime c)
    (conn_closing c) (conn_reset_once c) (conn_socketClose_once c).

Definition set_outOps (c : Connection) (v : gmap Z ClientOp) : Connection :=
  mkConnection (conn_id c) (conn_direction c) (conn_remoteAddr c) (conn_timer c)
    (conn_remoteName c) (conn_inOps c) (conn_inPending c) v
    (conn_outPending c) (conn_lastSentFrameId c) (conn_lastTimeoutTime c)
    (conn_closing c) (conn_reset_once c) (conn_socketClose_once c).

Definition set_outPending (c : Connection) (v : Z) : Connection :=
  mkConnection (conn_id c) (conn_direction c) (conn_remoteAddr c) (conn_timer c)
    (conn_remoteName c) (conn_inOps c) (conn_inPending c) (conn_outOps c)
    v (conn_lastSentFrameId c) (conn_lastTimeoutTime c)
    (conn_closing c) (conn_reset_once c) (conn_socketClose_once c).

Definition set_lastSentFrameId (c : Connection) (v : Z) : Connection :=
  mkConnection (conn_id c) (conn_direction c) (conn_remoteAddr c) (conn_timer c)
    (conn_remoteName c) (conn_inOps c) (conn_inPending c) (conn_outOps c)
    (conn_outPending c) v (conn_lastTimeoutTime c)
    (conn_closing c) (conn_reset_once c) (conn_socketClose_once c).

Definition set_lastTimeoutTime (c : Connection) (v : Z) : Connection :=
  mkConnection (conn_id c) (conn_direction c) (conn_remoteAddr c) (conn_timer c)
    (conn_remoteName c) (conn_inOps c) (conn_inPending c) (conn_outOps c)
    (conn_outPending c) (conn_lastSentFrameId c) v
    (conn_closing c) (conn_reset_once c) (conn_socketClose_once c).

Definition set_closing (c : Connection) (v : bool) : Connection :=
  mkConnection (conn_id c) (conn_direction c) (conn_remoteAddr c) (conn_timer c)
    (conn_remoteName c) (conn_inOps c) (conn_inPending c) (conn_outOps c)
    (conn_outPending c) (conn_lastSentFrameId c) (conn_lastTimeoutTime c)
    v (conn_reset_once c) (conn_socketClose_once c).

Definition set_reset_once (c : Connection) (v : list Buf) : Connection :=
  mkConnection (conn_id c) (conn_direction c) (conn_remoteAddr c) (conn_timer c)
    (conn_remoteName c) (conn_inOps c) (conn_inPending c) (conn_outOps c)
    (conn_outPending c) (conn_lastSentFrameId c) (conn_lastTimeoutTime c)
    (conn_closing c) v (conn_socketClose_once c).

Definition set_socketClose_once (c : Connection) (v : nat) : Connection :=
  mkConnection (conn_id c) (conn_direction c) (conn_remoteAddr c) (conn_timer c)
    (conn_remoteName c) (conn_inOps c) (conn_inPending c) (conn_outOps c)
    (conn_outPending c) (conn_lastSentFrameId c) (conn_lastTimeoutTime c)
    (conn_closing c) (conn_reset_once c) v.

(** *** A monad for state, effects and exceptions *)

(** The state that a method of a connection works on: the connection and
    the channel that owns it. *)
Record St : Type := mkSt { st_chan : Channel; st_conn : Connection }.

(** A method returns, or throws, in a state and after some effects. *)
Inductive Outcome (A : Type) : Type :=
  | Done (v : A) (s : St) (t : list Effect)
  | Raise (exn : jsval) (s : St) (t : list Effect).
Arguments Done {A} v s t.
Arguments Raise {A} exn s t.

Definition M (A : Type) : Type := St -> Outcome A.

Definition ret {A} (v : A) : M A := fun s => Done v s [].

Definition bind {A B} (m : M A) (k : A -> M B) : M B := fun s =>
  match m s with
  | Done v s' t =>
      match k v s' with
      | Done w s'' t' => Done w s'' (t ++ t')
      | Raise e s'' t' => Raise e s'' (t ++ t')
      end
  | Raise e s' t => Raise e s' t
  end.

Notation "'do' x <- m ; k" := (bind m (fun x => k))
  (at level 10, x name, m at level 100, k at level 200).
Notation "'do' ' pat <- m ; k" := (bind m (fun x => let 'pat := x in k))
  (at level 10, pat pattern, m at level 100, k at level 200).
Notation "m ;; k" := (bind m (fun _ => k))
  (at level 100, k at level 200, right associativity).

Definition throw {A} (exn : jsval) : M A := fun s => Raise exn s [].
Definition effect (e : Effect) : M unit := fun s => Done tt s [e].
Definition get_conn : M Connection := fun s => Done (st_conn s) s [].
Definition get_chan : M Channel := fun s => Done (st_chan s) s [].
Definition modify_conn (f : Connection -> Connection) : M unit :=
  fun s => Done tt (mkSt (st_chan s) (f (st_conn s))) [].
Definition modify_chan (f : Channel -> Channel) : M unit :=
  fun s => Done tt (mkSt (f (st_chan s)) (st_conn s)) [].

(** [list.forEach(f)]. *)
Fixpoint forEach {A} (l : list A) (f : A -> M unit) : M unit :=
  match l with
  | [] => ret tt
  | x :: rest => f x ;; forEach rest f
  end.

(** [Object.keys(ops)] of a table of operations: its keys are frame ids,
    which JS lists in ascending order. *)
Definition Object_keys_ops {V} (ops : gmap Z V) : list Z :=
  merge_sort Z.le (map fst (map_to_list ops)).

(** The state and the effects that an outcome holds. *)
Definition outcome_state {A} (o : Outcome A) : St :=
  match o with
  | Done _ s _ | Raise _ s _ => s
  end.

Definition outcome_trace {A} (o : Outcome A) : list Effect :=
  match o with
  | Done _ _ t | Raise _ _ t => t
  end.

(** How often a connection stands in a sequence of peers, and how often a
    [hostPort] stands among the pending listeners. *)
Definition occurrences {A} `{EqDecision A} (x : A) (l : list A) : nat :=
  length (filter (fun y => y = x) l).

(** The calls of the callbacks of the operations of [ops] under [keys], each
    with [err] and no results, in the order of [keys]. *)
Definition reset_callbacks (err : jsval) (ops : gmap Z ClientOp) (keys : list Z)
    : list Effect :=
  flat_map (fun id =>
    match ops !! id with
    | Some op => [CallbackCall (op_callback op) err None None]
    | None => []
    end) keys.

(** *** The channel: endpoints and peers *)

(** [TChannel.prototype.register]. *)
Definition TChannel_register (self : Channel) (op : Buf) (callback : HandlerValue)
    : Channel :=
  set_endpoints self (<[op := callback]> (chan_endpoints self)).

(** [list.indexOf(conn)] and [list.splice(index, 1)]: the list without the
    first occurrence of [conn]; [None] when there is none. *)
Fixpoint splice_first (conn : nat) (conns : list nat) : option (list nat) :=
  match conns with
  | [] => None
  | c :: rest =>
      if decide (c = conn) then Some rest
      else cons c <$> splice_first conn rest
  end.

(** [TChannel.prototype.setPeer]: the channel afterwards, or the error
    thrown. *)
Definition setPeer (self : Channel) (hostPort : Buf) (conn : nat)
    (direction : Direction) : jsval + Channel :=
  if decide (hostPort = chan_hostPort self)
  then inl (Error_new (js "refusing to set self peer"))
  else
    let conns := default [] (chan_peers self !! hostPort) in
    let conns :=
      match direction with
      | DirOut => conn :: conns
      | DirIn => conns ++ [conn]
      end in
    inr (set_peers self (<[hostPort := conns]> (chan_peers self))).

(** [TChannel.prototype.getPeer]. *)
Definition getPeer (self : Channel) (hostPort : Buf) : option nat :=
  match chan_peers self !! hostPort with
  | Some (peer :: _) => Some peer
  | _ => None
  end.

(** [TChannel.prototype.removePeer]. *)
Definition removePeer (self : Channel) (hostPort : Buf) (conn : nat) : Channel :=
  match chan_peers self !! hostPort with
  | None => self
  | Some conns =>
      match splice_first conn conns with
      | None => self
      | Some conns' => set_peers self (<[hostPort := conns']> (chan_peers self))
      end
  end.

(** [TChannel.prototype.addPeer] with a connection given: the listeners are
    attached to the connection, and the connection is entered among the
    peers. *)
Definition addPeer (hostPort : Buf) : M unit :=
  do ch <- get_chan;
  if decide (hostPort = chan_hostPort ch)
  then throw (Error_new (js "refusing to add self peer"))
  else
    modify_conn (fun c => set_reset_once c (conn_reset_once c ++ [hostPort])) ;;
    modify_conn (fun c => set_socketClose_once c (S (conn_socketClose_once c))) ;;
    do c <- get_conn;
    match setPeer ch hostPort (conn_id c) (conn_direction c) with
    | inl e => throw e
    | inr ch' => modify_chan (fun _ => ch')
    end.

(** *** Connections *)

Section ConnectionMethods.

(** [String(buf)] as a JS string, for the payloads that go to [JSON.parse],
    and the checksum algorithms. *)
Variable Buffer_toString : Buf -> jsstring.
Variable digest : Z -> Buf -> Z.

(** [self.channel.now()]: the next reading of the clock. *)
Definition channel_now : M Z :=
  do ch <- get_chan;
  modify_chan (fun ch => set_now_calls ch (S (chan_now_calls ch))) ;;
  ret (chan_now ch (chan_now_calls ch)).

(** [TChannelConnection.prototype.nextFrameId]. *)
Definition nextFrameId : M Z :=
  modify_conn (fun c =>
    set_lastSentFrameId c (Z.rem (conn_lastSentFrameId c + 1) 4294967295)) ;;
  do c <- get_conn;
  ret (conn_lastSentFrameId c).

(** [getTimeoutDelay]: [base + Math.round(Math.floor(random() * fuzz) -
    (fuzz / 2))]; [Math.round] takes a half upwards. *)
Definition getTimeoutDelay : M Z :=
  do ch <- get_chan;
  let base := chan_timeoutCheckInterval ch in
  let fuzz := chan_timeoutFuzz ch in
  let drawn := chan_random ch (chan_random_calls ch) in
  modify_chan (fun ch => set_random_calls ch (S (chan_random_calls ch))) ;;
  ret (base + (2 * drawn - fuzz + 1) / 2).

(** [startTimeoutTimer]. *)
Definition startTimeoutTimer : M unit :=
  do delay <- getTimeoutDelay;
  do ch <- get_chan;
  let timer := chan_timers ch in
  modify_chan (fun ch => set_timers ch (S timer)) ;;
  effect (SetTimeout timer delay) ;;
  modify_conn (fun c => set_timer c (Some timer)).

(** [clearTimeoutTimer]. *)
Definition clearTimeoutTimer : M unit :=
  do c <- get_conn;
  match conn_timer c with
  | Some timer =>
      effect (ClearTimeout timer) ;;
      modify_conn (fun c => set_timer c None)
  | None => ret tt
  end.

Definition TypeError_undefined : jsval :=
  VError (js "TypeError") (VString (js "Cannot read property of undefined")) [].

(** [onReqTimeout]. *)
Definition onReqTimeout (op : ClientOp) : M unit :=
  effect (CallbackCall (op_callback op) (Error_new (js "timed out")) None None) ;;
  do now <- channel_now;
  modify_conn (fun c => set_lastTimeoutTime c now).

(** [op.timeout || self.channel.reqTimeoutDefault]. *)
Definition timeout_or_default (timeout : option Z) (reqTimeoutDefault : Z) : Z :=
  match timeout with
  | Some t => if t =? 0 then reqTimeoutDefault else t
  | None => reqTimeoutDefault
  end.

(** One round of the loop of [checkOutOpsForTimeout]. *)
Definition checkOutOp (now : Z) (opKey : Z) : M unit :=
  do c <- get_conn;
  match conn_outOps c !! opKey with
  | None => throw TypeError_undefined
  | Some op =>
      if op_timedOut op then
        modify_conn (fun c => set_outOps c (delete opKey (conn_outOps c))) ;;
        modify_conn (fun c => set_outPending c (conn_outPending c - 1))
      else
        do ch <- get_chan;
        let timeout := timeout_or_default (op_timeout op) (chan_reqTimeoutDefault ch) in
        let duration := now - op_start op in
        if timeout <? duration then
          modify_conn (fun c => set_outOps c (delete opKey (conn_outOps c))) ;;
          modify_conn (fun c => set_outPending c (conn_outPending c - 1)) ;;
          onReqTimeout op
        else ret tt
  end.

(** [checkOutOpsForTimeout(self.outOps)]. *)
Definition checkOutOpsForTimeout : M unit :=
  do c <- get_conn;
  let opKeys := Object_keys_ops (conn_outOps c) in
  do now <- channel_now;
  forEach opKeys (checkOutOp now).

(** One round of the loop of [checkInOpsForTimeout]. *)
Definition checkInOp (now : Z) (opKey : Z) : M unit :=
  do c <- get_conn;
  match conn_inOps c !! opKey with
  | None => ret tt
  | Some op =>
      do ch <- get_chan;
      let timeout := chan_serverTimeoutDefault ch in
      let duration := now - sop_start op in
      if timeout <? duration then
        modify_conn (fun c => set_inOps c (delete opKey (conn_inOps c))) ;;
        modify_conn (fun c => set_inPending c (conn_inPending c - 1))
      else ret tt
  end.

(** [checkInOpsForTimeout(self.inOps)]. *)
Definition checkInOpsForTimeout : M unit :=
  do c <- get_conn;
  let opKeys := Object_keys_ops (conn_inOps c) in
  do now <- channel_now;
  forEach opKeys (checkInOp now).

(** [onTimeoutCheck], what the timer runs. *)
Definition onTimeoutCheck : M unit :=
  do c <- get_conn;
  if conn_closing c then ret tt
  else if negb (conn_lastTimeoutTime c =? 0) then effect SocketDestroy
  else
    checkOutOpsForTimeout ;;
    checkInOpsForTimeout ;;
    startTimeoutTimer.

(** [self.emit('reset')]: the listeners that [addPeer] attached run, once,
    and remove the connection from the peers; other listeners see the
    event. *)
Definition emit_reset : M unit :=
  do c <- get_conn;
  modify_conn (fun c => set_reset_once c []) ;;
  effect (ConnectionEmit "reset") ;;
  forEach (conn_reset_once c) (fun hostPort =>
    modify_chan (fun ch => removePeer ch hostPort (conn_id c))).

(** [self.emit('socketClose', self, err)]: the listeners that [addPeer]
    attached pass the event on to the channel. *)
Definition emit_socketClose (err : jsval) : M unit :=
  do c <- get_conn;
  modify_conn (fun c => set_socketClose_once c 0) ;;
  effect (ConnectionEmit "socketClose") ;;
  forEach (replicate (conn_socketClose_once c) tt) (fun _ =>
    effect (ChannelEmitSocketClose (conn_id c) err)).

(** [resetAll]. *)
Definition resetAll (err : jsval) : M unit :=
  do c <- get_conn;
  if conn_closing c then ret tt
  else
    modify_conn (fun c => set_closing c true) ;;
    let inOpKeys := Object_keys_ops (conn_inOps c) in
    let outOpKeys := Object_keys_ops (conn_outOps c) in
    clearTimeoutTimer ;;
    emit_reset ;;
    forEach inOpKeys (fun id =>
      modify_conn (fun c => set_inOps c (delete id (conn_inOps c)))) ;;
    forEach outOpKeys (fun id =>
      do c <- get_conn;
      match conn_outOps c !! id with
      | None => throw TypeError_undefined
      | Some op =>
          modify_conn (fun c => set_outOps c (delete id (conn_outOps c))) ;;
          effect (CallbackCall (op_callback op) err None None)
      end) ;;
    modify_conn (fun c => set_inPending c 0) ;;
    modify_conn (fun c => set_outPending c 0) ;;
    emit_socketClose err.

(** [onSocketErr]. *)
Definition onSocketErr (err : jsval) : M unit :=
  do c <- get_conn;
  if conn_closing c then ret tt else resetAll err.

(** [errorForCode], which does not touch the connection: the error for
    the sink, or the exception that [errSer.deserialize] throws. *)
Definition errorForCode (code : Z) (message : Buf) : Completion jsval :=
  if code =? Code_OK then Normal VNull
  else
    match deserializeError (Buffer_toString message) with
    | Throws e => Throws e
    | Normal passedError =>
        if code =? Code_AppException then Normal passedError
        else
          let text :=
            if code =? Code_Timeout then js "tchannel timeout"
            else if code =? Code_Cancelled then js "tchannel canceled"
            else if code =? Code_Busy then js "tchannel busy"
            else if code =? Code_SocketErrorNoRetries
              then js "tchannel socket error, no retries"
            else if code =? Code_SocketError
              then js "tchannel socket error, retries exhausted"
            else js "tchannel invalid response code "
                 ++ js (NilZero.string_of_int (Z.to_int code)) in
          Normal (VError (js "Error") (VString text) [(js "passedError", passedError)])
    end.

(** A call of a function that returns or throws. *)
Definition call {A} (r : Completion A) : M A :=
  match r with
  | Normal v => ret v
  | Throws e => throw e
  end.

(** [completeOutOp]. *)
Definition completeOutOp (id : Z) (err : jsval) (arg1 arg2 : option Buf) : M unit :=
  do c <- get_conn;
  match conn_outOps c !! id with
  | None => ret tt
  | Some op =>
      modify_conn (fun c => set_outOps c (delete id (conn_outOps c))) ;;
      modify_conn (fun c => set_outPending c (conn_outPending c - 1)) ;;
      effect (CallbackCall (op_callback op) err arg1 arg2)
  end.

(** [body.ttl] of the body of a frame; only a call request has one. *)
Definition body_ttl (b : Body) : option Z :=
  match b with
  | CallRequest c => Some (req_ttl c)
  | _ => None
  end.

(** [body.csum.type]. *)
Definition body_csum_type (b : Body) : option Z :=
  match b with
  | CallRequest c => Some (Checksum_type (req_csum c))
  | CallResponse c => Some (Checksum_type (res_csum c))
  | _ => None
  end.

(** [handleCallRequest].  With no function registered under the name, a
    handler that answers "no such operation" is built, ['endpoint.missing']
    is emitted on the channel, and the method returns. *)
Definition handleCallRequest (reqFrame : Frame) (body : CallRequestBody) : M unit :=
  do c <- get_conn;
  match conn_remoteName c with
  | RemoteNull => resetAll (Error_new (js "call request before init request"))
  | RemoteIs _ =>
      let id := frame_id reqFrame in
      let name := req_arg1 body in
      do ch <- get_chan;
      match chan_endpoints ch !! name with
      | Some (TRouterService.Function handler) =>
          effect (ChannelEmit "endpoint" [Some name]) ;;
          modify_conn (fun c => set_inPending c (conn_inPending c + 1)) ;;
          do now <- channel_now;
          effect (NextTick handler id) ;;
          let op := mkServerOp handler reqFrame false (body_ttl (frame_body reqFrame))
                      now (body_csum_type (frame_body reqFrame)) false in
          modify_conn (fun c => set_inOps c (<[id := op]> (conn_inOps c)))
      | _ => effect (ChannelEmit "endpoint.missing" [Some name])
      end
  end.

(** [handleCallResponse]. *)
Definition handleCallResponse (resFrame : Frame) (body : CallResponseBody) : M unit :=
  do c <- get_conn;
  match conn_remoteName c with
  | RemoteNull => resetAll (Error_new (js "call response before init response"))
  | RemoteIs _ =>
      do err <- call (errorForCode (res_code body) (res_arg1 body));
      completeOutOp (frame_id resFrame) err (Some (res_arg2 body)) (Some (res_arg3 body))
  end.

(** [handleError]. *)
Definition handleError (errFrame : Frame) (body : ErrorBody) : M unit :=
  do err <- call (errorForCode (err_code body) (err_message body));
  completeOutOp (frame_id errFrame) err None None.

(** [v2.VERSION]. *)
Definition VERSION : Z := 2.

Definition Error_invalid_write : jsval := Error_new (js "invalid buffer or string").

(** [frame.toBuffer()] and [self.socket.write(buffer)]. *)
Definition write_frame (frame : Frame) : M unit :=
  match Frame_toBuffer digest frame with
  | Some buffer => effect (SocketWrite buffer)
  | None => throw Error_invalid_write
  end.


(** [sendInitResponse]. *)
Definition sendInitResponse : M unit :=
  do id <- nextFrameId;
  do ch <- get_chan;
  let body := InitResponse (mkInitBody VERSION (Some (chan_hostPort ch))
                              (Some (chan_processName ch))) in
  write_frame (mkFrame id 0 body).

(** The key of a [hostPort] among the peers: [undefined] becomes the
    string "undefined". *)
Definition peer_key (hostPort : option Buf) : Buf :=
  default (bytes_of "undefined") hostPort.

(** [handleInitRequest]. *)
Definition handleInitRequest (reqFrame : Frame) (body : InitBody) : M unit :=
  do c <- get_conn;
  match conn_remoteName c with
  | RemoteIs _ => resetAll (Error_new (js "duplicate init request"))
  | RemoteNull =>
      let hostPort := init_hostPort body in
      let processName := init_processName body in
      modify_conn (fun c => set_remoteName c (RemoteIs hostPort)) ;;
      addPeer (peer_key hostPort) ;;
      effect (ChannelEmit "identified" [hostPort; processName]) ;;
      sendInitResponse
  end.

(** [handleInitResponse]. *)
Definition handleInitResponse (resFrame : Frame) (body : InitBody) : M unit :=
  do c <- get_conn;
  match conn_remoteName c with
  | RemoteIs _ => resetAll (Error_new (js "duplicate init response"))
  | RemoteNull =>
      let hostPort := init_hostPort body in
      let processName := init_processName body in
      modify_conn (fun c => set_remoteName c (RemoteIs hostPort)) ;;
      effect (ChannelEmit "identified" [hostPort; processName])
  end.

(** [onFrame]. *)
Definition onFrame (frame : Frame) : M unit :=
  modify_conn (fun c => set_lastTimeoutTime c 0) ;;
  match frame_body frame with
  | InitRequest b => handleInitRequest frame b
  | InitResponse b => handleInitResponse frame b
  | CallRequest b => handleCallRequest frame b
  | CallResponse b => handleCallResponse frame b
  | ErrorFrame b => handleError frame b
  end.

(** The listener of the parser's ['frame']. *)
Definition onParserFrame (frame : Frame) : M unit :=
  do c <- get_conn;
  if conn_closing c then ret tt else onFrame frame.

(** [TChannelConnection.prototype.send]: the operation is entered under the
    next frame id, and the frame is written.  The operation holds the frame
    object, whose checksum [toBuffer] updates. *)
Definition send (reqBody : Body) (callback : nat) : M unit :=
  do id <- nextFrameId;
  let reqFrame := mkFrame id 0 reqBody in
  do now <- channel_now;
  let op := mkClientOp reqFrame callback now (body_ttl reqBody) false in
  modify_conn (fun c => set_outOps c (<[id := op]> (conn_outOps c))) ;;
  match Frame_write digest reqFrame with
  | Some (buffer, written) =>
      modify_conn (fun c =>
        set_outOps c (<[id := mkClientOp written callback now (body_ttl reqBody) false]>
                        (conn_outOps c))) ;;
      effect (SocketWrite buffer)
  | None => throw Error_invalid_write
  end.

(** The fields of a connection as its constructor sets them. *)
Definition Connection_init (id : nat) (direction : Direction) (remoteAddr : Buf)
    : Connection :=
  mkConnection id direction remoteAddr None RemoteNull ∅ 0 ∅ 0 0 0 false [] 0%nat.


End ConnectionMethods.

(** *** What a reset leaves *)

(** A connection as [resetAll] leaves it. *)
Definition Connection_reset (c : Connection) : Connection :=
  mkConnection (conn_id c) (conn_direction c) (conn_remoteAddr c) None
    (conn_remoteName c) ∅ 0 ∅ 0 (conn_lastSentFrameId c) (conn_lastTimeoutTime c)
    true [] 0%nat.

(** The effects of [resetAll(err)] on a connection [c] that is not closing. *)
Definition resetAll_trace (err : jsval) (c : Connection) : list Effect :=
  match conn_timer c with
  | Some timer => [ClearTimeout timer]
  | None => []
  end
  ++ [ConnectionEmit "reset"]
  ++ reset_callbacks err (conn_outOps c) (Object_keys_ops (conn_outOps c))
  ++ [ConnectionEmit "socketClose"]
  ++ replicate (conn_socketClose_once c) (ChannelEmitSocketClose (conn_id c) err).

(** The peers after the listeners of ['reset'] have run. *)
Definition peers_after_reset (ch : Channel) (c : Connection) : Channel :=
  foldl (fun ch hostPort => removePeer ch hostPort (conn_id c)) ch (conn_reset_once c).

(** The sequence of peers under a [hostPort]. *)
Definition peers_of (ch : Channel) (hostPort : Buf) : list nat :=
  default [] (chan_peers ch !! hostPort).

(** Each time [addPeer] enters a connection among the peers, it attaches a
    listener that takes it out again: under every [hostPort], the connection
    stands at most as often as listeners for that [hostPort] are pending. *)
Definition peers_listened (ch : Channel) (c : Connection) : Prop :=
  forall hostPort,
    (occurrences (conn_id c) (peers_of ch hostPort)
     <= occurrences hostPort (conn_reset_once c))%nat.

(** *** What a sweep of the outbound operations does *)

(** The timeout of an operation has passed at the time [now]. *)
Definition op_expired (now reqTimeoutDefault : Z) (op : ClientOp) : bool :=
  timeout_or_default (op_timeout op) reqTimeoutDefault <? now - op_start op.

(** The calls of the callbacks of the operations under [keys] whose timeout
    has passed and that are not flagged as timed out, each with the timeout
    error, in the order of [keys]. *)
Definition timeout_callbacks (now reqTimeoutDefault : Z) (ops : gmap Z ClientOp)
    (keys : list Z) : list Effect :=
  flat_map (fun id =>
    match ops !! id with
    | Some op =>
        if negb (op_timedOut op) && op_expired now reqTimeoutDefault op
        then [CallbackCall (op_callback op) (Error_new (js "timed out")) None None]
        else []
    | None => []
    end) keys.

(** The keys among [keys] that the sweep deletes: those of the operations
    that are flagged as timed out and of those whose timeout has passed. *)
Definition swept_keys (now reqTimeoutDefault : Z) (ops : gmap Z ClientOp)
    (keys : list Z) : list Z :=
  flat_map (fun id =>
    match ops !! id with
    | Some op =>
        if op_timedOut op || op_expired now reqTimeoutDefault op then [id] else []
    | None => []
    end) keys.

(** The connection and the channel after [checkOutOpsForTimeout] has gone
    through [keys] with the reading [now] of the clock. *)
Definition swept_connection (now : Z) (ch : Channel) (c : Connection)
    (keys : list Z) : Connection :=
  let dflt := chan_reqTimeoutDefault ch in
  let n := length (timeout_callbacks now dflt (conn_outOps c) keys) in
  let gone := swept_keys now dflt (conn_outOps c) keys in
  mkConnection (conn_id c) (conn_direction c) (conn_remoteAddr c) (conn_timer c)
    (conn_remoteName c) (conn_inOps c) (conn_inPending c)
    (foldl (fun m id => delete id m) (conn_outOps c) gone)
    (conn_outPending c - Z.of_nat (length gone))
    (conn_lastSentFrameId c)
    (match n with
     | O => conn_lastTimeoutTime c
     | S n' => chan_now ch (chan_now_calls ch + n')%nat
     end)
    (conn_closing c) (conn_reset_once c) (conn_socketClose_once c).

Definition swept_channel (now : Z) (ch : Channel) (c : Connection)
    (keys : list Z) : Channel :=
  set_now_calls ch
    (chan_now_calls ch
     + length (timeout_callbacks now (chan_reqTimeoutDefault ch) (conn_outOps c) keys))%nat.

(** *** A channel and connections to run the methods on *)

Definition example_channel : Channel :=
  mkChannel (bytes_of "127.0.0.1:4041") (bytes_of "B[1]") 5000 5000 1000 100
    ∅ ∅ false (fun n => 10000 + Z.of_nat n) 0%nat (fun _ => 50) 0%nat 0%nat.

(** An inbound connection after the handshake. *)
Definition example_identified : Connection :=
  mkConnection 1%nat DirIn (bytes_of "127.0.0.1:50000") (Some 0%nat)
    (RemoteIs (Some (bytes_of "127.0.0.1:4040"))) ∅ 0 ∅ 0 1 0 false [] 0%nat.

(** A call request for an endpoint that nobody registered. *)
Definition example_missing_body : CallRequestBody :=
  mkCallRequest 1000 (repeat Byte.x00 24) [] [] (bytes_of "missing") [] [] CsumNone.

Definition example_missing : Frame := mkFrame 7 0 (CallRequest example_missing_body).

(** The strings of ASCII buffers, to run the methods with. *)
Definition ascii_toString (b : Buf) : jsstring := map Byte.to_N b.

(** An inbound connection that [addPeer] has entered among the peers, with
    two calls under way. *)
Definition example_op (id : Z) (callback : nat) (start ttl : Z) : ClientOp :=
  mkClientOp (mkFrame id 0 (CallRequest
    (mkCallRequest ttl (repeat Byte.x00 24) [] [] (bytes_of "echo") [] [] CsumNone)))
    callback start (Some ttl) false.

Definition example_peered_channel : Channel :=
  set_peers example_channel {[ bytes_of "127.0.0.1:4040" := [1%nat] ]}.

Definition example_peered : Connection :=
  mkConnection 1%nat DirIn (bytes_of "127.0.0.1:50000") (Some 0%nat)
    (RemoteIs (Some (bytes_of "127.0.0.1:4040"))) ∅ 0
    (<[2 := example_op 2 11 9000 50]> (<[3 := example_op 3 12 9990 1000]> ∅)) 0
    3 0 false [bytes_of "127.0.0.1:4040"] 1%nat.

(** A connection before the handshake, with a call under way. *)
Definition example_unidentified : Connection :=
  mkConnection 2%nat DirOut (bytes_of "127.0.0.1:4040") (Some 0%nat) RemoteNull
    ∅ 0 (<[5 := example_op 5 21 9000 1000]> ∅) 0 5 0 false [] 0%nat.

(** Error frames for the call: with a text, and with the JSON text [null]. *)
Definition example_error_busy : ErrorBody := mkErrorBody Code_Busy (bytes_of "busy").
Definition example_error_null : ErrorBody := mkErrorBody Code_Busy (bytes_of "null").

(** A connection whose only call has a ttl of 0 and started a millisecond
    before the clock's next reading. *)
Definition example_zero_ttl : Connection :=
  mkConnection 1%nat DirOut (bytes_of "127.0.0.1:4040") (Some 0%nat)
    (RemoteIs (Some (bytes_of "127.0.0.1:4040"))) ∅ 0
    (<[2 := example_op 2 11 9999 0]> ∅) 0 2 0 false [] 0%nat.

(** * Example frames *)

(** A checksum algorithm to run the codec with: a 32-bit sum of the bytes. *)
Definition sum32 (t : Z) (b : Buf) : Z :=
  (t + foldr (fun x acc => Z_of_byte x + acc) 0 b) mod 4294967296.

Definition example_call : Frame :=
  mkFrame 7 0 (CallRequest (mkCallRequest 1000 (repeat Byte.x00 24) (bytes_of "svc")
    [(bytes_of "k", bytes_of "v")] (bytes_of "echo") (bytes_of "h")
    (bytes_of "hello") (CsumCrc32 0))).

(** Two frames on the wire and a partition of their bytes. *)
Definition example_init : Frame :=
  mkFrame 1 0 (InitRequest (mkInitBody 2 (Some (bytes_of "127.0.0.1:4040"))
                              (Some (bytes_of "A[1]")))).

Definition example_frames : list Buf :=
  [default [] (Frame_toBuffer sum32 example_init);
   default [] (Frame_toBuffer sum32 example_call)].

Definition example_chunks : list Buf :=
  let s := concat example_frames in
  [take 3 s; take 40 (drop 3 s); []; drop 43 s].

Definition example_decode (b : Buf) : ReadError + Frame :=
  match Frame_read sum32 b 0 with
  | ResErr e _ => inl e
  | ResOk _ f => inr f
  end.


(** * More of the sources *)

(** ** The end of a stream ([ChunkReader.prototype._flush]) *)

(** [TruncatedReadError]: the bytes left in the buffer, and the state and
    the expectation of the reader. *)
Record TruncatedReadError : Type := mkTruncatedReadError {
  truncated_length : Z;
  truncated_state : States;
  truncated_expecting : Z
}.

(** [ChunkReader.prototype._flush]: the reader afterwards and the error
    handed to the callback, if any.  With bytes left over the buffer is
    cleared (modelled from the spec: [clear] of the parse buffer) and the
    reader expects 4 bytes again, whatever the width of its length prefix. *)
Definition ChunkReader_flush (self : ChunkReader.t)
    : ChunkReader.t * option TruncatedReadError :=
  let avail := ChunkReader.avail self in
  if negb (avail =? 0) then
    (ChunkReader.mk [] (ChunkReader.frameLengthSize self) 4 PendingLength,
     Some (mkTruncatedReadError avail (ChunkReader.state self)
             (ChunkReader.expecting self)))
  else (self, None).


(** An event of a [ChunkReader] other than an error handed to the callback
    of [_transform], which only a broken reader state brings about. *)
Definition no_callback_error {F D : Type} (e : ChunkReader.Event F D) : Prop :=
  match e with
  | ChunkReader.CallbackError _ => False
  | _ => True
  end.

(** A frame of the example stream cut after its 20th byte. *)
Definition example_cut : Buf := take 20 (default [] (Frame_toBuffer sum32 example_call)).
Definition example_cut_tail : Buf :=
  drop 20 (default [] (Frame_toBuffer sum32 example_call)).


(** The bytes of the body of [example_call] and the body as [write] leaves
    it. *)
Definition example_call_written : Buf * Body :=
  default ([], frame_body example_call) (Body_write sum32 (frame_body example_call)).

(** ** Values that [JSON.parse] returns *)

(** At the top of a parsed value stands [null], a boolean, a number, a
    string, an array or a plain object. *)
Definition is_json (v : jsval) : bool :=
  match v with
  | VUndefined | VError _ _ _ => false
  | _ => true
  end.

(** ** More example frames and states *)

(** A response to the call 2 of [example_peered], and an error frame for
    it. *)
Definition example_response_body : CallResponseBody :=
  mkCallResponse Code_OK [] (bytes_of "echo") (bytes_of "r2") (bytes_of "r3") CsumNone.

Definition example_response : Frame := mkFrame 2 0 (CallResponse example_response_body).

Definition example_error : Frame := mkFrame 2 0 (ErrorFrame example_error_busy).

(** The call of [example_call] sent as the frame 2: its bytes and the frame
    as [write] leaves it. *)
Definition example_sent : Buf * Frame :=
  default ([], mkFrame 2 0 (frame_body example_call))
    (Frame_write sum32 (mkFrame 2 0 (frame_body example_call))).

(** The body of [example_init]. *)
Definition example_init_body : InitBody :=
  mkInitBody 2 (Some (bytes_of "127.0.0.1:4040")) (Some (bytes_of "A[1]")).

(** ** What a sweep of the inbound operations does *)

(** The time that the channel gives an inbound operation has passed at the
    time [now]. *)
Definition sop_expired (now serverTimeoutDefault : Z) (op : ServerOp) : bool :=
  serverTimeoutDefault <? now - sop_start op.

(** The keys among [keys] that [checkInOpsForTimeout] deletes. *)
Definition in_swept_keys (now serverTimeoutDefault : Z) (ops : gmap Z ServerOp)
    (keys : list Z) : list Z :=
  flat_map (fun id =>
    match ops !! id with
    | Some op => if sop_expired now serverTimeoutDefault op then [id] else []
    | None => []
    end) keys.

(** ** Invariants of the methods of a connection *)

(** A method that leaves [lastTimeoutTime] as it finds it, however it
    ends. *)
Definition keeps_lastTimeoutTime {A} (m : M A) : Prop :=
  forall s, conn_lastTimeoutTime (st_conn (outcome_state (m s)))
            = conn_lastTimeoutTime (st_conn s).

(** A method that never destroys the socket. *)
Definition never_destroys {A} (m : M A) : Prop :=
  forall s, SocketDestroy ∉ outcome_trace (m s).

(** ** The router ([TRouter], [TRouterService.prototype.handleRequest]) *)

(** What a router or a service does with a request: it sends an error with
    [res.send], or calls a handler with the request.  [NotCallable] stands
    for a value that is no function under the name of the endpoint, which
    [register] never stores. *)
Inductive RouterError : Type :=
  | NoSuchServiceError (service : Buf)
  | NoSuchEndpointError (service endpoint : Buf).

Inductive Dispatch : Type :=
  | ResSend (err : RouterError)
  | HandlerCall (handler : nat)
  | NotCallable.

(** [TRouterService.prototype.handleRequest]; [name] is [req.name]. *)
Definition TRouterService_handleRequest (self : TRouterService.t) (name : Buf)
    : Dispatch :=
  match TRouterService.endpoints self !! name with
  | None => ResSend (NoSuchEndpointError (TRouterService.name self) name)
  | Some (TRouterService.Function handler) => HandlerCall handler
  | Some TRouterService.NotAFunction => NotCallable
  end.

Module TRouter.

(** What stands under the name of a service: a [TRouterService], or the
    object [{handleRequest: handler}] that [registerService] makes of a
    function.  (The services are taken to be functions or [TRouterService]
    objects, as the router's own code and its callers make them.) *)
Inductive ServiceValue : Type :=
  | Service (svc : TRouterService.t)
  | Wrapped (handler : nat).

(** A handler given to [registerService]. *)
Inductive ServiceHandler : Type :=
  | HFunction (handler : nat)
  | HService (svc : TRouterService.t).

Inductive Error : Type :=
  | ServiceAlreadyDefinedError (service : Buf) (oldHandler : ServiceValue)
      (newHandler : TRouterService.HandlerValue + ServiceHandler)
  | EndpointError (err : TRouterService.RegisterError)
  | TypeError_register_not_a_function.

Record t : Type := mk { services : gmap Buf ServiceValue }.

(** [TRouter()]. *)
Definition new : t := mk ∅.

(** [TRouter.prototype.registerService]: the router afterwards and the
    handler, or the error thrown. *)
Definition registerService (self : t) (service : Buf) (handler : ServiceHandler)
    : Error + (t * ServiceHandler) :=
  match services self !! service with
  | Some old => inl (ServiceAlreadyDefinedError service old (inr handler))
  | None =>
      let stored :=
        match handler with
        | HFunction f => Wrapped f
        | HService svc => Service svc
        end in
      inr (mk (<[service := stored]> (services self)), handler)
  end.

(** [TRouter.prototype.register], also called [registerEndpoint]: the router
    afterwards, and the handler returned or the error thrown.  For a service
    that is not there, a new [TRouterService] is registered, and then
    [ServiceAlreadyDefinedError] is thrown with it as the old handler. *)
Definition registerEndpoint (self : t) (service endpoint : Buf)
    (handler : TRouterService.HandlerValue)
    : t * (Error + TRouterService.HandlerValue) :=
  match services self !! service with
  | None =>
      let svc := TRouterService.new service in
      match registerService self service (HService svc) with
      | inl e => (self, inl e)
      | inr (self', _) =>
          let old := default (Service svc) (services self' !! service) in
          (self', inl (ServiceAlreadyDefinedError service old (inl handler)))
      end
  | Some (Service svc) =>
      match TRouterService.register svc endpoint handler with
      | inl e => (self, inl (EndpointError e))
      | inr (svc', h) => (mk (<[service := Service svc']> (services self)), inr h)
      end
  | Some (Wrapped _) => (self, inl TypeError_register_not_a_function)
  end.

(** [TRouter.prototype.handleRequest]; [service] and [name] are
    [req.service] and [req.name].  A wrapped function is called whatever the
    name of the endpoint. *)
Definition handleRequest (self : t) (service name : Buf) : Dispatch :=
  match services self !! service with
  | None => ResSend (NoSuchServiceError service)
  | Some (Service svc) => TRouterService_handleRequest svc name
  | Some (Wrapped handler) => HandlerCall handler
  end.

End TRouter.

(** ** Shutting the channel down ([getPeers], [quit]) *)

(** The channel with the connections that it holds among its peers, each
    known by its identity. *)
Record ChannelState : Type := mkChannelState {
  cs_channel : Channel;
  cs_connections : gmap nat Connection
}.

Definition set_destroyed (c : Channel) (v : bool) : Channel :=
  mkChannel (chan_hostPort c) (chan_processName c) (chan_reqTimeoutDefault c)
    (chan_serverTimeoutDefault c) (chan_timeoutCheckInterval c) (chan_timeoutFuzz c)
    (chan_peers c) (chan_endpoints c) v (chan_now c) (chan_now_calls c)
    (chan_random c) (chan_random_calls c) (chan_timers c).

(** [TChannel.prototype.getPeers]: the connections under every [hostPort],
    in the order of [keys], which stands for [Object.keys(self.peers)] (the
    order in which the [hostPort]s were first entered, which the table of
    the peers does not record). *)
Definition getPeers (self : Channel) (keys : list Buf) : list nat :=
  flat_map (fun hostPort => peers_of self hostPort) keys.

(** What [quit] does to the outside: the effects of the methods that it
    calls on a connection, and its own calls on the sockets. *)
Inductive QuitEffect : Type :=
  | OnConnection (conn : nat) (e : Effect)
  | SocketOnceClose (conn : nat)
  | SocketEnd (conn : nat)
  | ServerSocketOnceClose
  | ServerSocketClose
  | ServerSocketOnceListening.

(** The function [eachPeer] of [quit] on the connection [conn]: the state
    afterwards, the effects, and the exception if one of the calls throws. *)
Definition quit_eachPeer (st : ChannelState) (conn : nat)
    : ChannelState * list QuitEffect * option jsval :=
  match cs_connections st !! conn with
  | None => (st, [], None)
  | Some c =>
      let o :=
        (clearTimeoutTimer ;;
         modify_conn (fun c => set_closing c true) ;;
         resetAll (Error_new (js "shutdown from quit")))
          (mkSt (cs_channel st) c) in
      let st' :=
        mkChannelState (st_chan (outcome_state o))
          (<[conn := st_conn (outcome_state o)]> (cs_connections st)) in
      match o with
      | Done _ _ t =>
          (st', SocketOnceClose conn :: map (OnConnection conn) t ++ [SocketEnd conn],
           None)
      | Raise e _ t => (st', SocketOnceClose conn :: map (OnConnection conn) t, Some e)
      end
  end.

(** [peers.forEach(eachPeer)], which an exception ends. *)
Fixpoint quit_forEach (st : ChannelState) (peers : list nat)
    : ChannelState * list QuitEffect * option jsval :=
  match peers with
  | [] => (st, [], None)
  | conn :: rest =>
      match quit_eachPeer st conn with
      | (st1, t1, Some e) => (st1, t1, Some e)
      | (st1, t1, None) =>
          let '(st2, t2, r) := quit_forEach st1 rest in (st2, t1 ++ t2, r)
      end
  end.

(** [TChannel.prototype.quit], up to its return; [listening] tells whether
    the server socket has an address yet.  The callback of [quit] is called
    later, from the ['close'] events of the sockets. *)
Definition quit (st : ChannelState) (keys : list Buf) (listening : bool)
    : ChannelState * list QuitEffect * option jsval :=
  let st0 := mkChannelState (set_destroyed (cs_channel st) true) (cs_connections st) in
  let peers := getPeers (cs_channel st0) keys in
  match quit_forEach st0 peers with
  | (st1, t1, Some e) => (st1, t1, Some e)
  | (st1, t1, None) =>
      (st1,
       t1 ++ (if listening then [ServerSocketOnceClose; ServerSocketClose]
              else [ServerSocketOnceListening]),
       None)
  end.

(** A connection as [quit] leaves it. *)
Definition Connection_quit (c : Connection) : Connection :=
  set_closing (set_timer c None) true.

(** The effects of [quit] on the sockets and the timers, which are all the
    effects it has. *)
Definition quit_effect_expected (e : QuitEffect) : Prop :=
  match e with
  | OnConnection _ (ClearTimeout _) => True
  | OnConnection _ _ => False
  | _ => True
  end.


(** * Properties *)

(** ** Bytes and big-endian integers *)

Lemma Z_of_byte_range b : 0 <= Z_of_byte b < 256.
Proof.
  unfold Z_of_byte. pose proof (Byte.to_N_bounded b). lia.
Qed.

Lemma Z_of_byte_of_Z z : Z_of_byte (byte_of_Z z) = z mod 256.
Proof.
  unfold Z_of_byte, byte_of_Z.
  assert (Hr : 0 <= z mod 256 < 256) by (apply Z.mod_pos_bound; lia).
  destruct (Byte.of_N (Z.to_N (z mod 256))) as [b|] eqn:E.
  - apply Byte.to_of_N in E. rewrite E. lia.
  - apply Byte.of_N_None_iff in E. lia.
Qed.

Lemma byte_of_Z_of_byte b : byte_of_Z (Z_of_byte b) = b.
Proof.
  unfold byte_of_Z. pose proof (Z_of_byte_range b) as Hr.
  rewrite Z.mod_small by lia. unfold Z_of_byte. rewrite N2Z.id.
  now rewrite Byte.of_to_N.
Qed.

Lemma blen_app (a b : Buf) : blen (a ++ b) = blen a + blen b.
Proof. unfold blen. rewrite length_app. lia. Qed.

Lemma blen_nonneg (a : Buf) : 0 <= blen a.
Proof. unfold blen. lia. Qed.

Lemma byte_at_app_r (pre rest : Buf) (i : Z) :
  0 <= i -> byte_at (pre ++ rest) (blen pre + i) = byte_at rest i.
Proof.
  intros Hi. unfold byte_at, blen.
  replace (Z.to_nat (Z.of_nat (length pre) + i)) with (length pre + Z.to_nat i)%nat by lia.
  now rewrite lookup_app_r, Nat.add_comm, Nat.add_sub by lia.
Qed.

Lemma slice_app_mid (pre mid post : Buf) :
  slice (pre ++ mid ++ post) (blen pre) (blen pre + blen mid) = mid.
Proof.
  unfold slice, blen.
  replace (Z.to_nat (Z.of_nat (length pre) + Z.of_nat (length mid) - Z.of_nat (length pre)))
    with (length mid) by lia.
  rewrite Nat2Z.id, drop_app_length. apply take_app_length.
Qed.

(** ** Readers undo writers *)

Lemma reads_ret {A} (v : A) : reads (read_ret v) [] v.
Proof.
  intros pre post. unfold read_ret. f_equal. unfold blen. simpl. lia.
Qed.

Lemma reads_chained {A B} (r : Reader A) (k : A -> Buf -> Z -> Res B) e e' v w :
  reads r e v -> reads (k v) e' w -> reads (read_chained r k) (e ++ e') w.
Proof.
  intros Hr Hk pre post. unfold read_chained, read_chain.
  rewrite <- (app_assoc e e' post), Hr.
  specialize (Hk (pre ++ e) post).
  rewrite blen_app, <- !app_assoc in Hk. rewrite Hk.
  f_equal. rewrite blen_app. lia.
Qed.

Lemma reads_chained_nil {A B} (r : Reader A) (k : A -> Buf -> Z -> Res B) e v w :
  reads r e v -> reads (k v) [] w -> reads (read_chained r k) e w.
Proof.
  intros Hr Hk. rewrite <- (app_nil_r e). now apply reads_chained with v.
Qed.

Lemma want_app (n : Z) (pre enc post : Buf) :
  n <= blen enc -> read_want n (pre ++ enc ++ post) (blen pre) = None.
Proof.
  intros Hn. unfold read_want. rewrite !blen_app.
  pose proof (blen_nonneg post).
  destruct (Z.ltb_spec (blen pre + (blen enc + blen post) - blen pre) n); [lia | done].
Qed.

Lemma byte_at_app_0 (pre rest : Buf) :
  byte_at (pre ++ rest) (blen pre) = byte_at rest 0.
Proof. rewrite <- (Z.add_0_r (blen pre)) at 1. now apply byte_at_app_r. Qed.

Lemma reads_UInt8 n : is_u8 n -> reads read_UInt8 (write_UInt8 n) n.
Proof.
  intros Hn pre post. unfold read_UInt8.
  rewrite want_app by (unfold blen; simpl; lia).
  unfold readUInt8. rewrite byte_at_app_0.
  unfold byte_at. simpl. rewrite Z_of_byte_of_Z.
  unfold is_u8 in Hn. rewrite Z.mod_small by lia. reflexivity.
Qed.

Lemma reads_UInt16BE n : is_u16 n -> reads read_UInt16BE (write_UInt16BE n) n.
Proof.
  intros Hn pre post. unfold read_UInt16BE.
  rewrite want_app by (unfold blen; simpl; lia).
  unfold readUInt16BE. rewrite byte_at_app_0, byte_at_app_r by lia.
  unfold byte_at. simpl. rewrite !Z_of_byte_of_Z.
  unfold is_u16 in Hn. f_equal. Z.div_mod_to_equations. lia.
Qed.

Lemma reads_UInt32BE n : is_u32 n -> reads read_UInt32BE (write_UInt32BE n) n.
Proof.
  intros Hn pre post. unfold read_UInt32BE.
  rewrite want_app by (unfold blen; simpl; lia).
  unfold readUInt32BE. rewrite byte_at_app_0, !byte_at_app_r by lia.
  unfold byte_at. simpl. rewrite !Z_of_byte_of_Z.
  unfold is_u32 in Hn. f_equal. Z.div_mod_to_equations. lia.
Qed.

Lemma reads_fixed (b : Buf) : reads (read_fixed (blen b)) b b.
Proof.
  intros pre post. unfold read_fixed.
  rewrite want_app by lia. now rewrite slice_app_mid.
Qed.

Lemma reads_buf1 (b : Buf) : blen b < 256 -> reads read_buf1 (write_buf1 b) b.
Proof.
  intros Hb. unfold read_buf1, write_buf1.
  apply reads_chained with (blen b).
  - apply reads_UInt8. pose proof (blen_nonneg b). unfold is_u8. lia.
  - apply reads_fixed.
Qed.

Lemma reads_buf2 (b : Buf) : blen b < 65536 -> reads read_buf2 (write_buf2 b) b.
Proof.
  intros Hb. unfold read_buf2, write_buf2.
  apply reads_chained with (blen b).
  - apply reads_UInt16BE. pose proof (blen_nonneg b). unfold is_u16. lia.
  - apply reads_fixed.
Qed.

Lemma reads_pair2 (k v : Buf) :
  blen k < 65536 -> blen v < 65536 ->
  reads read_pair2 (write_buf2 k ++ write_buf2 v) (k, v).
Proof.
  intros Hk Hv. unfold read_pair2.
  apply reads_chained with k; [now apply reads_buf2 |].
  apply reads_chained_nil with v; [now apply reads_buf2 | apply reads_ret].
Qed.

Lemma header_write_pairs_cons (k v : Buf) (hs : list (Buf * Buf)) :
  header_write_pairs ((k, v) :: hs)
  = write_buf1 k ++ write_buf1 v ++ header_write_pairs hs.
Proof.
  unfold header_write_pairs. cbn [concat map fst snd]. now rewrite <- app_assoc.
Qed.

Lemma reads_header_pairs (hs : list (Buf * Buf)) :
  Forall (fun kv : Buf * Buf => blen kv.1 < 256 /\ blen kv.2 < 256) hs ->
  reads (header_read_pairs (length hs)) (header_write_pairs hs) hs.
Proof.
  induction 1 as [| [k v] hs [Hk Hv] _ IH].
  - apply reads_ret.
  - rewrite header_write_pairs_cons. cbn [length header_read_pairs].
    apply reads_chained with k; [now apply reads_buf1 |].
    apply reads_chained with v; [now apply reads_buf1 |].
    apply reads_chained_nil with hs; [exact IH | apply reads_ret].
Qed.

Lemma reads_header (hs : list (Buf * Buf)) :
  legal_headers hs -> reads header_read (header_write hs) hs.
Proof.
  intros [Hn Hall]. unfold header_read, header_write.
  apply reads_chained with (Z.of_nat (length hs)).
  - apply reads_UInt8. unfold is_u8. lia.
  - rewrite Nat2Z.id. now apply reads_header_pairs.
Qed.

Lemma write_fixed_exact (n : nat) (b : Buf) : length b = n -> write_fixed n b = b.
Proof.
  intros <-. unfold write_fixed. apply take_app_length.
Qed.


Lemma reads_end {A} (k : Buf -> Z -> Res A) (v : A) :
  (forall buffer offset, k buffer offset = ResOk offset v) -> reads k [] v.
Proof.
  intros Hk pre post. rewrite Hk. f_equal. unfold blen; simpl; lia.
Qed.

Section CodecProperties.

Variable digest : Z -> Buf -> Z.
Hypothesis digest_u32 : forall t b, is_u32 (digest t b).

Lemma reads_Checksum (c : Checksum) (a1 a2 a3 : Buf) :
  let c' := Checksum_update digest c a1 a2 a3 in
  reads Checksum_read (Checksum_write c') c'.
Proof.
  destruct c; cbn [Checksum_update Checksum_write]; unfold Checksum_read.
  - apply reads_chained_nil with 0; [apply reads_UInt8; unfold is_u8; lia |].
    now apply reads_end.
  - apply reads_chained with 1; [apply reads_UInt8; unfold is_u8; lia |].
    intros pre post. cbn [Z.eqb Pos.eqb]. unfold read_chain.
    rewrite reads_UInt32BE by apply digest_u32. reflexivity.
  - apply reads_chained with 2; [apply reads_UInt8; unfold is_u8; lia |].
    intros pre post. cbn [Z.eqb Pos.eqb]. unfold read_chain.
    rewrite reads_UInt32BE by apply digest_u32. reflexivity.
Qed.

Lemma Checksum_verify_update (c : Checksum) (a1 a2 a3 : Buf) :
  Checksum_verify digest (Checksum_update digest c a1 a2 a3) a1 a2 a3 = None.
Proof.
  destruct c; simpl; [done | |]; now rewrite Z.eqb_refl.
Qed.

Lemma Checksum_update_idem (c : Checksum) (a1 a2 a3 : Buf) :
  Checksum_update digest (Checksum_update digest c a1 a2 a3) a1 a2 a3
  = Checksum_update digest c a1 a2 a3.
Proof. now destruct c. Qed.

Lemma reads_CallRequest (c : CallRequestBody) :
  legal_body (CallRequest c) ->
  reads (CallRequest_read digest) (CallRequest_write digest c).1
        (CallRequest (CallRequest_write digest c).2).
Proof.
  intros (Httl & Htr & Hsvc & Hh & H1 & H2 & H3).
  unfold CallRequest_read, CallRequest_write. cbn [fst snd].
  apply reads_chained with (req_ttl c); [now apply reads_UInt32BE |].
  apply reads_chained with (req_tracing c).
  { rewrite write_fixed_exact by done.
    replace 24 with (blen (req_tracing c)) by (unfold blen; lia).
    apply reads_fixed. }
  apply reads_chained with (req_service c); [now apply reads_buf2 |].
  apply reads_chained with (req_headers c); [now apply reads_header |].
  apply reads_chained with (req_arg1 c); [now apply reads_buf2 |].
  apply reads_chained with (req_arg2 c); [now apply reads_buf2 |].
  apply reads_chained with (req_arg3 c); [now apply reads_buf2 |].
  eapply reads_chained_nil; [apply reads_Checksum |].
  apply reads_end. intros buffer offset.
  now rewrite Checksum_verify_update.
Qed.

Lemma reads_CallResponse (c : CallResponseBody) :
  legal_body (CallResponse c) ->
  reads (CallResponse_read digest) (CallResponse_write digest c).1
        (CallResponse (CallResponse_write digest c).2).
Proof.
  intros (Hcode & Hh & H1 & H2 & H3).
  unfold CallResponse_read, CallResponse_write. cbn [fst snd].
  apply reads_chained with (res_code c); [now apply reads_UInt8 |].
  apply reads_chained with (res_headers c); [now apply reads_header |].
  apply reads_chained with (res_arg1 c); [now apply reads_buf2 |].
  apply reads_chained with (res_arg2 c); [now apply reads_buf2 |].
  apply reads_chained with (res_arg3 c); [now apply reads_buf2 |].
  eapply reads_chained_nil; [apply reads_Checksum |].
  apply reads_end. intros buffer offset.
  now rewrite Checksum_verify_update.
Qed.

Lemma reads_Init (Type_ : InitBody -> Body) (i : InitBody) (w : Buf) :
  legal_init i -> InitRequest_write i = Some w ->
  reads (InitRequest_read Type_) w (Type_ i).
Proof.
  intros (Hv & hp & pn & Ehp & Epn & Hhp & Hpn) Hw.
  unfold InitRequest_write in Hw. rewrite Ehp, Epn in Hw.
  assert (Ew : w = write_UInt16BE (init_version i)
            ++ write_buf2 (bytes_of "host_port") ++ write_buf2 hp
            ++ write_buf2 (bytes_of "process_name") ++ write_buf2 pn) by congruence.
  clear Hw. subst w. unfold InitRequest_read.
  apply reads_chained with (init_version i); [now apply reads_UInt16BE |].
  rewrite (app_assoc (write_buf2 (bytes_of "host_port"))).
  apply reads_chained with (bytes_of "host_port", hp).
  { apply reads_pair2; [vm_compute; done | done]. }
  apply reads_chained_nil with (bytes_of "process_name", pn).
  { apply reads_pair2; [vm_compute; done | done]. }
  apply reads_end. intros buffer offset. simpl.
  destruct i as [v ohp opn]; simpl in *; subst; reflexivity.
Qed.

Lemma reads_ErrorBody (e : ErrorBody) :
  legal_body (ErrorFrame e) ->
  reads ErrorBody_read (ErrorBody_write e) (ErrorFrame e).
Proof.
  intros [Hc Hm]. unfold ErrorBody_read, ErrorBody_write.
  apply reads_chained with (err_code e); [now apply reads_UInt8 |].
  apply reads_chained_nil with (err_message e); [now apply reads_buf2 |].
  destruct e. apply reads_ret.
Qed.


Lemma Body_write_updated (b : Body) (w : Buf) (b' : Body) :
  Body_write digest b = Some (w, b') -> b' = Body_updated digest b.
Proof.
  destruct b as [i|i|c|c|e]; cbn [Body_write Body_updated].
  - destruct (InitRequest_write i); cbn; congruence.
  - destruct (InitRequest_write i); cbn; congruence.
  - destruct (CallRequest_write digest c) as [w0 c0]. cbn. congruence.
  - destruct (CallResponse_write digest c) as [w0 c0]. cbn. congruence.
  - congruence.
Qed.


Lemma reads_Body (b : Body) (w : Buf) (b' : Body) :
  legal_body b -> Body_write digest b = Some (w, b') ->
  exists R, Frame_Types digest (Body_type b) = Some R /\ reads R w b'.
Proof.
  intros Hl Hw.
  destruct b as [i|i|c|c|e]; cbn [Body_write Body_type] in *.
  - destruct (InitRequest_write i) as [w0|] eqn:E; cbn in Hw; [| done].
    assert (w0 = w /\ InitRequest i = b') as [-> <-] by (split; congruence).
    eexists; split; [reflexivity | now apply reads_Init].
  - destruct (InitRequest_write i) as [w0|] eqn:E; cbn in Hw; [| done].
    assert (w0 = w /\ InitResponse i = b') as [-> <-] by (split; congruence).
    eexists; split; [reflexivity | now apply reads_Init].
  - pose proof (reads_CallRequest c Hl) as Hr.
    destruct (CallRequest_write digest c) as [w0 c0].
    assert (w0 = w /\ CallRequest c0 = b') as [-> <-] by (split; congruence).
    eexists; split; [reflexivity | exact Hr].
  - pose proof (reads_CallResponse c Hl) as Hr.
    destruct (CallResponse_write digest c) as [w0 c0].
    assert (w0 = w /\ CallResponse c0 = b') as [-> <-] by (split; congruence).
    eexists; split; [reflexivity | exact Hr].
  - assert (ErrorBody_write e = w /\ ErrorFrame e = b') as [<- <-] by (split; congruence).
    eexists; split; [reflexivity | now apply reads_ErrorBody].
Qed.






Lemma Body_type_u8 (b : Body) : is_u8 (Body_type b).
Proof. destruct b; unfold is_u8; simpl; lia. Qed.



End CodecProperties.


(** ** Loops over a growing buffer *)

Section StreamLoop.

Context {S E : Type}.
Variable cond : S -> bool.
Variable body : S -> S * list E * bool.
Variable push : S -> Buf -> S.
Variable inv : S -> Prop.

Hypothesis push_app : forall s a b, push (push s a) b = push s (a ++ b).
Hypothesis push_nil : forall s, push s [] = s.
Hypothesis inv_push : forall s c, inv s -> inv (push s c).
Hypothesis inv_body : forall s, inv s -> cond s = true -> inv (body s).1.1.
Hypothesis body_continues : forall s, inv s -> cond s = true -> (body s).2 = false.
Hypothesis cond_push : forall s c, inv s -> cond s = true -> cond (push s c) = true.
Hypothesis body_push : forall s c, inv s -> cond s = true ->
  body (push s c) = (push (body s).1.1 c, (body s).1.2, (body s).2).

Lemma while_loop_mono (fuel fuel' : nat) (s : S) r :
  while_loop cond body fuel s = Some r -> (fuel <= fuel')%nat ->
  while_loop cond body fuel' s = Some r.
Proof.
  revert fuel' s r. induction fuel as [| fuel IH]; intros fuel' s r H Hle.
  - destruct fuel'; simpl in *; destruct (cond s); congruence.
  - destruct fuel' as [| fuel']; [lia |]. simpl in *.
    destruct (cond s); [| done].
    destruct (body s) as [[s' evs] [|]]; [done |].
    destruct (while_loop cond body fuel s') as [[s'' evs']|] eqn:Ew; [| done].
    rewrite (IH fuel' s' (s'', evs')) by (done || lia). done.
Qed.

Lemma while_loop_stable (fuel : nat) (s s' : S) evs :
  inv s -> while_loop cond body fuel s = Some (s', evs) ->
  inv s' /\ cond s' = false.
Proof.
  revert s s' evs. induction fuel as [| fuel IH]; intros s s' evs Hi H; simpl in H.
  - destruct (cond s) eqn:C; [done |]. now inversion H; subst.
  - destruct (cond s) eqn:C; [| now inversion H; subst].
    pose proof (inv_body s Hi C) as Hi'. pose proof (body_continues s Hi C) as Hc.
    destruct (body s) as [[s1 ev] h]. simpl in Hi', Hc. subst h.
    destruct (while_loop cond body fuel s1) as [[s2 ev2]|] eqn:Ew; [| done].
    inversion H; subst. eapply IH; eauto.
Qed.

(** A loop over [s] with [c] appended does what the loop over [s] does and
    then what the loop does once [c] is appended to where it stopped. *)
Lemma while_loop_split (fuel : nat) (s r : S) (c : Buf) evs :
  inv s -> while_loop cond body fuel (push s c) = Some (r, evs) ->
  exists s1 e1 e2,
    while_loop cond body fuel s = Some (s1, e1) /\
    while_loop cond body fuel (push s1 c) = Some (r, e2) /\
    evs = e1 ++ e2.
Proof.
  revert s r evs. induction fuel as [| fuel IH]; intros s r evs Hi H.
  - destruct (cond s) eqn:C.
    + pose proof (cond_push s c Hi C) as C'. simpl in H. now rewrite C' in H.
    + exists s, [], evs. simpl. rewrite C. auto.
  - destruct (cond s) eqn:C.
    + pose proof (cond_push s c Hi C) as C'.
      pose proof (body_push s c Hi C) as Hb.
      pose proof (inv_body s Hi C) as Hi'.
      pose proof (body_continues s Hi C) as Hc.
      cbn [while_loop] in H. rewrite C', Hb in H.
      destruct (body s) as [[s' ev] h] eqn:Eb. cbn [fst snd] in *. subst h.
      destruct (while_loop cond body fuel (push s' c)) as [[s'' evs']|] eqn:Ew; [| done].
      inversion H; subst.
      destruct (IH s' r evs' Hi' Ew) as (s1 & e1 & e2 & H1 & H2 & ->).
      exists s1, (ev ++ e1), e2. split; [| split].
      * cbn [while_loop]. now rewrite C, Eb, H1.
      * apply while_loop_mono with fuel; [done | lia].
      * now rewrite app_assoc.
    + exists s, [], evs. split; [| auto]. simpl. now rewrite C.
Qed.

(** Partition invariance: if the loop over the whole stream ends, then the
    chunks of any partition of the stream, handed over one by one, leave the
    same state and emit the same events. *)
Lemma feed_chunks_concat (fuel : nat) (s r : S) (chunks : list Buf) evs :
  inv s -> cond s = false ->
  while_loop cond body fuel (push s (concat chunks)) = Some (r, evs) ->
  feed_chunks (fun s c => while_loop cond body fuel (push s c)) s chunks
  = Some (r, evs).
Proof.
  revert s evs. induction chunks as [| c chunks IH]; intros s evs Hi C H.
  - simpl in *. rewrite push_nil in H. destruct fuel; simpl in H; rewrite C in H; done.
  - cbn [concat] in H. rewrite <- push_app in H.
    destruct (while_loop_split fuel (push s c) r (concat chunks) evs
                (inv_push s c Hi) H) as (s1 & e1 & e2 & H1 & H2 & ->).
    destruct (while_loop_stable fuel _ s1 e1 (inv_push s c Hi) H1) as [Hi1 C1].
    cbn [feed_chunks]. rewrite H1, (IH s1 e2 Hi1 C1 H2). done.
Qed.

End StreamLoop.

Lemma byte_at_app_l (a b : Buf) (i : Z) :
  0 <= i < blen a -> byte_at (a ++ b) i = byte_at a i.
Proof.
  intros Hi. unfold byte_at. unfold blen in Hi.
  now rewrite lookup_app_l by lia.
Qed.

Lemma slice_0_app (a b : Buf) (n : Z) :
  0 <= n <= blen a -> slice (a ++ b) 0 n = slice a 0 n.
Proof.
  intros Hn. unfold slice, blen in *. rewrite Z.sub_0_r. change (Z.to_nat 0) with 0%nat.
  rewrite !drop_0, take_app_le by lia. done.
Qed.

Lemma slice_rest_app (a b : Buf) (n : Z) :
  0 <= n <= blen a ->
  slice (a ++ b) n (blen (a ++ b)) = slice a n (blen a) ++ b.
Proof.
  intros Hn. unfold slice. rewrite blen_app. unfold blen in *.
  rewrite drop_app_le by lia.
  rewrite !take_ge; [done | |]; rewrite ?length_app, !length_drop; lia.
Qed.

Lemma slice_all (a : Buf) : slice a 0 (blen a) = a.
Proof.
  unfold slice, blen. rewrite Z.sub_0_r, Nat2Z.id. change (Z.to_nat 0) with 0%nat.
  rewrite drop_0. apply firstn_all.
Qed.

Lemma slice_empty (a : Buf) : slice a (blen a) (blen a) = [].
Proof. unfold slice. now rewrite Z.sub_diag. Qed.

Lemma blen_slice_0 (a : Buf) (n : Z) : 0 <= n <= blen a -> blen (slice a 0 n) = n.
Proof.
  intros Hn. unfold slice, blen in *. rewrite Z.sub_0_r. change (Z.to_nat 0) with 0%nat.
  rewrite drop_0, length_take. lia.
Qed.

(** ** [ChunkParser] *)

Section ChunkParserProperties.

Context {F : Type}.
Variable FrameType_read : Reader F.

Lemma ChunkParser_push_buffer (p : ChunkParser.t) (c : Buf) :
  ChunkParser.push p c
  = ChunkParser.mk (ChunkParser.buffer p ++ c) (ChunkParser.expecting p)
      (ChunkParser.state p).
Proof.
  unfold ChunkParser.push. case_bool_decide as Hb; [| done].
  destruct (ChunkParser.buffer p); [done |]. unfold blen in Hb. simpl in Hb. lia.
Qed.

Lemma ChunkParser_push_app (p : ChunkParser.t) (a b : Buf) :
  ChunkParser.push (ChunkParser.push p a) b = ChunkParser.push p (a ++ b).
Proof. rewrite !ChunkParser_push_buffer. cbn. now rewrite app_assoc. Qed.

Lemma ChunkParser_push_nil (p : ChunkParser.t) : ChunkParser.push p [] = p.
Proof. rewrite ChunkParser_push_buffer, app_nil_r. now destruct p. Qed.

Lemma ChunkParser_inv_push (p : ChunkParser.t) (c : Buf) :
  ChunkParser_inv p -> ChunkParser_inv (ChunkParser.push p c).
Proof. rewrite ChunkParser_push_buffer. now intros [H1 H2]. Qed.

Lemma readUInt32BE_app (a b : Buf) :
  4 <= blen a -> readUInt32BE (a ++ b) 0 = readUInt32BE a 0.
Proof.
  intros Ha. unfold readUInt32BE. now rewrite !byte_at_app_l by lia.
Qed.

Lemma byte_at_range (a : Buf) (i : Z) : 0 <= byte_at a i < 256.
Proof.
  unfold byte_at. destruct (a !! Z.to_nat i) as [x|]; [apply Z_of_byte_range | lia].
Qed.

Lemma readUInt32BE_nonneg (a : Buf) : 0 <= readUInt32BE a 0.
Proof.
  unfold readUInt32BE.
  pose proof (byte_at_range a 0). pose proof (byte_at_range a (0 + 1)).
  pose proof (byte_at_range a (0 + 2)). pose proof (byte_at_range a (0 + 3)). lia.
Qed.

(** With enough bytes in the buffer, [shift] takes the expected bytes off its
    front. *)
Lemma ChunkParser_shift_ready (p : ChunkParser.t) :
  0 <= ChunkParser.expecting p <= blen (ChunkParser.buffer p) ->
  ChunkParser.shift p
  = (slice (ChunkParser.buffer p) 0 (ChunkParser.expecting p),
     ChunkParser.mk
       (slice (ChunkParser.buffer p) (ChunkParser.expecting p)
          (blen (ChunkParser.buffer p)))
       (ChunkParser.expecting p) (ChunkParser.state p)).
Proof.
  intros He. unfold ChunkParser.shift.
  destruct (Z.ltb_spec (blen (ChunkParser.buffer p)) (ChunkParser.expecting p)); [lia |].
  destruct (Z.ltb_spec (ChunkParser.expecting p) (blen (ChunkParser.buffer p))); [done |].
  assert (Ee : ChunkParser.expecting p = blen (ChunkParser.buffer p)) by lia.
  rewrite Ee, slice_all, slice_empty. done.
Qed.

Lemma ChunkParser_inv_body (p : ChunkParser.t) :
  ChunkParser_inv p -> ChunkParser.cond p = true ->
  ChunkParser_inv (ChunkParser.body FrameType_read p).1.1.
Proof.
  intros [H1 H2] _. unfold ChunkParser.body.
  destruct (ChunkParser.state p) eqn:Es.
  - split; cbn; [done | apply readUInt32BE_nonneg].
  - destruct (ChunkParser.shift p) as [ch p1]. split; cbn; [done | lia].
Qed.

Lemma ChunkParser_body_continues (p : ChunkParser.t) :
  (ChunkParser.body FrameType_read p).2 = false.
Proof.
  unfold ChunkParser.body. destruct (ChunkParser.state p); [done |].
  now destruct (ChunkParser.shift p).
Qed.

Lemma ChunkParser_cond_push (p : ChunkParser.t) (c : Buf) :
  ChunkParser.cond p = true -> ChunkParser.cond (ChunkParser.push p c) = true.
Proof.
  rewrite ChunkParser_push_buffer. unfold ChunkParser.cond. cbn.
  rewrite blen_app. pose proof (blen_nonneg c) as Hpos.
  intros Hle%Z.leb_le. apply Z.leb_le. lia.
Qed.

Lemma ChunkParser_body_push (p : ChunkParser.t) (c : Buf) :
  ChunkParser_inv p -> ChunkParser.cond p = true ->
  ChunkParser.body FrameType_read (ChunkParser.push p c)
  = (ChunkParser.push (ChunkParser.body FrameType_read p).1.1 c,
     (ChunkParser.body FrameType_read p).1.2,
     (ChunkParser.body FrameType_read p).2).
Proof.
  intros [H1 H2] Hc%Z.leb_le. rewrite ChunkParser_push_buffer.
  unfold ChunkParser.body. cbn [ChunkParser.state ChunkParser.buffer].
  destruct (ChunkParser.state p) eqn:Es.
  - cbn [fst snd]. rewrite ChunkParser_push_buffer. cbn.
    rewrite readUInt32BE_app by (rewrite <- (H1 eq_refl); done). done.
  - pose proof (blen_nonneg c) as Hpos.
    rewrite !ChunkParser_shift_ready
      by (cbn [ChunkParser.expecting ChunkParser.buffer]; rewrite ?blen_app; lia).
    cbn [fst snd ChunkParser.expecting ChunkParser.buffer ChunkParser.state].
    rewrite ChunkParser_push_buffer. cbn.
    rewrite slice_0_app, slice_rest_app by lia. done.
Qed.

Lemma slice_app_front (e r : Buf) : slice (e ++ r) 0 (blen e) = e.
Proof.
  pose proof (blen_nonneg e). rewrite slice_0_app, slice_all; [done | lia].
Qed.

Lemma slice_app_back (e r : Buf) : slice (e ++ r) (blen e) (blen (e ++ r)) = r.
Proof.
  pose proof (blen_nonneg e). rewrite slice_rest_app, slice_empty by lia. done.
Qed.

(** A valid stream handed over at once: every frame is cut out and handled,
    and the parser is left as new. *)
Lemma ChunkParser_run_frames (es : list Buf) (fuel : nat) :
  Forall wellformed_frame es -> (2 * length es <= fuel)%nat ->
  while_loop ChunkParser.cond (ChunkParser.body FrameType_read) fuel
    (ChunkParser.mk (concat es) 4 PendingLength)
  = Some (ChunkParser.new, flat_map (ChunkParser.handleFrame FrameType_read) es).
Proof.
  intros Hes. revert fuel.
  induction Hes as [| e es [He4 Hesz] _ IH]; intros fuel Hfuel.
  - destruct fuel; reflexivity.
  - cbn [length] in Hfuel.
    destruct fuel as [| [| fuel]]; [lia | lia |].
    pose proof (blen_nonneg (concat es)) as Hpos.
    cbn [concat while_loop].
    assert (C1 : ChunkParser.cond (ChunkParser.mk (e ++ concat es) 4 PendingLength) = true).
    { unfold ChunkParser.cond. cbn. rewrite blen_app. apply Z.leb_le. lia. }
    rewrite C1. cbn [ChunkParser.body ChunkParser.state ChunkParser.buffer].
    rewrite readUInt32BE_app, Hesz by done.
    assert (C2 : ChunkParser.cond (ChunkParser.mk (e ++ concat es) (blen e) Seeking) = true).
    { unfold ChunkParser.cond. cbn. rewrite blen_app. apply Z.leb_le. lia. }
    rewrite C2. unfold ChunkParser.body at 1. cbn [ChunkParser.state].
    rewrite ChunkParser_shift_ready
      by (cbn [ChunkParser.expecting ChunkParser.buffer]; rewrite blen_app; lia).
    cbn [ChunkParser.expecting ChunkParser.buffer].
    rewrite slice_app_front, slice_app_back.
    rewrite IH by lia. reflexivity.
Qed.

(** Every partition of a valid stream yields the frames of the stream. *)
Lemma ChunkParser_partition (es chunks : list Buf) (fuel : nat) :
  Forall wellformed_frame es -> concat chunks = concat es ->
  (2 * length es <= fuel)%nat ->
  feed_chunks (ChunkParser.execute FrameType_read fuel) ChunkParser.new chunks
  = Some (ChunkParser.new, flat_map (ChunkParser.handleFrame FrameType_read) es).
Proof.
  intros Hes Hcat Hfuel.
  apply (feed_chunks_concat ChunkParser.cond (ChunkParser.body FrameType_read)
           ChunkParser.push ChunkParser_inv).
  - apply ChunkParser_push_app.
  - apply ChunkParser_push_nil.
  - apply ChunkParser_inv_push.
  - apply ChunkParser_inv_body.
  - intros; apply ChunkParser_body_continues.
  - intros; now apply ChunkParser_cond_push.
  - apply ChunkParser_body_push.
  - split; cbn; [done | lia].
  - reflexivity.
  - rewrite Hcat, ChunkParser_push_buffer. cbn [ChunkParser.new ChunkParser.buffer
      ChunkParser.expecting ChunkParser.state app].
    now apply ChunkParser_run_frames.
Qed.

(** A stream that starts with a zero length: the parser reads the length 0,
    cuts out an empty frame without consuming anything, reads the same length
    again, and so on: [execute] does not return. *)
Lemma ChunkParser_zero_loop (rest : Buf) (fuel : nat) :
  let buf := [Byte.x00; Byte.x00; Byte.x00; Byte.x00] ++ rest in
  while_loop ChunkParser.cond (ChunkParser.body FrameType_read) fuel
    (ChunkParser.mk buf 4 PendingLength) = None /\
  while_loop ChunkParser.cond (ChunkParser.body FrameType_read) fuel
    (ChunkParser.mk buf 0 Seeking) = None.
Proof.
  intros buf. pose proof (blen_nonneg rest) as Hpos.
  assert (Hlen : blen buf = 4 + blen rest) by (unfold buf; now rewrite blen_app).
  assert (Hzero : readUInt32BE buf 0 = 0) by reflexivity.
  clearbody buf.
  assert (C1 : ChunkParser.cond (ChunkParser.mk buf 4 PendingLength) = true).
  { unfold ChunkParser.cond. cbn [ChunkParser.expecting ChunkParser.buffer].
    apply Z.leb_le. lia. }
  assert (C2 : ChunkParser.cond (ChunkParser.mk buf 0 Seeking) = true).
  { unfold ChunkParser.cond. cbn [ChunkParser.expecting ChunkParser.buffer].
    apply Z.leb_le. lia. }
  assert (B1 : ChunkParser.body FrameType_read (ChunkParser.mk buf 4 PendingLength)
               = (ChunkParser.mk buf 0 Seeking, [], false)).
  { unfold ChunkParser.body. cbn [ChunkParser.state ChunkParser.buffer].
    now rewrite Hzero. }
  assert (B2 : ChunkParser.body FrameType_read (ChunkParser.mk buf 0 Seeking)
               = (ChunkParser.mk buf 4 PendingLength,
                  ChunkParser.handleFrame FrameType_read [], false)).
  { unfold ChunkParser.body. cbn [ChunkParser.state].
    rewrite ChunkParser_shift_ready
      by (cbn [ChunkParser.expecting ChunkParser.buffer]; lia).
    cbn [ChunkParser.expecting ChunkParser.buffer].
    replace (slice buf 0 (blen buf)) with buf by (symmetry; apply slice_all).
    reflexivity. }
  induction fuel as [| fuel [IH1 IH2]]; cbn [while_loop]; rewrite C1, C2; [done |].
  now rewrite B1, B2, IH1, IH2.
Qed.

End ChunkParserProperties.

(** ** [ChunkReader] *)

Section ChunkReaderProperties.

Context {F D : Type}.
Variable fromBufferTuple : Buf -> D + F.

Lemma ChunkReader_push_app (r : ChunkReader.t) (a b : Buf) :
  ChunkReader.push (ChunkReader.push r a) b = ChunkReader.push r (a ++ b).
Proof. unfold ChunkReader.push. cbn. now rewrite app_assoc. Qed.

Lemma ChunkReader_push_nil (r : ChunkReader.t) : ChunkReader.push r [] = r.
Proof. unfold ChunkReader.push. rewrite app_nil_r. now destruct r. Qed.

Lemma ChunkReader_inv_push (r : ChunkReader.t) (c : Buf) :
  ChunkReader_inv r -> ChunkReader_inv (ChunkReader.push r c).
Proof. now intros (H1 & H2 & H3). Qed.

Lemma ChunkReader_readLength_range (r : ChunkReader.t) : 0 <= ChunkReader.readLength r.
Proof.
  unfold ChunkReader.readLength, readUInt8, readUInt16BE.
  pose proof (readUInt32BE_nonneg (ChunkReader.buffer r)).
  pose proof (byte_at_range (ChunkReader.buffer r) 0).
  pose proof (byte_at_range (ChunkReader.buffer r) (0 + 1)).
  repeat case_match; lia.
Qed.

Lemma ChunkReader_readLength_push (r : ChunkReader.t) (c : Buf) :
  ChunkReader_inv r -> ChunkReader.frameLengthSize r <= blen (ChunkReader.buffer r) ->
  ChunkReader.readLength (ChunkReader.push r c) = ChunkReader.readLength r.
Proof.
  intros (Hf & _) Hle. unfold ChunkReader.readLength, ChunkReader.push.
  cbn [ChunkReader.frameLengthSize ChunkReader.buffer].
  unfold readUInt8, readUInt16BE.
  destruct Hf as [Hf | [Hf | Hf]]; rewrite Hf in *; cbn [Z.eqb Pos.eqb].
  - now rewrite byte_at_app_l by lia.
  - now rewrite !byte_at_app_l by lia.
  - now apply readUInt32BE_app.
Qed.

(** With [n] bytes in the buffer, [shift(n)] takes them off its front. *)
Lemma ChunkReader_shift_ready (n : Z) (b : Buf) :
  0 <= n <= blen b ->
  ChunkReader.buffer_shift n b = (slice b 0 n, slice b n (blen b)).
Proof.
  intros Hn. unfold ChunkReader.buffer_shift.
  destruct (Z.ltb_spec (blen b) n); [lia | done].
Qed.

Lemma ChunkReader_inv_body (r : ChunkReader.t) :
  ChunkReader_inv r -> ChunkReader.cond r = true ->
  ChunkReader_inv (ChunkReader.body fromBufferTuple r).1.1.
Proof.
  intros (Hf & Hp & Hs) _. unfold ChunkReader.body.
  pose proof (ChunkReader_readLength_range r) as Hrange.
  destruct (ChunkReader.state r) eqn:Es.
  - destruct (Z.eqb_spec (ChunkReader.readLength r) 0) as [E0 | E0].
    + repeat split; cbn; auto; discriminate.
    + repeat split; cbn; auto; [discriminate | lia].
  - destruct (ChunkReader.buffer_shift (ChunkReader.expecting r) (ChunkReader.buffer r))
      as [ch rest].
    destruct (blen ch =? 0); repeat split; cbn; auto; discriminate.
Qed.

Lemma ChunkReader_body_continues (r : ChunkReader.t) :
  ChunkReader_inv r -> ChunkReader.cond r = true ->
  (ChunkReader.body fromBufferTuple r).2 = false.
Proof.
  intros (Hf & Hp & Hs) Hc%Z.leb_le. unfold ChunkReader.body, ChunkReader.avail in *.
  destruct (ChunkReader.state r) eqn:Es.
  - now destruct (ChunkReader.readLength r =? 0).
  - specialize (Hs eq_refl). rewrite ChunkReader_shift_ready by lia.
    rewrite blen_slice_0 by lia.
    destruct (Z.eqb_spec (ChunkReader.expecting r) 0); [lia | done].
Qed.

Lemma ChunkReader_cond_push (r : ChunkReader.t) (c : Buf) :
  ChunkReader.cond r = true -> ChunkReader.cond (ChunkReader.push r c) = true.
Proof.
  unfold ChunkReader.cond, ChunkReader.avail, ChunkReader.push. cbn.
  rewrite blen_app. pose proof (blen_nonneg c) as Hpos.
  intros Hle%Z.leb_le. apply Z.leb_le. lia.
Qed.

Lemma ChunkReader_body_push (r : ChunkReader.t) (c : Buf) :
  ChunkReader_inv r -> ChunkReader.cond r = true ->
  ChunkReader.body fromBufferTuple (ChunkReader.push r c)
  = (ChunkReader.push (ChunkReader.body fromBufferTuple r).1.1 c,
     (ChunkReader.body fromBufferTuple r).1.2,
     (ChunkReader.body fromBufferTuple r).2).
Proof.
  intros Hi Hc%Z.leb_le. pose proof Hi as (Hf & Hp & Hs).
  pose proof (blen_nonneg c) as Hpos.
  pose proof (ChunkReader_readLength_push r c Hi) as Hrl.
  destruct r as [buf fls e st].
  unfold ChunkReader.avail in Hc.
  cbn [ChunkReader.buffer ChunkReader.frameLengthSize ChunkReader.expecting
       ChunkReader.state] in *.
  unfold ChunkReader.body.
  cbn [ChunkReader.push ChunkReader.buffer ChunkReader.frameLengthSize
       ChunkReader.expecting ChunkReader.state].
  destruct st.
  - specialize (Hp eq_refl). subst e. rewrite Hrl by done.
    destruct (ChunkReader.readLength (ChunkReader.mk buf fls fls PendingLength) =? 0);
      cbn [fst snd ChunkReader.push ChunkReader.buffer ChunkReader.frameLengthSize
           ChunkReader.expecting ChunkReader.state]; [| done].
    rewrite !ChunkReader_shift_ready by (rewrite ?blen_app; lia).
    cbn [snd]. now rewrite slice_rest_app by lia.
  - specialize (Hs eq_refl).
    rewrite !ChunkReader_shift_ready by (rewrite ?blen_app; lia).
    rewrite slice_0_app, slice_rest_app by lia.
    rewrite blen_slice_0 by lia.
    destruct (Z.eqb_spec e 0); [lia |].
    cbn [fst snd ChunkReader.push ChunkReader.buffer ChunkReader.frameLengthSize
         ChunkReader.expecting ChunkReader.state]. done.
Qed.

Lemma length_slice_rest (b : Buf) (n : Z) :
  0 <= n <= blen b -> length (slice b n (blen b)) = (length b - Z.to_nat n)%nat.
Proof.
  intros Hn. unfold slice, blen in *. rewrite length_take, length_drop. lia.
Qed.

Lemma ChunkReader_measure_body (r : ChunkReader.t) :
  ChunkReader_inv r -> ChunkReader.cond r = true ->
  (ChunkReader_measure (ChunkReader.body fromBufferTuple r).1.1
   < ChunkReader_measure r)%nat.
Proof.
  intros (Hf & Hp & Hs) Hc%Z.leb_le.
  destruct r as [buf fls e st]. unfold ChunkReader.avail in Hc.
  unfold ChunkReader.body, ChunkReader_measure.
  cbn [ChunkReader.buffer ChunkReader.frameLengthSize ChunkReader.expecting
       ChunkReader.state] in *.
  destruct st.
  - specialize (Hp eq_refl). subst e.
    destruct (ChunkReader.readLength _ =? 0);
      cbn [fst snd ChunkReader.buffer ChunkReader.state]; [| lia].
    rewrite ChunkReader_shift_ready by lia. cbn [snd].
    rewrite length_slice_rest by lia. unfold blen in Hc. lia.
  - specialize (Hs eq_refl).
    rewrite ChunkReader_shift_ready by lia.
    rewrite blen_slice_0 by lia.
    destruct (Z.eqb_spec e 0); [lia |].
    cbn [fst snd ChunkReader.buffer ChunkReader.state].
    rewrite length_slice_rest by lia. unfold blen in Hc. lia.
Qed.

(** The loop of a [ChunkReader] ends, whatever the bytes are. *)
Lemma ChunkReader_terminates (fuel : nat) (r : ChunkReader.t) :
  ChunkReader_inv r -> (ChunkReader_measure r <= fuel)%nat ->
  exists res,
    while_loop ChunkReader.cond (ChunkReader.body fromBufferTuple) fuel r = Some res.
Proof.
  revert r. induction fuel as [| fuel IH]; intros r Hi Hm.
  - cbn [while_loop]. destruct (ChunkReader.cond r) eqn:C; [| eauto].
    pose proof (ChunkReader_measure_body r Hi C). lia.
  - cbn [while_loop]. destruct (ChunkReader.cond r) eqn:C; [| eauto].
    pose proof (ChunkReader_measure_body r Hi C) as Hlt.
    pose proof (ChunkReader_inv_body r Hi C) as Hi'.
    pose proof (ChunkReader_body_continues r Hi C) as Hk.
    destruct (ChunkReader.body fromBufferTuple r) as [[r' ev] h].
    cbn [fst snd] in *. subst h.
    destruct (IH r' Hi' ltac:(lia)) as [[r'' evs] ->]. eauto.
Qed.

Lemma ChunkReader_new_inv (fls : option Z) (r0 : ChunkReader.t) :
  ChunkReader.new fls = Some r0 ->
  ChunkReader_inv r0 /\ ChunkReader.cond r0 = false /\ ChunkReader.buffer r0 = [].
Proof.
  unfold ChunkReader.new. intros H.
  destruct (_ || _) eqn:Hb in H; [| done]. injection H as <-.
  apply orb_true_iff in Hb as [Hb | Hb%Z.eqb_eq];
    [apply orb_true_iff in Hb as [Hb%Z.eqb_eq | Hb%Z.eqb_eq] |];
    rewrite Hb; (split; [| split]; [| reflexivity | reflexivity]);
    (split; [| split]); cbn; auto; discriminate.
Qed.

(** Every partition of a stream, valid or not, leaves a [ChunkReader] in the
    state and with the events of the whole stream handed over at once. *)
Lemma ChunkReader_partition (fls : option Z) (r0 : ChunkReader.t)
    (chunks : list Buf) (fuel : nat) :
  ChunkReader.new fls = Some r0 ->
  (2 * length (concat chunks) + 1 <= fuel)%nat ->
  exists r evs,
    ChunkReader._transform fromBufferTuple fuel r0 (concat chunks) = Some (r, evs) /\
    feed_chunks (ChunkReader._transform fromBufferTuple fuel) r0 chunks = Some (r, evs).
Proof.
  intros Hnew Hfuel. destruct (ChunkReader_new_inv fls r0 Hnew) as (Hi & Hc & Hb).
  destruct (ChunkReader_terminates fuel (ChunkReader.push r0 (concat chunks)))
    as [[r evs] Hrun].
  { now apply ChunkReader_inv_push. }
  { unfold ChunkReader_measure, ChunkReader.push.
    cbn [ChunkReader.buffer ChunkReader.state]. rewrite Hb. cbn [app].
    destruct (ChunkReader.state r0); lia. }
  exists r, evs. split; [exact Hrun |].
  apply (feed_chunks_concat ChunkReader.cond (ChunkReader.body fromBufferTuple)
           ChunkReader.push ChunkReader_inv).
  - apply ChunkReader_push_app.
  - apply ChunkReader_push_nil.
  - apply ChunkReader_inv_push.
  - apply ChunkReader_inv_body.
  - apply ChunkReader_body_continues.
  - intros; now apply ChunkReader_cond_push.
  - apply ChunkReader_body_push.
  - exact Hi.
  - exact Hc.
  - exact Hrun.
Qed.

(** A zero length in front of a stream, with the four-byte prefix of
    TChannel: one zero-length-frame error is emitted, the four bytes are
    skipped, the reader keeps waiting for a length, and it goes on with the
    bytes that follow as a new reader would. *)
Lemma ChunkReader_zero_length (r0 : ChunkReader.t) (rest : Buf) (fuel : nat) :
  ChunkReader.new (Some 4) = Some r0 ->
  (2 * length rest + 10 <= fuel)%nat ->
  ChunkReader.body fromBufferTuple
    (ChunkReader.push r0 ([Byte.x00; Byte.x00; Byte.x00; Byte.x00] ++ rest))
  = (ChunkReader.push r0 rest,
     [ChunkReader.EmitError ChunkReader.ZeroLengthFrameError], false) /\
  exists r evs,
    ChunkReader._transform fromBufferTuple fuel r0 rest = Some (r, evs) /\
    ChunkReader._transform fromBufferTuple fuel r0
      ([Byte.x00; Byte.x00; Byte.x00; Byte.x00] ++ rest)
    = Some (r, ChunkReader.EmitError ChunkReader.ZeroLengthFrameError :: evs).
Proof.
  intros Hnew Hfuel. injection Hnew as <-.
  assert (Hbody : ChunkReader.body fromBufferTuple
    (ChunkReader.push (ChunkReader.mk [] 4 4 PendingLength)
       ([Byte.x00; Byte.x00; Byte.x00; Byte.x00] ++ rest))
    = (ChunkReader.push (ChunkReader.mk [] 4 4 PendingLength) rest,
       [ChunkReader.EmitError ChunkReader.ZeroLengthFrameError], false)).
  { unfold ChunkReader.body, ChunkReader.push.
    cbn [ChunkReader.buffer ChunkReader.frameLengthSize ChunkReader.expecting
         ChunkReader.state app].
    change (ChunkReader.readLength _ =? 0) with true. cbv iota.
    rewrite (ChunkReader_shift_ready 4 (_ :: _ :: _ :: _ :: rest))
      by (pose proof (blen_nonneg rest); unfold blen in *; cbn [length]; lia).
    cbn [snd].
    change (Byte.x00 :: Byte.x00 :: Byte.x00 :: Byte.x00 :: rest)
      with ([Byte.x00; Byte.x00; Byte.x00; Byte.x00] ++ rest).
    change 4 with (blen [Byte.x00; Byte.x00; Byte.x00; Byte.x00]) at 3.
    now rewrite slice_app_back. }
  split; [exact Hbody |].
  destruct fuel as [| fuel]; [lia |].
  destruct (ChunkReader_terminates fuel
              (ChunkReader.push (ChunkReader.mk [] 4 4 PendingLength) rest))
    as [[r evs] Hrun].
  { repeat split; cbn; auto; discriminate. }
  { unfold ChunkReader_measure. cbn. lia. }
  exists r, evs. split.
  - unfold ChunkReader._transform.
    apply (while_loop_mono _ _ fuel); [exact Hrun | lia].
  - unfold ChunkReader._transform. cbn [while_loop].
    assert (C : ChunkReader.cond (ChunkReader.push (ChunkReader.mk [] 4 4 PendingLength)
                  ([Byte.x00; Byte.x00; Byte.x00; Byte.x00] ++ rest)) = true).
    { unfold ChunkReader.cond, ChunkReader.avail, ChunkReader.push.
      cbn [ChunkReader.buffer ChunkReader.expecting app].
      apply Z.leb_le. unfold blen. cbn [length]. lia. }
    now rewrite C, Hbody, Hrun.
Qed.

(** A valid stream handed over at once to a reader with the four-byte
    prefix: every frame is cut out and handled. *)
Lemma ChunkReader_run_frames (es : list Buf) (fuel : nat) :
  Forall wellformed_frame es -> (2 * length es <= fuel)%nat ->
  while_loop ChunkReader.cond (ChunkReader.body fromBufferTuple) fuel
    (ChunkReader.mk (concat es) 4 4 PendingLength)
  = Some (ChunkReader.mk [] 4 4 PendingLength,
          flat_map (ChunkReader.handleFrame fromBufferTuple) es).
Proof.
  intros Hes. revert fuel.
  induction Hes as [| e es [He4 Hesz] _ IH]; intros fuel Hfuel.
  - destruct fuel; reflexivity.
  - cbn [length] in Hfuel.
    destruct fuel as [| [| fuel]]; [lia | lia |].
    pose proof (blen_nonneg (concat es)) as Hpos.
    cbn [concat while_loop].
    assert (C1 : ChunkReader.cond (ChunkReader.mk (e ++ concat es) 4 4 PendingLength) = true).
    { unfold ChunkReader.cond, ChunkReader.avail. cbn [ChunkReader.buffer ChunkReader.expecting].
      rewrite blen_app. apply Z.leb_le. lia. }
    assert (B1 : ChunkReader.body fromBufferTuple
                   (ChunkReader.mk (e ++ concat es) 4 4 PendingLength)
                 = (ChunkReader.mk (e ++ concat es) 4 (blen e) Seeking, [], false)).
    { unfold ChunkReader.body. cbn [ChunkReader.state]. unfold ChunkReader.readLength.
      cbn [ChunkReader.frameLengthSize ChunkReader.buffer Z.eqb Pos.eqb].
      rewrite readUInt32BE_app, Hesz by done.
      destruct (Z.eqb_spec (blen e) 0); [lia | done]. }
    assert (C2 : ChunkReader.cond (ChunkReader.mk (e ++ concat es) 4 (blen e) Seeking) = true).
    { unfold ChunkReader.cond, ChunkReader.avail. cbn [ChunkReader.buffer ChunkReader.expecting].
      rewrite blen_app. apply Z.leb_le. lia. }
    assert (B2 : ChunkReader.body fromBufferTuple
                   (ChunkReader.mk (e ++ concat es) 4 (blen e) Seeking)
                 = (ChunkReader.mk (concat es) 4 4 PendingLength,
                    ChunkReader.handleFrame fromBufferTuple e, false)).
    { unfold ChunkReader.body.
      cbn [ChunkReader.state ChunkReader.expecting ChunkReader.buffer
           ChunkReader.frameLengthSize].
      rewrite ChunkReader_shift_ready by (rewrite blen_app; lia).
      rewrite slice_app_front, slice_app_back.
      destruct (Z.eqb_spec (blen e) 0); [lia | done]. }
    rewrite C1, B1, C2, B2.
    rewrite IH by lia. reflexivity.
Qed.

End ChunkReaderProperties.

Lemma wellformed_frames_length (frames : list Buf) :
  Forall wellformed_frame frames -> (length frames <= length (concat frames))%nat.
Proof.
  induction 1 as [| e es [He _] _ IH]; cbn [concat length]; [lia |].
  rewrite length_app. unfold blen in He. lia.
Qed.

(** C2. Partition invariance of framing, for both chunk readers of the
    sources: for every valid byte stream (a concatenation of well-formed
    frames) and every partition of it into chunks, handing the chunks in
    order to a new [ChunkParser], or to a new [ChunkReader], ends, and emits
    what handing over the whole stream at once emits and leaves the same
    state.  With the four-byte length prefix these events are the decoded
    frames of the stream, one per frame and in order. *)
Theorem chunk_partition_invariance {F D : Type}
    (FrameType_read : Reader F) (fromBufferTuple : Buf -> D + F)
    (frames chunks : list Buf) (fuel : nat) :
  Forall wellformed_frame frames ->
  concat chunks = concat frames ->
  (2 * length (concat frames) + 1 <= fuel)%nat ->
  (feed_chunks (ChunkParser.execute FrameType_read fuel) ChunkParser.new chunks
   = feed_chunks (ChunkParser.execute FrameType_read fuel) ChunkParser.new
       [concat frames] /\
   feed_chunks (ChunkParser.execute FrameType_read fuel) ChunkParser.new chunks
   = Some (ChunkParser.new,
           flat_map (ChunkParser.handleFrame FrameType_read) frames)) /\
  (forall fls r0, ChunkReader.new fls = Some r0 ->
   exists r evs,
     feed_chunks (ChunkReader._transform fromBufferTuple fuel) r0 chunks
     = Some (r, evs) /\
     feed_chunks (ChunkReader._transform fromBufferTuple fuel) r0 [concat frames]
     = Some (r, evs) /\
     (fls = Some 4 ->
      evs = flat_map (ChunkReader.handleFrame fromBufferTuple) frames)).
Proof.
  intros Hes Hcat Hfuel.
  pose proof (wellformed_frames_length frames Hes) as Hlen.
  split; [split |].
  - rewrite (ChunkParser_partition FrameType_read frames chunks fuel) by (done || lia).
    rewrite (ChunkParser_partition FrameType_read frames [concat frames] fuel);
      [done | done | | lia].
    cbn [concat]. now rewrite app_nil_r.
  - apply ChunkParser_partition; (done || lia).
  - intros fls r0 Hnew.
    destruct (ChunkReader_partition fromBufferTuple fls r0 chunks fuel Hnew)
      as (r & evs & Hall & Hparts); [rewrite Hcat; lia |].
    exists r, evs. split; [exact Hparts | split].
    + cbn [feed_chunks]. rewrite <- Hcat, Hall. now rewrite app_nil_r.
    + intros ->. injection Hnew as <-.
      unfold ChunkReader._transform, ChunkReader.push in Hall.
      cbn [ChunkReader.buffer ChunkReader.frameLengthSize ChunkReader.expecting
           ChunkReader.state app] in Hall.
      rewrite Hcat, ChunkReader_run_frames in Hall by (done || lia).
      congruence.
Qed.

Lemma chunk_partition_invariance_witness :
  (feed_chunks (ChunkParser.execute (Frame_read sum32) 500) ChunkParser.new
     example_chunks
   = feed_chunks (ChunkParser.execute (Frame_read sum32) 500) ChunkParser.new
       [concat example_frames] /\
   feed_chunks (ChunkParser.execute (Frame_read sum32) 500) ChunkParser.new
     example_chunks
   = Some (ChunkParser.new,
           flat_map (ChunkParser.handleFrame (Frame_read sum32)) example_frames)) /\
  (forall fls r0, ChunkReader.new fls = Some r0 ->
   exists r evs,
     feed_chunks (ChunkReader._transform example_decode 500) r0 example_chunks
     = Some (r, evs) /\
     feed_chunks (ChunkReader._transform example_decode 500) r0
       [concat example_frames] = Some (r, evs) /\
     (fls = Some 4 ->
      evs = flat_map (ChunkReader.handleFrame example_decode) example_frames)).
Proof.
  apply (chunk_partition_invariance (Frame_read sum32) example_decode
           example_frames example_chunks 500).
  - repeat (apply Forall_cons; split; [split; vm_compute; congruence |]).
    apply Forall_nil; exact I.
  - vm_compute. reflexivity.
  - vm_compute. lia.
Defined.

(** C3, at the [ChunkParser] of v2/parser.js.  A stream that begins with the
    four bytes 00 00 00 00: [execute] on a new parser never returns, whatever
    follows the four bytes; it neither skips them nor reaches the bytes
    after them. *)
Theorem ChunkParser_zero_length_never_returns {F : Type}
    (FrameType_read : Reader F) (rest : Buf) (fuel : nat) :
  ChunkParser.execute FrameType_read fuel ChunkParser.new
    ([Byte.x00; Byte.x00; Byte.x00; Byte.x00] ++ rest) = None.
Proof.
  unfold ChunkParser.execute. rewrite ChunkParser_push_buffer.
  apply (ChunkParser_zero_loop FrameType_read rest fuel).
Qed.

(** ** [JSON.parse] always ends *)

Lemma skip_ws_length (s : jsstring) : (length (skip_ws s) <= length s)%nat.
Proof.
  induction s as [| c r IH]; cbn [skip_ws length]; [lia |].
  destruct (is_ws c); cbn [length]; lia.
Qed.

Lemma skip_ws_cons_length (s : jsstring) (c : N) (r : jsstring) :
  skip_ws s = c :: r -> (length r < length s)%nat.
Proof.
  intros H. pose proof (skip_ws_length s) as Hl. rewrite H in Hl.
  cbn [length] in Hl. lia.
Qed.

Lemma parse_chars_length (n : nat) (s acc str r : jsstring) :
  (length s <= n)%nat -> parse_chars s acc = Some (str, r) ->
  (length r < length s)%nat.
Proof.
  revert s acc. induction n as [| n IH]; intros s acc Hn H.
  - destruct s; [discriminate | cbn [length] in Hn; lia].
  - destruct s as [| c s1]; [discriminate |].
    cbn [parse_chars length] in *.
    repeat (case_match; try discriminate; subst; cbn [length] in *);
      try (injection H as <- <-; lia);
      try (apply IH in H; [lia | cbn [length] in *; lia]).
Qed.

Lemma take_digits_length (s ds rest : jsstring) :
  take_digits s = (ds, rest) -> (length ds + length rest = length s)%nat.
Proof.
  revert ds rest. induction s as [| c r IH]; intros ds rest H; cbn [take_digits] in H.
  - injection H as <- <-. reflexivity.
  - destruct (is_digit c).
    + destruct (take_digits r) as [ds' rest'] eqn:E. injection H as <- <-.
      specialize (IH _ _ eq_refl). cbn [length]. lia.
    + injection H as <- <-. reflexivity.
Qed.

Lemma parse_number_length (s lit r : jsstring) :
  parse_number s = Some (lit, r) -> (length r < length s)%nat.
Proof.
  unfold parse_number. intros H.
  repeat match type of H with
         | context [take_digits ?x] =>
             let E := fresh "E" in
             destruct (take_digits x) eqn:E; apply take_digits_length in E
         | _ => case_match; try discriminate; subst
         end;
    repeat match goal with
           | Hd : take_digits _ = _ |- _ => apply take_digits_length in Hd
           end;
    cbn [length] in *; simplify_eq; cbn [length] in *; lia.
Qed.

Lemma strip_prefix_length (lit s r : jsstring) :
  strip_prefix lit s = Some r -> (length r + length lit = length s)%nat.
Proof.
  revert s. induction lit as [| l lit IH]; intros s H; cbn [strip_prefix] in H.
  - injection H as <-. cbn [length]. lia.
  - destruct s as [| c s']; [discriminate |].
    destruct (l =? c)%N; [| discriminate].
    apply IH in H. cbn [length]. lia.
Qed.

Ltac json_lengths :=
  repeat match goal with
         | H : skip_ws _ = _ :: _ |- _ => apply skip_ws_cons_length in H
         | H : parse_chars ?s _ = Some _ |- _ =>
             apply (parse_chars_length (length s)) in H; [| lia]
         | H : parse_number _ = Some _ |- _ => apply parse_number_length in H
         | H : strip_prefix _ _ = Some _ |- _ => apply strip_prefix_length in H
         | H : context [length (js ?l)] |- _ =>
             let n := eval vm_compute in (length (js l)) in
             change (length (js l)) with n in H
         end;
  cbn [length] in *.

(** With fuel for twice the characters, no call runs out of fuel, and what
    a call leaves is shorter than what it was given. *)
Lemma parse_fuel (fuel : nat) :
  (forall s, (2 * length s + 1 <= fuel)%nat ->
     parse_value fuel s <> OutOfFuel /\
     forall v r, parse_value fuel s = Parsed v r -> (length r < length s)%nat) /\
  (forall s acc, (2 * length s + 2 <= fuel)%nat ->
     parse_elements fuel s acc <> OutOfFuel /\
     forall v r, parse_elements fuel s acc = Parsed v r -> (length r < length s)%nat) /\
  (forall s acc, (2 * length s + 2 <= fuel)%nat ->
     parse_members fuel s acc <> OutOfFuel /\
     forall v r, parse_members fuel s acc = Parsed v r -> (length r < length s)%nat).
Proof.
  induction fuel as [| fuel (IHv & IHe & IHm)].
  { repeat split; intros; lia. }
  split; [| split].
  - intros s Hf. cbn [parse_value].
    destruct (skip_ws s) as [| c r] eqn:Es; [split; [done | intros; discriminate] |].
    apply skip_ws_cons_length in Es.
    destruct (c =? ch "{")%N.
    { destruct (skip_ws r) as [| c' r'] eqn:Er; [split; [done | intros; discriminate] |].
      apply skip_ws_cons_length in Er.
      destruct (c' =? ch "}")%N.
      - split; [done |]. intros v r0 [= <- <-]. lia.
      - destruct (IHm r [] ltac:(lia)) as [Hn Hl]. split; [done |].
        intros v r0 Hp. apply Hl in Hp. lia. }
    destruct (c =? ch "[")%N.
    { destruct (skip_ws r) as [| c' r'] eqn:Er; [split; [done | intros; discriminate] |].
      apply skip_ws_cons_length in Er.
      destruct (c' =? ch "]")%N.
      - split; [done |]. intros v r0 [= <- <-]. lia.
      - destruct (IHe r [] ltac:(lia)) as [Hn Hl]. split; [done |].
        intros v r0 Hp. apply Hl in Hp. lia. }
    split; [repeat case_match; done |].
    intros v r0 Hp. repeat case_match; simplify_eq; json_lengths; lia.
  - intros s acc Hf. cbn [parse_elements].
    destruct (IHv s ltac:(lia)) as [Hn Hl].
    destruct (parse_value fuel s) as [| | v r] eqn:Ev; [split; [done | intros; discriminate] | done |].
    specialize (Hl v r eq_refl).
    destruct (skip_ws r) as [| c r'] eqn:Er; [split; [done | intros; discriminate] |].
    apply skip_ws_cons_length in Er.
    destruct (c =? ch ",")%N.
    { destruct (IHe r' (v :: acc) ltac:(lia)) as [Hn' Hl']. split; [done |].
      intros v0 r0 Hp. apply Hl' in Hp. lia. }
    destruct (c =? ch "]")%N; split; try done; intros v0 r0 [= <- <-]; lia.
  - intros s acc Hf. cbn [parse_members].
    destruct (skip_ws s) as [| c r] eqn:Es; [split; [done | intros; discriminate] |].
    apply skip_ws_cons_length in Es.
    destruct (c =? c_quote)%N; [| split; [done | intros; discriminate]].
    destruct (parse_chars r []) as [[k r1] |] eqn:Ek; [| split; [done | intros; discriminate]].
    apply (parse_chars_length (length r)) in Ek; [| lia].
    destruct (skip_ws r1) as [| c1 r2] eqn:E1; [split; [done | intros; discriminate] |].
    apply skip_ws_cons_length in E1.
    destruct (c1 =? ch ":")%N; [| split; [done | intros; discriminate]].
    destruct (IHv r2 ltac:(lia)) as [Hn Hl].
    destruct (parse_value fuel r2) as [| | v r3] eqn:Ev; [split; [done | intros; discriminate] | done |].
    specialize (Hl v r3 eq_refl).
    destruct (skip_ws r3) as [| c3 r4] eqn:E3; [split; [done | intros; discriminate] |].
    apply skip_ws_cons_length in E3.
    destruct (c3 =? ch ",")%N.
    { destruct (IHm r4 (props_set acc k v) ltac:(lia)) as [Hn' Hl']. split; [done |].
      intros v0 r0 Hp. apply Hl' in Hp. lia. }
    destruct (c3 =? ch "}")%N; split; try done; intros v0 r0 [= <- <-]; lia.
Qed.

(** [JSON.parse] returns a value or throws a syntax error. *)
Lemma JSON_parse_total (text : jsstring) : JSON_parse text <> OutOfFuel.
Proof.
  unfold JSON_parse.
  destruct (parse_fuel (2 * length text + 2)) as (Hv & _ & _).
  destruct (Hv text ltac:(lia)) as [Hn _].
  destruct (parse_value (2 * length text + 2) text); [done | done |].
  now destruct (skip_ws rest).
Qed.

(** ** The error envelope *)




(** A string that is the JSON text of a number or of [null] does not come
    back either: the number comes back, and [null] makes [Object.keys]
    throw. *)
Lemma deserializeError_number : deserializeError (js "42") = Normal (VNumber (js "42")).
Proof. vm_compute. reflexivity. Qed.

Lemma deserializeError_null : deserializeError (js "null") = Throws TypeError_not_object.
Proof. vm_compute. reflexivity. Qed.

(** An envelope comes back as the object that was parsed: its only key is
    [$jsError], so that it has no [name] of its own. *)
Lemma deserializeError_envelope (s : jsstring) (inner : jsval) :
  JSON_parse s = Parsed (VObject [(js "$jsError", inner)]) [] ->
  deserializeError s = Normal (VObject [(js "$jsError", inner)]).
Proof.
  intros Hs. unfold deserializeError, safeParse. rewrite Hs. reflexivity.
Qed.

(** ** Frame ids *)

(** On a connection that has issued nonnegative ids, the next id is the
    successor of the last one modulo 2^32 - 1. *)
Lemma nextFrameId_spec (s : St) :
  0 <= conn_lastSentFrameId (st_conn s) ->
  let next := (conn_lastSentFrameId (st_conn s) + 1) mod 4294967295 in
  nextFrameId s
  = Done next (mkSt (st_chan s) (set_lastSentFrameId (st_conn s) next)) [].
Proof.
  intros Hpos next. unfold nextFrameId, bind, modify_conn, get_conn, ret.
  cbn. unfold next. rewrite Z.rem_mod_nonneg by lia. reflexivity.
Qed.

(** The first id that a new connection issues is 1. *)
Lemma nextFrameId_first (ch : Channel) (id : nat) (d : Direction) (addr : Buf) :
  exists s', nextFrameId (mkSt ch (Connection_init id d addr)) = Done 1 s' [].
Proof. eexists. reflexivity. Qed.

(** The ids of a connection stay below 2^32 - 1: the id 2^32 - 1 is never
    issued. *)
Lemma nextFrameId_range (s : St) (id : Z) (s' : St) t :
  0 <= conn_lastSentFrameId (st_conn s) ->
  nextFrameId s = Done id s' t -> 0 <= id < 4294967295.
Proof.
  intros Hpos H. rewrite nextFrameId_spec in H by done.
  injection H as <- _ _. apply Z.mod_pos_bound. lia.
Qed.

(** C5, at the id 2^32 - 2.  After the id 4294967294 the connection issues
    the id 0, where the recurrence [next = (last + 1) mod 2^32] gives
    4294967295. *)
Theorem nextFrameId_wraps_before_2_32 :
  let s := mkSt example_channel (set_lastSentFrameId example_identified 4294967294) in
  nextFrameId s
  = Done 0 (mkSt example_channel (set_lastSentFrameId example_identified 0)) [] /\
  (4294967294 + 1) mod 4294967296 = 4294967295.
Proof. split; reflexivity. Qed.

(** ** Endpoint registration *)

(** [TChannel.register] of a name that is registered replaces its handler. *)
Lemma TChannel_register_replaces (self : Channel) (op : Buf) (old new : HandlerValue) :
  chan_endpoints self !! op = Some old ->
  chan_endpoints (TChannel_register self op new) !! op = Some new.
Proof. intros _. unfold TChannel_register. cbn. apply lookup_insert_eq. Qed.

(** [TRouterService.register] of a name that is registered throws, for
    every handler value, and the service is left as it was. *)
Lemma TRouterService_register_defined (self : TRouterService.t) (name : Buf)
    (old handler : HandlerValue) :
  TRouterService.endpoints self !! name = Some old ->
  TRouterService.register self name handler
  = inl (TRouterService.EndpointAlreadyDefinedError (TRouterService.name self)
           name old handler).
Proof. intros H. unfold TRouterService.register. now rewrite H. Qed.

(** C8, at [TChannel.register].  Registering the name "echo" a second time
    is no error: the channel returned holds the second handler under the
    name, and the first one is gone. *)
Theorem TChannel_register_twice :
  let ch1 := TChannel_register example_channel (bytes_of "echo")
               (TRouterService.Function 1) in
  let ch2 := TChannel_register ch1 (bytes_of "echo") (TRouterService.Function 2) in
  chan_endpoints ch1 !! bytes_of "echo" = Some (TRouterService.Function 1) /\
  chan_endpoints ch2 !! bytes_of "echo" = Some (TRouterService.Function 2).
Proof.
  split; unfold TChannel_register; cbn [chan_endpoints set_endpoints];
    apply lookup_insert_eq.
Qed.

(** ** Serving a call request *)

Ltac msimpl :=
  cbn [bind ret throw effect get_conn get_chan modify_conn modify_chan
       st_conn st_chan app
       conn_id conn_direction conn_remoteAddr conn_timer conn_remoteName
       conn_inOps conn_inPending conn_outOps conn_outPending
       conn_lastSentFrameId conn_lastTimeoutTime conn_closing
       conn_reset_once conn_socketClose_once
       set_timer set_remoteName set_inOps set_inPending set_outOps
       set_outPending set_lastSentFrameId set_lastTimeoutTime set_closing
       set_reset_once set_socketClose_once
       chan_hostPort chan_processName chan_reqTimeoutDefault
       chan_serverTimeoutDefault chan_timeoutCheckInterval chan_timeoutFuzz
       chan_peers chan_endpoints chan_destroyed chan_now chan_now_calls
       chan_random chan_random_calls chan_timers
       set_peers set_endpoints set_now_calls set_random_calls set_timers].

Ltac mrun :=
  unfold bind, ret, throw, effect, get_conn, get_chan, modify_conn, modify_chan;
  msimpl.

Lemma forEach_cons {A} (x : A) (l : list A) (f : A -> M unit) (s : St) :
  forEach (x :: l) f s = bind (f x) (fun _ => forEach l f) s.
Proof. reflexivity. Qed.

Lemma bind_Done {A B} (m : M A) (k : A -> M B) (s s' : St) (v : A) t :
  m s = Done v s' t ->
  bind m k s
  = match k v s' with
    | Done w s'' t' => Done w s'' (t ++ t')
    | Raise e s'' t' => Raise e s'' (t ++ t')
    end.
Proof. intros H. unfold bind. now rewrite H. Qed.

Lemma bind_Raise {A B} (m : M A) (k : A -> M B) (s s' : St) (e : jsval) t :
  m s = Raise e s' t -> bind m k s = Raise e s' t.
Proof. intros H. unfold bind. now rewrite H. Qed.

(** A call request for a name under which no function is registered, on a
    connection that went through the handshake: the channel emits
    ['endpoint.missing'], and that is all: no operation is entered, no
    handler is scheduled, nothing is written to the socket. *)
Lemma handleCallRequest_missing (s : St) (reqFrame : Frame) (body : CallRequestBody) :
  conn_remoteName (st_conn s) <> RemoteNull ->
  (forall h, chan_endpoints (st_chan s) !! req_arg1 body
             <> Some (TRouterService.Function h)) ->
  handleCallRequest reqFrame body s
  = Done tt s [ChannelEmit "endpoint.missing" [Some (req_arg1 body)]].
Proof.
  intros Hname Hep. destruct s as [ch c]. unfold handleCallRequest. msimpl.
  destruct (conn_remoteName c) as [| n] eqn:En; [done |]. msimpl.
  destruct (chan_endpoints ch !! req_arg1 body) as [[h |] |] eqn:E; msimpl;
    [now specialize (Hep h) | reflexivity | reflexivity].
Qed.

(** C4, at a request for the endpoint "missing".  The connection B has
    been identified and no endpoint is registered.  [handleCallRequest]
    emits ['endpoint.missing'] on the channel and returns: the connection is
    as before, with no inbound operation for the frame, no handler was
    scheduled and no response frame was written, so that the caller's sink
    is not invoked by any answer. *)
Theorem handleCallRequest_missing_endpoint :
  handleCallRequest example_missing example_missing_body
    (mkSt example_channel example_identified)
  = Done tt (mkSt example_channel example_identified)
      [ChannelEmit "endpoint.missing" [Some (bytes_of "missing")]].
Proof. reflexivity. Qed.

(** With a function registered under the name, the operation is entered and
    the handler is scheduled. *)
Lemma handleCallRequest_registered (s : St) (reqFrame : Frame)
    (body : CallRequestBody) (h : nat) :
  conn_remoteName (st_conn s) <> RemoteNull ->
  chan_endpoints (st_chan s) !! req_arg1 body = Some (TRouterService.Function h) ->
  exists s',
    handleCallRequest reqFrame body s
    = Done tt s' [ChannelEmit "endpoint" [Some (req_arg1 body)];
                  NextTick h (frame_id reqFrame)] /\
    is_Some (conn_inOps (st_conn s') !! frame_id reqFrame).
Proof.
  intros Hname Hep. destruct s as [ch c]. unfold handleCallRequest. msimpl.
  destruct (conn_remoteName c) as [| n] eqn:En; [done |]. msimpl.
  cbn [st_chan] in Hep. rewrite Hep. unfold channel_now. msimpl.
  eexists. split; [reflexivity |]. msimpl. rewrite lookup_insert_eq. eauto.
Qed.

(** ** Tables of operations *)

Lemma elem_of_Object_keys_ops {V} (ops : gmap Z V) (k : Z) :
  k ∈ Object_keys_ops ops <-> is_Some (ops !! k).
Proof.
  unfold Object_keys_ops. rewrite merge_sort_Permutation.
  rewrite list_elem_of_fmap. split.
  - intros ([k' v] & -> & Hin). apply elem_of_map_to_list in Hin. eauto.
  - intros [v Hv]. exists (k, v). split; [done |]. now apply elem_of_map_to_list.
Qed.

Lemma NoDup_Object_keys_ops {V} (ops : gmap Z V) : NoDup (Object_keys_ops ops).
Proof.
  unfold Object_keys_ops. rewrite merge_sort_Permutation.
  apply NoDup_fst_map_to_list.
Qed.

Lemma lookup_foldl_delete {V} (keys : list Z) (ops : gmap Z V) (k : Z) :
  foldl (fun m id => delete id m) ops keys !! k
  = if decide (k ∈ keys) then None else ops !! k.
Proof.
  revert ops. induction keys as [| id keys IH]; intros ops; cbn [foldl].
  - case_decide as Hin; [by apply elem_of_nil in Hin | done].
  - rewrite IH. repeat case_decide; try done.
    + set_solver.
    + destruct (decide (k = id)) as [-> | Hne]; [apply lookup_delete_eq |].
      set_solver.
    + apply lookup_delete_ne. set_solver.
Qed.

Lemma foldl_delete_all {V} (ops : gmap Z V) :
  foldl (fun m id => delete id m) ops (Object_keys_ops ops) = ∅.
Proof.
  apply map_eq. intros k. rewrite lookup_foldl_delete, lookup_empty.
  case_decide as Hin; [done |].
  rewrite elem_of_Object_keys_ops in Hin.
  destruct (ops !! k) eqn:E; [| done]. exfalso. apply Hin. eauto.
Qed.

(** ** Reset *)

Lemma forEach_removePeer (hostPorts : list Buf) (id : nat) (ch : Channel)
    (c : Connection) :
  forEach hostPorts (fun hostPort =>
    modify_chan (fun ch => removePeer ch hostPort id)) (mkSt ch c)
  = Done tt (mkSt (foldl (fun ch hostPort => removePeer ch hostPort id) ch hostPorts) c)
      [].
Proof.
  revert ch. induction hostPorts as [| h hs IH]; intros ch; cbn [foldl].
  - reflexivity.
  - rewrite forEach_cons. erewrite bind_Done; [| reflexivity]. now rewrite IH.
Qed.

Lemma forEach_delete_inOps (keys : list Z) (ch : Channel) (c : Connection) :
  forEach keys (fun id =>
    modify_conn (fun c => set_inOps c (delete id (conn_inOps c)))) (mkSt ch c)
  = Done tt
      (mkSt ch (set_inOps c (foldl (fun m id => delete id m) (conn_inOps c) keys)))
      [].
Proof.
  revert c. induction keys as [| k keys IH]; intros c; cbn [foldl].
  - unfold ret. now destruct c.
  - rewrite forEach_cons. erewrite bind_Done; [| reflexivity]. now rewrite IH.
Qed.

Lemma reset_callbacks_cons (err : jsval) (ops : gmap Z ClientOp) (k : Z)
    (keys : list Z) (op : ClientOp) :
  ops !! k = Some op ->
  reset_callbacks err ops (k :: keys)
  = CallbackCall (op_callback op) err None None :: reset_callbacks err ops keys.
Proof. intros H. unfold reset_callbacks. cbn [flat_map]. now rewrite H. Qed.

Lemma reset_callbacks_delete (err : jsval) (ops : gmap Z ClientOp) (k : Z)
    (keys : list Z) :
  k ∉ keys -> reset_callbacks err (delete k ops) keys = reset_callbacks err ops keys.
Proof.
  intros Hk. unfold reset_callbacks.
  induction keys as [| k' keys IH]; cbn [flat_map]; [done |].
  rewrite lookup_delete_ne by set_solver. rewrite IH by set_solver. done.
Qed.

Lemma forEach_reset_outOps (err : jsval) (keys : list Z) (ch : Channel)
    (c : Connection) :
  NoDup keys -> (forall k, k ∈ keys -> is_Some (conn_outOps c !! k)) ->
  forEach keys (fun id =>
    do c <- get_conn;
    match conn_outOps c !! id with
    | None => throw TypeError_undefined
    | Some op =>
        modify_conn (fun c => set_outOps c (delete id (conn_outOps c))) ;;
        effect (CallbackCall (op_callback op) err None None)
    end) (mkSt ch c)
  = Done tt
      (mkSt ch (set_outOps c (foldl (fun m id => delete id m) (conn_outOps c) keys)))
      (reset_callbacks err (conn_outOps c) keys).
Proof.
  intros Hnd. revert c. induction Hnd as [| k keys Hk Hnd IH]; intros c Hall;
    cbn [foldl].
  - unfold forEach, ret. now destruct c.
  - destruct (Hall k ltac:(set_solver)) as [op Hop].
    rewrite forEach_cons.
    rewrite (bind_Done _ _ _ (mkSt ch (set_outOps c (delete k (conn_outOps c)))) tt
               [CallbackCall (op_callback op) err None None])
      by (mrun; rewrite Hop; reflexivity).
    rewrite IH.
    + msimpl. rewrite (reset_callbacks_cons err _ k keys op Hop).
      now rewrite reset_callbacks_delete.
    + msimpl. intros k' Hk'. rewrite lookup_delete_ne by set_solver.
      apply Hall. set_solver.
Qed.

Lemma forEach_socketClose (n : nat) (id : nat) (err : jsval) (s : St) :
  forEach (replicate n tt) (fun _ => effect (ChannelEmitSocketClose id err)) s
  = Done tt s (replicate n (ChannelEmitSocketClose id err)).
Proof.
  induction n as [| n IH]; cbn [replicate]; [reflexivity |].
  rewrite forEach_cons. erewrite bind_Done; [| reflexivity]. now rewrite IH.
Qed.

Lemma clearTimeoutTimer_run (ch : Channel) (c : Connection) :
  clearTimeoutTimer (mkSt ch c)
  = Done tt (mkSt ch (set_timer c None))
      match conn_timer c with
      | Some timer => [ClearTimeout timer]
      | None => []
      end.
Proof.
  unfold clearTimeoutTimer. mrun.
  destruct c as [i d a [tm |] rn io ip oo op ls lt cl ro so]; reflexivity.
Qed.

Lemma emit_reset_run (ch : Channel) (c : Connection) :
  emit_reset (mkSt ch c)
  = Done tt (mkSt (peers_after_reset ch c) (set_reset_once c []))
      [ConnectionEmit "reset"].
Proof.
  unfold emit_reset.
  erewrite bind_Done; [| reflexivity].
  erewrite bind_Done; [| reflexivity].
  erewrite bind_Done; [| reflexivity].
  msimpl. rewrite forEach_removePeer. reflexivity.
Qed.

Lemma emit_socketClose_run (err : jsval) (ch : Channel) (c : Connection) :
  emit_socketClose err (mkSt ch c)
  = Done tt (mkSt ch (set_socketClose_once c 0))
      (ConnectionEmit "socketClose"
       :: replicate (conn_socketClose_once c) (ChannelEmitSocketClose (conn_id c) err)).
Proof.
  unfold emit_socketClose.
  erewrite bind_Done; [| reflexivity].
  erewrite bind_Done; [| reflexivity].
  erewrite bind_Done; [| reflexivity].
  msimpl. rewrite forEach_socketClose. reflexivity.
Qed.

(** [resetAll] on a connection that is closing does nothing. *)
Lemma resetAll_closing (err : jsval) (s : St) :
  conn_closing (st_conn s) = true -> resetAll err s = Done tt s [].
Proof.
  intros H. unfold resetAll. erewrite bind_Done; [| reflexivity].
  rewrite H. reflexivity.
Qed.

(** [resetAll] on a connection that is not closing. *)
Lemma resetAll_run (err : jsval) (ch : Channel) (c : Connection) :
  conn_closing c = false ->
  resetAll err (mkSt ch c)
  = Done tt (mkSt (peers_after_reset ch c) (Connection_reset c)) (resetAll_trace err c).
Proof.
  intros H. unfold resetAll.
  erewrite bind_Done; [| reflexivity]. msimpl. rewrite H.
  erewrite bind_Done; [| reflexivity].
  erewrite bind_Done; [| apply clearTimeoutTimer_run].
  erewrite bind_Done; [| apply emit_reset_run].
  erewrite bind_Done; [| apply forEach_delete_inOps].
  erewrite bind_Done.
  2:{ apply forEach_reset_outOps; [apply NoDup_Object_keys_ops |].
      intros k Hk. msimpl. now apply elem_of_Object_keys_ops. }
  erewrite bind_Done; [| reflexivity].
  erewrite bind_Done; [| reflexivity].
  rewrite emit_socketClose_run. msimpl.
  rewrite !foldl_delete_all. unfold resetAll_trace, Connection_reset.
  f_equal; now rewrite <- ?app_assoc.
Qed.

(** ** Peers *)

Lemma occurrences_nil {A} `{EqDecision A} (x : A) : occurrences x [] = 0%nat.
Proof. reflexivity. Qed.

Lemma occurrences_cons {A} `{EqDecision A} (x y : A) (l : list A) :
  occurrences x (y :: l)
  = if decide (y = x) then S (occurrences x l) else occurrences x l.
Proof.
  unfold occurrences. rewrite filter_cons. now case_decide.
Qed.

Lemma occurrences_app {A} `{EqDecision A} (x : A) (l1 l2 : list A) :
  occurrences x (l1 ++ l2) = (occurrences x l1 + occurrences x l2)%nat.
Proof. unfold occurrences. now rewrite filter_app, length_app. Qed.

Lemma occurrences_0 {A} `{EqDecision A} (x : A) (l : list A) :
  occurrences x l = 0%nat <-> x ∉ l.
Proof.
  induction l as [| y l IH]; [rewrite occurrences_nil; set_solver |].
  rewrite occurrences_cons. case_decide; set_solver.
Qed.

Lemma splice_first_Some (x : nat) (l l' : list nat) :
  splice_first x l = Some l' -> occurrences x l = S (occurrences x l').
Proof.
  revert l'. induction l as [| y l IH]; intros l' H; cbn [splice_first] in H;
    [discriminate |].
  rewrite occurrences_cons. case_decide as Hy.
  - injection H as <-. done.
  - destruct (splice_first x l) as [l0 |]; [| discriminate].
    injection H as <-. rewrite occurrences_cons. case_decide; [done |].
    now apply IH.
Qed.

Lemma splice_first_None (x : nat) (l : list nat) :
  splice_first x l = None -> occurrences x l = 0%nat.
Proof.
  induction l as [| y l IH]; intros H; cbn [splice_first] in H; [done |].
  rewrite occurrences_cons. case_decide; [discriminate |].
  destruct (splice_first x l); [discriminate | auto].
Qed.

(** [removePeer] takes one occurrence of the connection out of the sequence
    under the [hostPort] and leaves the other sequences alone. *)
Lemma removePeer_occurrences (ch : Channel) (hostPort h : Buf) (id : nat) :
  occurrences id (peers_of (removePeer ch hostPort id) h)
  = if decide (h = hostPort)
    then pred (occurrences id (peers_of ch h))
    else occurrences id (peers_of ch h).
Proof.
  unfold removePeer, peers_of.
  destruct (chan_peers ch !! hostPort) as [conns |] eqn:E.
  - destruct (splice_first id conns) as [conns' |] eqn:Es.
    + cbn [chan_peers set_peers]. case_decide as Hh.
      * subst h. rewrite lookup_insert_eq, E. simpl.
        now rewrite (splice_first_Some _ _ _ Es).
      * now rewrite lookup_insert_ne.
    + case_decide as Hh; [| done]. subst h. rewrite E. simpl.
      now rewrite (splice_first_None _ _ Es).
  - case_decide as Hh; [| done]. subst h. rewrite E. reflexivity.
Qed.

Lemma removePeers_occurrences (hostPorts : list Buf) (ch : Channel) (h : Buf)
    (id : nat) :
  occurrences id
    (peers_of (foldl (fun ch hostPort => removePeer ch hostPort id) ch hostPorts) h)
  = (occurrences id (peers_of ch h) - occurrences h hostPorts)%nat.
Proof.
  revert ch. induction hostPorts as [| hp hps IH]; intros ch; cbn [foldl].
  - rewrite occurrences_nil. lia.
  - rewrite IH, removePeer_occurrences, occurrences_cons.
    repeat case_decide; try congruence; lia.
Qed.

(** After the listeners of ['reset'] have run, the connection stands under
    no [hostPort] among the peers. *)
Lemma peers_after_reset_gone (ch : Channel) (c : Connection) (h : Buf) :
  peers_listened ch c -> conn_id c ∉ peers_of (peers_after_reset ch c) h.
Proof.
  intros Hl. apply occurrences_0. unfold peers_after_reset.
  rewrite removePeers_occurrences. specialize (Hl h). lia.
Qed.

(** A new connection is not among the peers of a channel that has not seen
    its identity. *)
Lemma peers_listened_fresh (ch : Channel) (c : Connection) :
  (forall h, conn_id c ∉ peers_of ch h) -> peers_listened ch c.
Proof.
  intros Hf h. specialize (Hf h). apply occurrences_0 in Hf. lia.
Qed.

(** [addPeer] keeps the connection listened to. *)
Lemma addPeer_listened (hostPort : Buf) (ch : Channel) (c : Connection) :
  peers_listened ch c ->
  peers_listened (st_chan (outcome_state (addPeer hostPort (mkSt ch c))))
                 (st_conn (outcome_state (addPeer hostPort (mkSt ch c)))).
Proof.
  intros Hl. unfold addPeer. mrun.
  destruct (decide (hostPort = chan_hostPort ch)) as [He | Hne]; [exact Hl |].
  mrun. unfold setPeer. rewrite decide_False by done. mrun.
  cbn [outcome_state st_chan st_conn]. msimpl.
  intros h. specialize (Hl h). unfold peers_of in *. msimpl.
  rewrite occurrences_app, occurrences_cons, occurrences_nil.
  destruct (decide (hostPort = h)) as [-> | Hh].
  - rewrite lookup_insert_eq. simpl.
    destruct (conn_direction c);
      rewrite ?occurrences_app, ?occurrences_cons, ?occurrences_nil;
      rewrite ?decide_True by done; lia.
  - rewrite lookup_insert_ne by done. lia.
Qed.

Lemma reset_callbacks_map (err : jsval) (ops : gmap Z ClientOp) :
  reset_callbacks err ops (Object_keys_ops ops)
  ≡ₚ map (fun kv : Z * ClientOp => CallbackCall (op_callback kv.2) err None None)
       (map_to_list ops).
Proof.
  unfold reset_callbacks, Object_keys_ops.
  rewrite merge_sort_Permutation.
  assert (Hin : forall kv, kv ∈ map_to_list ops -> ops !! kv.1 = Some kv.2).
  { intros [k v]. apply elem_of_map_to_list. }
  induction (map_to_list ops) as [| [k v] l IH]; [done |].
  pose proof (Hin (k, v) ltac:(set_solver)) as Hk. cbn [fst snd] in Hk.
  cbn [map flat_map fst snd]. rewrite Hk. cbn [app].
  rewrite IH; [done |]. intros kv Hkv. apply Hin. set_solver.
Qed.

(** C6. [resetAll(err)].  On a connection that is closing it does nothing.
    On any other connection it sets [closing], cancels the timer, lets the
    listeners of ['reset'] run, empties the tables of inbound and of
    outbound operations, and calls the callback of every outbound operation
    once with [err] (in the order of the ids); nothing else is called: no
    frame is written and no handler is scheduled.  Afterwards the connection
    stands under no [hostPort] among the peers of the channel, so not under
    its remote name, when the channel holds it through [addPeer]. *)
Theorem resetAll_spec (err : jsval) (s : St) :
  (conn_closing (st_conn s) = true -> resetAll err s = Done tt s []) /\
  (conn_closing (st_conn s) = false ->
   peers_listened (st_chan s) (st_conn s) ->
   exists s' t,
     resetAll err s = Done tt s' t /\
     conn_closing (st_conn s') = true /\
     conn_timer (st_conn s') = None /\
     (forall timer, conn_timer (st_conn s) = Some timer -> ClearTimeout timer ∈ t) /\
     conn_inOps (st_conn s') = ∅ /\
     conn_outOps (st_conn s') = ∅ /\
     t = resetAll_trace err (st_conn s) /\
     reset_callbacks err (conn_outOps (st_conn s))
       (Object_keys_ops (conn_outOps (st_conn s)))
     ≡ₚ map (fun kv : Z * ClientOp => CallbackCall (op_callback kv.2) err None None)
          (map_to_list (conn_outOps (st_conn s))) /\
     Forall (fun e => match e with
                      | SocketWrite _ | NextTick _ _ | SetTimeout _ _ => False
                      | _ => True
                      end) t /\
     (forall hostPort, conn_id (st_conn s) ∉ peers_of (st_chan s') hostPort)).
Proof.
  split; [apply resetAll_closing |].
  intros Hc Hl. destruct s as [ch c]. cbn [st_chan st_conn] in *.
  eexists _, _. split; [now apply resetAll_run |].
  cbn [st_chan st_conn Connection_reset conn_closing conn_timer conn_inOps conn_outOps].
  repeat split.
  - intros timer Ht. unfold resetAll_trace. rewrite Ht. set_solver.
  - apply reset_callbacks_map.
  - unfold resetAll_trace. repeat rewrite Forall_app. repeat split.
    + destruct (conn_timer c); repeat constructor.
    + repeat constructor.
    + unfold reset_callbacks. apply Forall_flat_map, Forall_forall.
      intros k _. destruct (conn_outOps c !! k); repeat constructor.
    + repeat constructor.
    + apply Forall_replicate. exact I.
  - intros h. now apply peers_after_reset_gone.
Qed.

Lemma resetAll_spec_witness :
  let s := mkSt example_peered_channel example_peered in
  let err := Error_new (js "socket closed") in
  exists s' t,
    resetAll err s = Done tt s' t /\
    conn_closing (st_conn s') = true /\
    conn_timer (st_conn s') = None /\
    (forall timer, conn_timer (st_conn s) = Some timer -> ClearTimeout timer ∈ t) /\
    conn_inOps (st_conn s') = ∅ /\
    conn_outOps (st_conn s') = ∅ /\
    t = resetAll_trace err (st_conn s) /\
    reset_callbacks err (conn_outOps (st_conn s))
      (Object_keys_ops (conn_outOps (st_conn s)))
    ≡ₚ map (fun kv : Z * ClientOp => CallbackCall (op_callback kv.2) err None None)
         (map_to_list (conn_outOps (st_conn s))) /\
    Forall (fun e => match e with
                     | SocketWrite _ | NextTick _ _ | SetTimeout _ _ => False
                     | _ => True
                     end) t /\
    (forall hostPort, conn_id (st_conn s) ∉ peers_of (st_chan s') hostPort).
Proof.
  intros s err.
  apply (proj2 (resetAll_spec err s)).
  - reflexivity.
  - intros h. unfold s, peers_of. cbn [st_chan st_conn].
    unfold example_peered_channel, example_peered.
    cbn [chan_peers set_peers conn_id conn_reset_once].
    destruct (decide (h = bytes_of "127.0.0.1:4040")) as [-> | Hne].
    + vm_compute. lia.
    + rewrite lookup_singleton_ne by done. simpl. rewrite occurrences_nil. lia.
Defined.

(** ** The timeout sweeper *)

Lemma timeout_callbacks_cons (now d : Z) (ops : gmap Z ClientOp) (k : Z) (keys : list Z) :
  timeout_callbacks now d ops (k :: keys)
  = timeout_callbacks now d ops [k] ++ timeout_callbacks now d ops keys.
Proof. unfold timeout_callbacks. cbn [flat_map]. now rewrite app_nil_r. Qed.

Lemma swept_keys_cons (now d : Z) (ops : gmap Z ClientOp) (k : Z) (keys : list Z) :
  swept_keys now d ops (k :: keys)
  = swept_keys now d ops [k] ++ swept_keys now d ops keys.
Proof. unfold swept_keys. cbn [flat_map]. now rewrite app_nil_r. Qed.

Lemma timeout_callbacks_delete (now d : Z) (ops : gmap Z ClientOp) (k : Z)
    (keys : list Z) :
  k ∉ keys ->
  timeout_callbacks now d (delete k ops) keys = timeout_callbacks now d ops keys.
Proof.
  intros Hk. unfold timeout_callbacks.
  induction keys as [| k' keys IH]; cbn [flat_map]; [done |].
  rewrite lookup_delete_ne by set_solver. rewrite IH by set_solver. done.
Qed.

Lemma swept_keys_delete (now d : Z) (ops : gmap Z ClientOp) (k : Z) (keys : list Z) :
  k ∉ keys -> swept_keys now d (delete k ops) keys = swept_keys now d ops keys.
Proof.
  intros Hk. unfold swept_keys.
  induction keys as [| k' keys IH]; cbn [flat_map]; [done |].
  rewrite lookup_delete_ne by set_solver. rewrite IH by set_solver. done.
Qed.

(** The loop of [checkOutOpsForTimeout] over keys of the table. *)
Lemma forEach_checkOutOp (now : Z) (keys : list Z) (ch : Channel) (c : Connection) :
  NoDup keys -> (forall k, k ∈ keys -> is_Some (conn_outOps c !! k)) ->
  forEach keys (checkOutOp now) (mkSt ch c)
  = Done tt (mkSt (swept_channel now ch c keys) (swept_connection now ch c keys))
      (timeout_callbacks now (chan_reqTimeoutDefault ch) (conn_outOps c) keys).
Proof.
  intros Hnd. revert ch c.
  induction Hnd as [| k keys Hk Hnd IH]; intros ch c Hall.
  - unfold forEach, ret, swept_channel, swept_connection. cbn.
    rewrite Nat.add_0_r, Z.sub_0_r. now destruct ch, c.
  - destruct (Hall k ltac:(set_solver)) as [op Hop].
    rewrite forEach_cons.
    rewrite timeout_callbacks_cons.
    unfold swept_channel, swept_connection.
    rewrite timeout_callbacks_cons, swept_keys_cons.
    unfold timeout_callbacks at 1 3 5, swept_keys at 1 3. cbn [flat_map].
    rewrite Hop, !app_nil_r.
    destruct (op_timedOut op) eqn:Eto; cbn [negb andb orb].
    + (* a lingering operation is deleted without a call *)
      rewrite (bind_Done _ _ _
        (mkSt ch (set_outPending (set_outOps c (delete k (conn_outOps c)))
                    (conn_outPending c - 1))) tt [])
        by (unfold checkOutOp; mrun; rewrite Hop, Eto; reflexivity).
      rewrite IH by (msimpl; intros k' Hk'; rewrite lookup_delete_ne by set_solver;
                     apply Hall; set_solver).
      unfold swept_channel, swept_connection. msimpl.
      rewrite timeout_callbacks_delete, swept_keys_delete by done.
      cbn [app length foldl]. f_equal. f_equal. f_equal. lia.
    + unfold op_expired.
      destruct (timeout_or_default (op_timeout op) (chan_reqTimeoutDefault ch)
                <? now - op_start op) eqn:Eex.
      * (* the timeout has passed: delete, call back, note the time *)
        rewrite (bind_Done _ _ _
          (mkSt (set_now_calls ch (S (chan_now_calls ch)))
                (set_lastTimeoutTime
                   (set_outPending (set_outOps c (delete k (conn_outOps c)))
                      (conn_outPending c - 1))
                   (chan_now ch (chan_now_calls ch)))) tt
          [CallbackCall (op_callback op) (Error_new (js "timed out")) None None])
          by (unfold checkOutOp, onReqTimeout, channel_now; mrun;
              rewrite Hop, Eto; mrun; rewrite Eex; reflexivity).
        rewrite IH by (msimpl; intros k' Hk'; rewrite lookup_delete_ne by set_solver;
                       apply Hall; set_solver).
        unfold swept_channel, swept_connection. msimpl.
        rewrite timeout_callbacks_delete, swept_keys_delete by done.
        cbn [app length foldl]. f_equal.
        -- f_equal; [f_equal; lia |].
           f_equal; [lia |].
           destruct (length (timeout_callbacks now (chan_reqTimeoutDefault ch)
                               (conn_outOps c) keys)) as [| n'];
             [now rewrite Nat.add_0_r | f_equal; lia].
      * (* the operation stays *)
        rewrite (bind_Done _ _ _ (mkSt ch c) tt [])
          by (unfold checkOutOp; mrun; rewrite Hop, Eto; mrun; rewrite Eex;
              reflexivity).
        rewrite IH by (intros k' Hk'; apply Hall; set_solver).
        reflexivity.
Qed.

(** The sweep of the inbound operations calls nothing and leaves the
    outbound side alone. *)
Lemma forEach_checkInOp (now : Z) (keys : list Z) (ch : Channel) (c : Connection) :
  exists c',
    forEach keys (checkInOp now) (mkSt ch c) = Done tt (mkSt ch c') [] /\
    conn_outOps c' = conn_outOps c /\
    conn_lastTimeoutTime c' = conn_lastTimeoutTime c /\
    conn_closing c' = conn_closing c /\
    conn_timer c' = conn_timer c.
Proof.
  revert c. induction keys as [| k keys IH]; intros c.
  - exists c. repeat split.
  - rewrite forEach_cons.
    assert (Hstep : exists c1,
      checkInOp now k (mkSt ch c) = Done tt (mkSt ch c1) [] /\
      conn_outOps c1 = conn_outOps c /\
      conn_lastTimeoutTime c1 = conn_lastTimeoutTime c /\
      conn_closing c1 = conn_closing c /\
      conn_timer c1 = conn_timer c).
    { unfold checkInOp. mrun.
      destruct (conn_inOps c !! k) as [op |]; [| exists c; repeat split].
      mrun. destruct (chan_serverTimeoutDefault ch <? now - sop_start op);
        eexists; repeat split. }
    destruct Hstep as (c1 & Hrun & H1 & H2 & H3 & H4).
    destruct (IH c1) as (c' & Hrun' & H1' & H2' & H3' & H4').
    exists c'. rewrite (bind_Done _ _ _ _ _ _ Hrun), Hrun'.
    repeat split; congruence.
Qed.

Lemma elem_of_flat_map {A B} (f : A -> list B) (l : list A) (y : B) :
  y ∈ flat_map f l <-> exists x, x ∈ l /\ y ∈ f x.
Proof.
  rewrite list_elem_of_In, in_flat_map. split.
  - intros (x & Hx & Hy). exists x. now rewrite !list_elem_of_In.
  - intros (x & Hx & Hy). exists x. now rewrite <- !list_elem_of_In.
Qed.

Lemma lookup_swept (now d : Z) (ops : gmap Z ClientOp) (k : Z) :
  foldl (fun m id => delete id m) ops (swept_keys now d ops (Object_keys_ops ops)) !! k
  = match ops !! k with
    | Some op => if op_timedOut op || op_expired now d op then None else Some op
    | None => None
    end.
Proof.
  rewrite lookup_foldl_delete. unfold swept_keys.
  case_decide as Hin.
  - apply elem_of_flat_map in Hin as (k' & _ & Hin).
    destruct (ops !! k') as [op' |] eqn:E'; [| by apply elem_of_nil in Hin].
    destruct (op_timedOut op' || op_expired now d op') eqn:Eb;
      [| by apply elem_of_nil in Hin].
    apply list_elem_of_singleton in Hin. subst k'.
    now rewrite E', Eb.
  - destruct (ops !! k) as [op |] eqn:E; [| done].
    destruct (op_timedOut op || op_expired now d op) eqn:Eb; [| done].
    exfalso. apply Hin. apply elem_of_flat_map. exists k. split.
    + apply elem_of_Object_keys_ops. eauto.
    + rewrite E, Eb. now apply list_elem_of_singleton.
Qed.

Lemma elem_of_timeout_callbacks (now d : Z) (ops : gmap Z ClientOp) (k : Z)
    (op : ClientOp) :
  ops !! k = Some op -> op_timedOut op = false -> op_expired now d op = true ->
  CallbackCall (op_callback op) (Error_new (js "timed out")) None None
  ∈ timeout_callbacks now d ops (Object_keys_ops ops).
Proof.
  intros Hop Hto Hex. unfold timeout_callbacks.
  apply elem_of_flat_map. exists k. split.
  - apply elem_of_Object_keys_ops. eauto.
  - rewrite Hop, Hto, Hex. now apply list_elem_of_singleton.
Qed.

(** C7, as the code has it.  A tick of the sweeper on a connection that is
    not closing.  If [lastTimeoutTime] is not zero, the socket is destroyed
    and nothing else happens.  Otherwise, with [now] the reading of the
    clock at the start of the sweep: an outbound operation that is not
    flagged as timed out and with [now - start] above its timeout, where a
    timeout of 0 (or none) stands for the channel's [reqTimeoutDefault], is
    removed from [outOps] and its callback is called with the timeout error;
    an operation that is flagged is removed without a call; every other
    operation stays as it is; the callbacks are called in the order of the
    ids and nothing else is called; [lastTimeoutTime] becomes the reading of
    the clock taken after the last such call, and stays 0 when no timeout
    had passed; the timer is set again. *)
Theorem onTimeoutCheck_spec (s : St) :
  conn_closing (st_conn s) = false ->
  let ch := st_chan s in
  let c := st_conn s in
  let now := chan_now ch (chan_now_calls ch) in
  let dflt := chan_reqTimeoutDefault ch in
  let calls := timeout_callbacks now dflt (conn_outOps c)
                 (Object_keys_ops (conn_outOps c)) in
  (conn_lastTimeoutTime c <> 0 -> onTimeoutCheck s = Done tt s [SocketDestroy]) /\
  (conn_lastTimeoutTime c = 0 ->
   exists s' timer delay,
     onTimeoutCheck s = Done tt s' (calls ++ [SetTimeout timer delay]) /\
     (forall id,
        conn_outOps (st_conn s') !! id
        = match conn_outOps c !! id with
          | Some op =>
              if op_timedOut op || op_expired now dflt op then None else Some op
          | None => None
          end) /\
     (forall id op,
        conn_outOps c !! id = Some op -> op_timedOut op = false ->
        op_expired now dflt op = true ->
        CallbackCall (op_callback op) (Error_new (js "timed out")) None None ∈ calls) /\
     conn_lastTimeoutTime (st_conn s')
     = match length calls with
       | O => 0
       | S n => chan_now ch (S (chan_now_calls ch) + n)%nat
       end /\
     conn_timer (st_conn s') = Some timer /\
     conn_closing (st_conn s') = false).
Proof.
  intros Hc ch c now dflt calls. destruct s as [ch0 c0].
  cbn [st_chan st_conn] in *. subst ch c. split.
  - intros Hl. unfold onTimeoutCheck. mrun. rewrite Hc.
    destruct (Z.eqb_spec (conn_lastTimeoutTime c0) 0); [done | reflexivity].
  - intros Hl. unfold onTimeoutCheck.
    rewrite (bind_Done _ _ _ (mkSt ch0 c0) c0 []) by reflexivity.
    rewrite Hc, Hl. cbn [Z.eqb negb].
    (* the sweep of the outbound operations *)
    rewrite (bind_Done _ _ _
      (mkSt (swept_channel now (set_now_calls ch0 (S (chan_now_calls ch0))) c0
               (Object_keys_ops (conn_outOps c0)))
            (swept_connection now (set_now_calls ch0 (S (chan_now_calls ch0))) c0
               (Object_keys_ops (conn_outOps c0)))) tt calls).
    2:{ unfold checkOutOpsForTimeout.
        rewrite (bind_Done _ _ _ (mkSt ch0 c0) c0 []) by reflexivity.
        rewrite (bind_Done _ _ _ (mkSt (set_now_calls ch0 (S (chan_now_calls ch0))) c0)
                   now []) by reflexivity.
        rewrite forEach_checkOutOp;
          [reflexivity | apply NoDup_Object_keys_ops |].
        intros k Hk. now apply elem_of_Object_keys_ops. }
    (* the sweep of the inbound operations *)
    set (ch1 := swept_channel now (set_now_calls ch0 (S (chan_now_calls ch0))) c0
                  (Object_keys_ops (conn_outOps c0))).
    set (c1 := swept_connection now (set_now_calls ch0 (S (chan_now_calls ch0))) c0
                 (Object_keys_ops (conn_outOps c0))).
    destruct (forEach_checkInOp (chan_now ch1 (chan_now_calls ch1))
                (Object_keys_ops (conn_inOps c1))
                (set_now_calls ch1 (S (chan_now_calls ch1))) c1)
      as (c2 & Hin & Hout & Hlast & Hcl & Htm).
    rewrite (bind_Done _ _ _ (mkSt (set_now_calls ch1 (S (chan_now_calls ch1))) c2) tt []).
    2:{ unfold checkInOpsForTimeout.
        rewrite (bind_Done _ _ _ (mkSt ch1 c1) c1 []) by reflexivity.
        rewrite (bind_Done _ _ _ (mkSt (set_now_calls ch1 (S (chan_now_calls ch1))) c1)
                   (chan_now ch1 (chan_now_calls ch1)) []) by reflexivity.
        now rewrite Hin. }
    (* the timer *)
    unfold startTimeoutTimer, getTimeoutDelay. mrun.
    eexists _, _, _. split; [reflexivity |].
    msimpl. rewrite Hout, Hlast, Hcl. subst c1 ch1.
    unfold swept_connection, swept_channel. msimpl.
    split; [| split; [| split; [| split]]].
    + intros id. apply lookup_swept.
    + intros id op. apply elem_of_timeout_callbacks.
    + unfold calls, dflt.
      destruct (length (timeout_callbacks now (chan_reqTimeoutDefault ch0)
                          (conn_outOps c0) (Object_keys_ops (conn_outOps c0))));
        [exact Hl | reflexivity].
    + reflexivity.
    + exact Hc.
Qed.

Lemma onTimeoutCheck_spec_witness :
  exists s' timer delay,
    onTimeoutCheck (mkSt example_peered_channel example_peered)
    = Done tt s'
        ([CallbackCall 11 (Error_new (js "timed out")) None None]
         ++ [SetTimeout timer delay]) /\
    conn_outOps (st_conn s') !! 2 = None /\
    conn_outOps (st_conn s') !! 3 = Some (example_op 3 12 9990 1000) /\
    conn_lastTimeoutTime (st_conn s') = 10001.
Proof.
  destruct (onTimeoutCheck_spec (mkSt example_peered_channel example_peered) eq_refl)
    as [_ H].
  destruct (H eq_refl) as (s' & timer & delay & Hrun & Hops & _ & Hlast & _).
  exists s', timer, delay. split; [exact Hrun |].
  rewrite !Hops, Hlast. repeat split.
Defined.

(** C7, as it is stated, fails for an operation whose timeout is 0: one
    millisecond after its start [now - start] is above its timeout, and the
    sweep leaves it in [outOps] and calls nothing, because it measures
    against [reqTimeoutDefault]. *)
Lemma onTimeoutCheck_zero_ttl_counterexample :
  let s := mkSt example_channel example_zero_ttl in
  let op := example_op 2 11 9999 0 in
  conn_closing (st_conn s) = false /\
  conn_lastTimeoutTime (st_conn s) = 0 /\
  conn_outOps (st_conn s) !! 2 = Some op /\
  op_timeout op = Some 0 /\
  0 < chan_now (st_chan s) (chan_now_calls (st_chan s)) - op_start op /\
  conn_outOps (st_conn (outcome_state (onTimeoutCheck s))) !! 2 = Some op /\
  outcome_trace (onTimeoutCheck s) = [SetTimeout 0 1000].
Proof. vm_compute. repeat split. Qed.

(** ** Frames before the handshake *)

Lemma completeOutOp_run (id : Z) (err : jsval) (a1 a2 : option Buf) (s : St) :
  completeOutOp id err a1 a2 s
  = match conn_outOps (st_conn s) !! id with
    | None => Done tt s []
    | Some op =>
        Done tt
          (mkSt (st_chan s)
             (set_outPending
                (set_outOps (st_conn s) (delete id (conn_outOps (st_conn s))))
                (conn_outPending (st_conn s) - 1)))
          [CallbackCall (op_callback op) err a1 a2]
    end.
Proof.
  unfold completeOutOp. mrun. now destruct (conn_outOps (st_conn s) !! id).
Qed.

(** An Error frame, in whatever state the connection is: the operation
    under the id of the frame is completed with the error that
    [errorForCode] gives, or nothing is done when there is none; if
    [errorForCode] throws, so does [handleError], before it touches the
    operation.  In no case is the connection reset. *)
Lemma handleError_run (toString : Buf -> jsstring) (errFrame : Frame)
    (body : ErrorBody) (s : St) :
  handleError toString errFrame body s
  = match errorForCode toString (err_code body) (err_message body) with
    | Throws e => Raise e s []
    | Normal err => completeOutOp (frame_id errFrame) err None None s
    end.
Proof.
  unfold handleError, bind, call.
  destruct (errorForCode toString (err_code body) (err_message body)) as [err | e].
  - unfold ret. now destruct (completeOutOp (frame_id errFrame) err None None s).
  - reflexivity.
Qed.

Lemma handleError_no_reset (toString : Buf -> jsstring) (errFrame : Frame)
    (body : ErrorBody) (s : St) :
  let s' := outcome_state (handleError toString errFrame body s) in
  conn_closing (st_conn s') = conn_closing (st_conn s) /\
  conn_remoteName (st_conn s') = conn_remoteName (st_conn s) /\
  st_chan s' = st_chan s /\
  Forall (fun e => match e with CallbackCall _ _ _ _ => True | _ => False end)
    (outcome_trace (handleError toString errFrame body s)).
Proof.
  rewrite handleError_run.
  destruct (errorForCode toString (err_code body) (err_message body)) as [err | e].
  - rewrite completeOutOp_run.
    destruct (conn_outOps (st_conn s) !! frame_id errFrame); cbn; repeat split;
      repeat constructor.
  - cbn. repeat split. constructor.
Qed.

(** A CallResponse frame before the handshake resets the connection. *)
Lemma handleCallResponse_before_init (toString : Buf -> jsstring) (resFrame : Frame)
    (body : CallResponseBody) (s : St) :
  conn_remoteName (st_conn s) = RemoteNull ->
  handleCallResponse toString resFrame body s
  = resetAll (Error_new (js "call response before init response")) s.
Proof.
  intros Hn. unfold handleCallResponse.
  rewrite (bind_Done _ _ _ s (st_conn s) []) by reflexivity.
  rewrite Hn.
  now destruct (resetAll (Error_new (js "call response before init response")) s);
    rewrite ?app_nil_r.
Qed.

(** An Error frame with a text as its message, before the handshake: the
    operation is completed with the error for the code. *)
Lemma handleError_busy_example :
  handleError ascii_toString (mkFrame 5 0 (ErrorFrame example_error_busy))
    example_error_busy (mkSt example_channel example_unidentified)
  = Done tt
      (mkSt example_channel
         (set_outPending (set_outOps example_unidentified ∅) (-1)))
      [CallbackCall 21
         (VError (js "Error") (VString (js "tchannel busy"))
            [(js "passedError", VString (js "busy"))]) None None].
Proof.
  rewrite handleError_run.
  replace (errorForCode ascii_toString (err_code example_error_busy)
             (err_message example_error_busy))
    with (Normal (A:=jsval) (VError (js "Error") (VString (js "tchannel busy"))
            [(js "passedError", VString (js "busy"))])) by (vm_compute; reflexivity).
  rewrite completeOutOp_run.
  cbn [st_conn st_chan example_unidentified conn_outOps conn_outPending frame_id].
  rewrite lookup_insert_eq. unfold set_outOps, set_outPending. cbn.
  now rewrite delete_insert_eq, delete_empty.
Qed.

(** C10, at an Error frame whose message is the JSON text [null].  The
    connection has not been identified and has the call 5 under way.  The
    frame with id 5, code Busy and message [null] makes [errSer.deserialize]
    throw (the keys of [null] are asked for), and [handleError] throws with
    it: the operation 5 is neither completed nor dropped, its callback is
    not called.  The connection is not reset either. *)
Theorem handleError_null_message_throws :
  handleError ascii_toString (mkFrame 5 0 (ErrorFrame example_error_null))
    example_error_null (mkSt example_channel example_unidentified)
  = Raise TypeError_not_object (mkSt example_channel example_unidentified) [] /\
  is_Some (conn_outOps example_unidentified !! 5).
Proof.
  split.
  - rewrite handleError_run.
    replace (errorForCode ascii_toString (err_code example_error_null)
               (err_message example_error_null))
      with (Throws (A:=jsval) TypeError_not_object) by (vm_compute; reflexivity).
    reflexivity.
  - unfold example_unidentified. cbn [conn_outOps]. rewrite lookup_insert_eq. eauto.
Qed.

(** * Further properties of the sources *)

(** ** Chunk readers on arbitrary and on cut streams *)

Lemma while_loop_Forall {S E : Type} (cond : S -> bool)
    (body : S -> S * list E * bool) (inv : S -> Prop) (P : E -> Prop) :
  (forall s, inv s -> cond s = true -> inv (body s).1.1 /\ Forall P (body s).1.2) ->
  forall fuel s r evs,
    inv s -> while_loop cond body fuel s = Some (r, evs) -> Forall P evs.
Proof.
  intros Hb fuel. induction fuel as [| fuel IH]; intros s r evs Hi Hrun;
    cbn [while_loop] in Hrun; destruct (cond s) eqn:C.
  - done.
  - injection Hrun as <- <-. constructor.
  - destruct (Hb s Hi C) as [Hi' HP].
    destruct (body s) as [[s' ev] [|]]; cbn [fst snd] in *.
    + injection Hrun as <- <-. exact HP.
    + destruct (while_loop cond body fuel s') as [[s'' evs']|] eqn:Ew; [| done].
      injection Hrun as <- <-. apply Forall_app. split; [exact HP |].
      now apply (IH s' s'' evs').
  - injection Hrun as <- <-. constructor.
Qed.

Section ChunkReaderMore.

Context {F D : Type}.
Variable fromBufferTuple : Buf -> D + F.

Lemma ChunkReader_body_events (r : ChunkReader.t) :
  ChunkReader_inv r -> ChunkReader.cond r = true ->
  Forall no_callback_error (ChunkReader.body fromBufferTuple r).1.2.
Proof.
  intros (Hw & Hp & Hs) C. unfold ChunkReader.cond, ChunkReader.avail in C.
  apply Z.leb_le in C. unfold ChunkReader.body.
  destruct (ChunkReader.state r) eqn:Est.
  - destruct (ChunkReader.readLength r =? 0); cbn [fst snd]; repeat constructor.
  - specialize (Hs eq_refl).
    rewrite ChunkReader_shift_ready by lia.
    rewrite blen_slice_0 by lia.
    destruct (Z.eqb_spec (ChunkReader.expecting r) 0) as [E0 | _]; [lia |].
    cbn [fst snd]. unfold ChunkReader.handleFrame.
    destruct (fromBufferTuple _); repeat constructor.
Qed.


(** The loop of a reader on a cut frame: the bytes of a proper prefix of a
    well-formed frame are kept and nothing is emitted. *)
Lemma ChunkReader_run_prefix (partial tail : Buf) (fuel : nat) :
  wellformed_frame (partial ++ tail) -> tail <> [] -> (1 <= fuel)%nat ->
  exists st expecting,
    while_loop ChunkReader.cond (ChunkReader.body fromBufferTuple) fuel
      (ChunkReader.mk partial 4 4 PendingLength)
    = Some (ChunkReader.mk partial 4 expecting st, []) /\
    blen partial < expecting.
Proof.
  intros [H4 Hlen] Ht Hfuel. rewrite blen_app in *.
  assert (0 < blen tail).
  { destruct tail; [done |]. unfold blen. cbn [length]. lia. }
  destruct fuel as [| fuel]; [lia |]. cbn [while_loop].
  unfold ChunkReader.cond at 1, ChunkReader.avail.
  cbn [ChunkReader.expecting ChunkReader.buffer].
  destruct (Z.leb_spec 4 (blen partial)) as [Hp | Hp].
  - exists Seeking, (blen partial + blen tail).
    unfold ChunkReader.body. cbn [ChunkReader.state].
    unfold ChunkReader.readLength.
    cbn [ChunkReader.frameLengthSize ChunkReader.buffer Z.eqb Pos.eqb].
    rewrite <- (readUInt32BE_app partial tail), Hlen by lia.
    destruct (Z.eqb_spec (blen partial + blen tail) 0) as [E0 | _]; [lia |].
    split; [| lia].
    destruct fuel as [| fuel]; cbn [while_loop];
      unfold ChunkReader.cond, ChunkReader.avail;
      cbn [ChunkReader.expecting ChunkReader.buffer];
      destruct (Z.leb_spec (blen partial + blen tail) (blen partial)); (lia || done).
  - exists PendingLength, 4. split; [done | lia].
Qed.

End ChunkReaderMore.

Section ChunkParserMore.

Context {F : Type}.
Variable FrameType_read : Reader F.

Lemma ChunkParser_run_prefix (partial tail : Buf) (fuel : nat) :
  wellformed_frame (partial ++ tail) -> tail <> [] -> (1 <= fuel)%nat ->
  exists st expecting,
    (while_loop ChunkParser.cond (ChunkParser.body FrameType_read) fuel
       (ChunkParser.mk partial 4 PendingLength)
     = Some (ChunkParser.mk partial expecting st, [])) /\
    blen partial < expecting.
Proof.
  intros [H4 Hlen] Ht Hfuel. rewrite blen_app in *.
  assert (0 < blen tail).
  { destruct tail; [done |]. unfold blen. cbn [length]. lia. }
  destruct fuel as [| fuel]; [lia |]. cbn [while_loop].
  unfold ChunkParser.cond at 1.
  cbn [ChunkParser.expecting ChunkParser.buffer].
  destruct (Z.leb_spec 4 (blen partial)) as [Hp | Hp].
  - exists Seeking, (blen partial + blen tail).
    unfold ChunkParser.body. cbn [ChunkParser.state ChunkParser.buffer].
    rewrite <- (readUInt32BE_app partial tail), Hlen by lia.
    split; [| lia].
    destruct fuel as [| fuel]; cbn [while_loop];
      unfold ChunkParser.cond;
      cbn [ChunkParser.expecting ChunkParser.buffer];
      destruct (Z.leb_spec (blen partial + blen tail) (blen partial)); (lia || done).
  - exists PendingLength, 4. split; [done | lia].
Qed.

End ChunkParserMore.

(** X1. [ChunkReader.prototype._transform] on arbitrary bytes.  Whatever
    bytes a new chunk reader is given, and in whatever chunks, every call of
    [_transform] ends; the events are those of handing over all the bytes at
    once, and the reader is left in the same state, with fewer bytes in its
    buffer than it expects; no [BrokenReaderStateError] is ever handed to the
    callback. *)
Theorem ChunkReader_any_stream {F D : Type} (fromBufferTuple : Buf -> D + F)
    (fls : option Z) (r0 : ChunkReader.t) (chunks : list Buf) (fuel : nat) :
  ChunkReader.new fls = Some r0 ->
  (2 * length (concat chunks) + 1 <= fuel)%nat ->
  exists r evs,
    feed_chunks (ChunkReader._transform fromBufferTuple fuel) r0 chunks
    = Some (r, evs) /\
    ChunkReader._transform fromBufferTuple fuel r0 (concat chunks) = Some (r, evs) /\
    ChunkReader.avail r < ChunkReader.expecting r /\
    Forall no_callback_error evs.
Proof.
  intros Hnew Hfuel.
  destruct (ChunkReader_partition fromBufferTuple fls r0 chunks fuel Hnew Hfuel)
    as (r & evs & Hall & Hparts).
  destruct (ChunkReader_new_inv fls r0 Hnew) as (Hi & _ & _).
  exists r, evs. split; [exact Hparts | split; [exact Hall | split]].
  - unfold ChunkReader._transform in Hall.
    apply (while_loop_stable _ _ ChunkReader_inv
             (ChunkReader_inv_body fromBufferTuple)
             (ChunkReader_body_continues fromBufferTuple)) in Hall
      as [_ Hc]; [| now apply ChunkReader_inv_push].
    unfold ChunkReader.cond in Hc. now apply Z.leb_gt in Hc.
  - unfold ChunkReader._transform in Hall.
    apply (while_loop_Forall _ _ ChunkReader_inv no_callback_error) in Hall;
      [exact Hall | | now apply ChunkReader_inv_push].
    intros s Hs C. split;
      [now apply ChunkReader_inv_body | now apply ChunkReader_body_events].
Qed.

Lemma ChunkReader_any_stream_witness :
  exists r evs,
    feed_chunks (ChunkReader._transform example_decode 500)
      (ChunkReader.mk [] 2 2 PendingLength) example_chunks = Some (r, evs) /\
    ChunkReader._transform example_decode 500
      (ChunkReader.mk [] 2 2 PendingLength) (concat example_chunks) = Some (r, evs) /\
    ChunkReader.avail r < ChunkReader.expecting r /\
    Forall no_callback_error evs.
Proof.
  apply (ChunkReader_any_stream example_decode None
           (ChunkReader.mk [] 2 2 PendingLength) example_chunks 500).
  - reflexivity.
  - vm_compute. lia.
Defined.

(** X2. A zero length in front of a stream, at [ChunkReader] with the
    four-byte length prefix: the reader emits one [ZeroLengthFrameError],
    takes the four bytes off its buffer and goes on in [PendingLength]; from
    there it does to the following bytes what it does to them on their own. *)
Theorem ChunkReader_skips_zero_length {F D : Type} (fromBufferTuple : Buf -> D + F)
    (rest : Buf) (fuel : nat) :
  (2 * length rest + 10 <= fuel)%nat ->
  exists r0 r evs,
    ChunkReader.new (Some 4) = Some r0 /\
    ChunkReader._transform fromBufferTuple fuel r0 rest = Some (r, evs) /\
    ChunkReader._transform fromBufferTuple fuel r0
      ([Byte.x00; Byte.x00; Byte.x00; Byte.x00] ++ rest)
    = Some (r, ChunkReader.EmitError ChunkReader.ZeroLengthFrameError :: evs).
Proof.
  intros Hfuel.
  destruct (ChunkReader_zero_length fromBufferTuple
              (ChunkReader.mk [] 4 4 PendingLength) rest fuel eq_refl Hfuel)
    as (_ & r & evs & H1 & H2).
  exists (ChunkReader.mk [] 4 4 PendingLength), r, evs. auto.
Qed.

Lemma ChunkReader_skips_zero_length_witness :
  exists r0 r evs,
    ChunkReader.new (Some 4) = Some r0 /\
    ChunkReader._transform example_decode 500 r0 (concat example_frames)
    = Some (r, evs) /\
    ChunkReader._transform example_decode 500 r0
      ([Byte.x00; Byte.x00; Byte.x00; Byte.x00] ++ concat example_frames)
    = Some (r, ChunkReader.EmitError ChunkReader.ZeroLengthFrameError :: evs).
Proof.
  apply (ChunkReader_skips_zero_length example_decode (concat example_frames) 500).
  vm_compute. lia.
Defined.

(** X3. [ChunkParser.prototype.execute] on a cut frame.  Given a proper
    prefix of a well-formed frame, a new parser emits nothing and keeps the
    bytes; given the rest of the frame afterwards, it hands the whole frame
    to [handleFrame] and is as new. *)
Theorem ChunkParser_waits_for_whole_frame {F : Type} (FrameType_read : Reader F)
    (partial tail : Buf) (fuel : nat) :
  wellformed_frame (partial ++ tail) -> tail <> [] -> (2 <= fuel)%nat ->
  exists p,
    ChunkParser.execute FrameType_read fuel ChunkParser.new partial = Some (p, []) /\
    ChunkParser.buffer p = partial /\
    ChunkParser.execute FrameType_read fuel p tail
    = Some (ChunkParser.new, ChunkParser.handleFrame FrameType_read (partial ++ tail)).
Proof.
  intros Hwf Ht Hfuel.
  destruct (ChunkParser_run_prefix FrameType_read partial tail fuel Hwf Ht)
    as (st & expecting & Hrun & _); [lia |].
  assert (H1 : ChunkParser.execute FrameType_read fuel ChunkParser.new partial
               = Some (ChunkParser.mk partial expecting st, [])).
  { unfold ChunkParser.execute. rewrite ChunkParser_push_buffer. exact Hrun. }
  exists (ChunkParser.mk partial expecting st).
  split; [exact H1 | split; [reflexivity |]].
  pose proof (ChunkParser_partition FrameType_read [partial ++ tail] [partial; tail] fuel)
    as Hp.
  cbn [concat length flat_map] in Hp. rewrite !app_nil_r in Hp.
  specialize (Hp ltac:(constructor; [exact Hwf | constructor]) eq_refl ltac:(lia)).
  cbn [feed_chunks] in Hp. rewrite H1 in Hp.
  destruct (ChunkParser.execute FrameType_read fuel _ tail) as [[p' evs]|]; [| done].
  rewrite app_nil_r in Hp. cbn [app] in Hp. exact Hp.
Qed.

Lemma ChunkParser_waits_for_whole_frame_witness :
  exists p,
    ChunkParser.execute (Frame_read sum32) 10 ChunkParser.new example_cut
    = Some (p, []) /\
    ChunkParser.buffer p = example_cut /\
    ChunkParser.execute (Frame_read sum32) 10 p example_cut_tail
    = Some (ChunkParser.new,
            ChunkParser.handleFrame (Frame_read sum32) (example_cut ++ example_cut_tail)).
Proof.
  apply (ChunkParser_waits_for_whole_frame (Frame_read sum32)
           example_cut example_cut_tail 10).
  - split; vm_compute; congruence.
  - vm_compute. discriminate.
  - lia.
Defined.

(** X4. [ChunkReader.prototype._flush] at the end of a stream, with the
    four-byte length prefix.  After the frames of a valid stream and a
    proper prefix of one more frame, in whatever chunks, the reader has
    emitted the frames; [_flush] then reports nothing when the prefix is
    empty, and otherwise hands a [TruncatedReadError] with the number of
    bytes of the cut frame to the callback and leaves the reader as new. *)
Theorem ChunkReader_flush_reports_cut_frame {F D : Type}
    (fromBufferTuple : Buf -> D + F) (frames : list Buf) (partial tail : Buf)
    (chunks : list Buf) (fuel : nat) :
  Forall wellformed_frame frames ->
  wellformed_frame (partial ++ tail) -> tail <> [] ->
  concat chunks = concat frames ++ partial ->
  (2 * length (concat chunks) + 1 <= fuel)%nat ->
  exists r0 r,
    ChunkReader.new (Some 4) = Some r0 /\
    feed_chunks (ChunkReader._transform fromBufferTuple fuel) r0 chunks
    = Some (r, flat_map (ChunkReader.handleFrame fromBufferTuple) frames) /\
    ChunkReader_flush r
    = if bool_decide (partial = []) then (r, None)
      else (r0, Some (mkTruncatedReadError (blen partial) (ChunkReader.state r)
                        (ChunkReader.expecting r))).
Proof.
  intros Hfs Hwf Ht Hcat Hfuel.
  set (r0 := ChunkReader.mk [] 4 4 PendingLength).
  destruct (ChunkReader_partition fromBufferTuple (Some 4) r0 chunks fuel eq_refl Hfuel)
    as (r & evs & Hall & Hparts).
  rewrite Hcat in Hall, Hfuel. rewrite length_app in Hfuel.
  pose proof (wellformed_frames_length frames Hfs) as Hlen.
  assert (Hinv : ChunkReader_inv (ChunkReader.mk (concat frames) 4 4 PendingLength)).
  { repeat split; cbn; auto; discriminate. }
  unfold ChunkReader._transform in Hall.
  change (ChunkReader.push r0 (concat frames ++ partial))
    with (ChunkReader.push (ChunkReader.mk (concat frames) 4 4 PendingLength) partial)
    in Hall.
  apply (while_loop_split _ _ ChunkReader.push ChunkReader_inv
           (ChunkReader_inv_body fromBufferTuple)
           (ChunkReader_body_continues fromBufferTuple)
           (fun s c _ => ChunkReader_cond_push s c)
           (ChunkReader_body_push fromBufferTuple)) in Hall
    as (s1 & e1 & e2 & Hr1 & Hr2 & ->); [| exact Hinv].
  rewrite ChunkReader_run_frames in Hr1 by (done || lia).
  injection Hr1 as <- <-.
  destruct (ChunkReader_run_prefix fromBufferTuple partial tail fuel Hwf Ht)
    as (st & expecting & Hrun & Hexp); [lia |].
  change (ChunkReader.push (ChunkReader.mk [] 4 4 PendingLength) partial)
    with (ChunkReader.mk partial 4 4 PendingLength) in Hr2.
  rewrite Hrun in Hr2. injection Hr2 as <- <-.
  exists r0, (ChunkReader.mk partial 4 expecting st).
  split; [reflexivity |]. rewrite app_nil_r in Hparts. split; [exact Hparts |].
  unfold ChunkReader_flush, ChunkReader.avail.
  cbn [ChunkReader.buffer ChunkReader.frameLengthSize ChunkReader.state
       ChunkReader.expecting].
  destruct partial as [| b partial].
  - reflexivity.
  - rewrite bool_decide_eq_false_2 by done.
    destruct (Z.eqb_spec (blen (b :: partial)) 0) as [E0 | _]; [| reflexivity].
    unfold blen in E0. cbn [length] in E0. lia.
Qed.

Lemma ChunkReader_flush_reports_cut_frame_witness :
  exists r0 r,
    ChunkReader.new (Some 4) = Some r0 /\
    feed_chunks (ChunkReader._transform example_decode 500) r0
      (example_chunks ++ [example_cut])
    = Some (r, flat_map (ChunkReader.handleFrame example_decode) example_frames) /\
    ChunkReader_flush r
    = if bool_decide (example_cut = []) then (r, None)
      else (r0, Some (mkTruncatedReadError (blen example_cut) (ChunkReader.state r)
                        (ChunkReader.expecting r))).
Proof.
  apply (ChunkReader_flush_reports_cut_frame example_decode example_frames
           example_cut example_cut_tail (example_chunks ++ [example_cut]) 500).
  - repeat (apply Forall_cons; split; [split; vm_compute; congruence |]).
    apply Forall_nil; exact I.
  - split; vm_compute; congruence.
  - vm_compute. discriminate.
  - vm_compute. reflexivity.
  - vm_compute. lia.
Defined.

(** ** What [Frame.read] and the init reader refuse *)

(** A reader that has read [enc] hands on to its continuation. *)
Lemma reads_then_at {A B} (r : Reader A) (k : A -> Buf -> Z -> Res B) (enc : Buf)
    (v : A) (pre post buffer : Buf) (o : Z) :
  reads r enc v -> buffer = pre ++ enc ++ post -> o = blen pre ->
  read_chained r k buffer o = k v buffer (o + blen enc).
Proof. intros Hr -> ->. unfold read_chained, read_chain. now rewrite Hr. Qed.

Section CodecMore.

Variable digest : Z -> Buf -> Z.
Hypothesis digest_u32 : forall t b, is_u32 (digest t b).

(** [Frame.read] on a header followed by [rest]: the five fields of the
    header are read and the continuation runs at offset 16. *)
Lemma Frame_read_header (length id type flags : Z) (rest : Buf) :
  is_u32 length -> is_u32 id -> is_u8 type -> is_u8 flags ->
  let buffer := write_UInt32BE length ++ write_UInt32BE id ++ write_UInt8 type
                ++ write_UInt8 flags ++ write_fill Byte.x00 6 ++ rest in
  Frame_read digest buffer 0
  = match Frame_Types digest type with
    | None => ResErr (InvalidFrameTypeError type) 16
    | Some BodyType_read =>
        let bodyLength := length - 16 in
        match read_want bodyLength buffer 16 with
        | Some err => ResErr err 16
        | None =>
            let end_ := 16 + bodyLength in
            read_chain BodyType_read buffer 16 (fun body => fun buffer offset =>
              if offset <? end_
              then ResErr (ExtraFrameDataError length (end_ - offset)) offset
              else ResOk offset (mkFrame id flags body))
        end
    end.
Proof.
  intros Hl Hi Ht Hf buffer. unfold Frame_read.
  erewrite (reads_then_at read_UInt32BE _ (write_UInt32BE length) length []
              _ buffer 0 (reads_UInt32BE _ Hl)); [| reflexivity | reflexivity].
  erewrite (reads_then_at read_UInt32BE _ (write_UInt32BE id) id
              (write_UInt32BE length) _ buffer _ (reads_UInt32BE _ Hi));
    [| reflexivity | reflexivity].
  erewrite (reads_then_at read_UInt8 _ (write_UInt8 type) type
              (write_UInt32BE length ++ write_UInt32BE id) _ buffer _
              (reads_UInt8 _ Ht));
    [| subst buffer; now rewrite <- !app_assoc | reflexivity].
  erewrite (reads_then_at read_UInt8 _ (write_UInt8 flags) flags
              (write_UInt32BE length ++ write_UInt32BE id ++ write_UInt8 type)
              _ buffer _ (reads_UInt8 _ Hf));
    [| subst buffer; now rewrite <- !app_assoc | reflexivity].
  erewrite (reads_then_at (read_fixed 6) _ (write_fill Byte.x00 6)
              (write_fill Byte.x00 6)
              (write_UInt32BE length ++ write_UInt32BE id ++ write_UInt8 type
               ++ write_UInt8 flags)
              _ buffer _ (reads_fixed (write_fill Byte.x00 6)));
    [| subst buffer; now rewrite <- !app_assoc | reflexivity].
  reflexivity.
Qed.



End CodecMore.

Lemma sum32_u32 (t : Z) (b : Buf) : is_u32 (sum32 t b).
Proof. unfold is_u32, sum32. apply Z.mod_pos_bound. lia. Qed.

Lemma legal_example_call : legal_frame example_call.
Proof.
  unfold legal_frame, is_u32, is_u8, example_call. cbn.
  repeat split; try lia; try reflexivity.
  - simpl. lia.
  - apply Forall_cons; split; [split; reflexivity | apply Forall_nil; exact I].
Qed.




(** X6. [Frame.read] on a frame whose size field counts more bytes than its
    body takes.  With the bytes [extra] after the body of a legal frame and
    counted in the size field, [Frame.read] reads the body and then refuses
    the frame with an [ExtraFrameDataError] that holds the announced length
    and the number of trailing bytes, at the offset where the body ended. *)
Theorem Frame_read_extra_data (digest : Z -> Buf -> Z) (f : Frame) (w extra : Buf)
    (b' : Body) :
  (forall t b, is_u32 (digest t b)) ->
  legal_frame f ->
  Body_write digest (frame_body f) = Some (w, b') ->
  extra <> [] ->
  16 + blen w + blen extra < 4294967296 ->
  Frame_read digest
    (write_UInt32BE (16 + blen w + blen extra) ++ write_UInt32BE (frame_id f)
     ++ write_UInt8 (Body_type (frame_body f)) ++ write_UInt8 (frame_flags f)
     ++ write_fill Byte.x00 6 ++ w ++ extra) 0
  = ResErr (ExtraFrameDataError (16 + blen w + blen extra) (blen extra))
      (16 + blen w).
Proof.
  intros Hd (Hid & Hfl & Hb) Hw Hx Hsize.
  pose proof (blen_nonneg w) as Hpw.
  assert (0 < blen extra) as Hpx.
  { destruct extra; [done |]. unfold blen. cbn [length]. lia. }
  destruct (reads_Body digest Hd _ _ _ Hb Hw) as (R & HT & HR).
  rewrite Frame_read_header;
    [| unfold is_u32; lia | done | apply Body_type_u8 | done].
  rewrite HT. cbv zeta.
  set (hdr := write_UInt32BE (16 + blen w + blen extra) ++ write_UInt32BE (frame_id f)
     ++ write_UInt8 (Body_type (frame_body f)) ++ write_UInt8 (frame_flags f)
     ++ write_fill Byte.x00 6).
  replace (write_UInt32BE (16 + blen w + blen extra) ++ write_UInt32BE (frame_id f)
     ++ write_UInt8 (Body_type (frame_body f)) ++ write_UInt8 (frame_flags f)
     ++ write_fill Byte.x00 6 ++ w ++ extra) with (hdr ++ w ++ extra)
    by (unfold hdr; now rewrite <- !app_assoc).
  assert (Hh : blen hdr = 16) by reflexivity.
  unfold read_want. rewrite !blen_app, Hh.
  destruct (Z.ltb_spec (16 + (blen w + blen extra) - 16)
              (16 + blen w + blen extra - 16)) as [Hlt | _]; [lia |].
  unfold read_chain. specialize (HR hdr extra). rewrite Hh in HR. rewrite HR.
  destruct (Z.ltb_spec (16 + blen w) (16 + (16 + blen w + blen extra - 16)))
    as [_ | Hge]; [| lia].
  f_equal. f_equal. lia.
Qed.

Lemma Frame_read_extra_data_witness :
  Frame_read sum32
    (write_UInt32BE (16 + blen example_call_written.1 + blen [Byte.x00])
     ++ write_UInt32BE (frame_id example_call)
     ++ write_UInt8 (Body_type (frame_body example_call))
     ++ write_UInt8 (frame_flags example_call)
     ++ write_fill Byte.x00 6 ++ example_call_written.1 ++ [Byte.x00]) 0
  = ResErr (ExtraFrameDataError (16 + blen example_call_written.1 + blen [Byte.x00])
              (blen [Byte.x00]))
      (16 + blen example_call_written.1).
Proof.
  apply (Frame_read_extra_data sum32 example_call example_call_written.1
           [Byte.x00] example_call_written.2).
  - exact sum32_u32.
  - exact legal_example_call.
  - vm_compute. reflexivity.
  - discriminate.
  - vm_compute. reflexivity.
Defined.








(** ** The chunk parser over [Frame.read] *)

(** Where [Frame.read] returns a frame, it has read up to the end that the
    size field announces, or beyond. *)
Lemma Frame_read_end (digest : Z -> Buf -> Z) (chunk : Buf) (o : Z) (f : Frame) :
  Frame_read digest chunk 0 = ResOk o f -> readUInt32BE chunk 0 <= o.
Proof.
  unfold Frame_read, read_chained, read_chain, read_UInt32BE, read_UInt8, read_fixed.
  repeat match goal with
  | |- match (match ?x with _ => _ end) with _ => _ end = _ -> _ =>
      destruct x; [intros ?; discriminate |]
  end.
  destruct (Frame_Types digest _) as [R |]; [| intros ?; discriminate].
  destruct (read_want _ _ _); [intros ?; discriminate |].
  destruct (R chunk _) as [e o' | o' body]; [intros ?; discriminate |].
  destruct (Z.ltb_spec o' (0 + 4 + 4 + 1 + 1 + 6 + (readUInt32BE chunk 0 - 16)));
    [intros ?; discriminate |].
  intros [= <- _]. lia.
Qed.

(** X26. The check of [ChunkParser.prototype.handleFrame] after
    [Frame.read] is redundant, as its comment says.  For a chunk as the
    parser cuts it, whose first four bytes hold its length, a frame that
    [Frame.read] returns ends at the end of the chunk, so that the parser
    never makes a [ShortChunkRead] of its own: it emits the frame that
    [Frame.read] returns, or the error of [Frame.read] with the offset and
    the chunk attached. *)
Theorem handleFrame_check_redundant (digest : Z -> Buf -> Z) (chunk : Buf) :
  (4 <= blen chunk -> readUInt32BE chunk 0 = blen chunk) ->
  ChunkParser.handleFrame (Frame_read digest) chunk
  = match Frame_read digest chunk 0 with
    | ResErr err offset => [ChunkParser.EmitError err offset chunk]
    | ResOk _ frame => [ChunkParser.EmitFrame frame]
    end.
Proof.
  intros Hlen. unfold ChunkParser.handleFrame.
  destruct (Frame_read digest chunk 0) as [err o | o f] eqn:Hr; [reflexivity |].
  pose proof (Frame_read_end digest chunk o f Hr) as Hend.
  destruct (Z.ltb_spec o (blen chunk)) as [Hlt | Hge]; [| reflexivity].
  exfalso.
  assert (4 <= blen chunk).
  { revert Hr. unfold Frame_read, read_chained, read_chain, read_UInt32BE, read_want.
    destruct (Z.ltb_spec (blen chunk - 0) 4); [intros ?; discriminate | lia]. }
  rewrite Hlen in Hend by done. lia.
Qed.

Lemma handleFrame_check_redundant_witness :
  ChunkParser.handleFrame (Frame_read sum32) (example_cut ++ example_cut_tail)
  = match Frame_read sum32 (example_cut ++ example_cut_tail) 0 with
    | ResErr err offset =>
        [ChunkParser.EmitError err offset (example_cut ++ example_cut_tail)]
    | ResOk _ frame => [ChunkParser.EmitFrame frame]
    end.
Proof.
  apply (handleFrame_check_redundant sum32 (example_cut ++ example_cut_tail)).
  intros _. vm_compute. reflexivity.
Defined.

(** ** The error envelope on the way back *)

(** [JSON.parse] builds no error object and never returns [undefined]. *)
Lemma parse_is_json (fuel : nat) :
  (forall s v r, parse_value fuel s = Parsed v r -> is_json v = true) /\
  (forall s acc v r, parse_elements fuel s acc = Parsed v r -> is_json v = true) /\
  (forall s acc v r, parse_members fuel s acc = Parsed v r -> is_json v = true).
Proof.
  induction fuel as [| fuel (IHv & IHe & IHm)]; [repeat split; intros; discriminate |].
  split; [| split].
  - intros s v r H. cbn [parse_value] in H.
    repeat match type of H with
    | _ = Parsed _ _ => idtac
    end.
    destruct (skip_ws s) as [| c s']; [done |].
    repeat match type of H with
    | (if ?b then _ else _) = _ => destruct b
    | match ?x with _ => _ end = _ => destruct x eqn:?
    | parse_members _ _ _ = _ => apply IHm in H
    | parse_elements _ _ _ = _ => apply IHe in H
    | Parsed _ _ = Parsed _ _ => injection H as <- <-
    end; try done.
  - intros s acc v r H. cbn [parse_elements] in H.
    repeat match type of H with
    | (if ?b then _ else _) = _ => destruct b
    | parse_elements _ _ _ = _ => apply IHe in H
    | match ?x with _ => _ end = _ => destruct x eqn:?
    | Parsed _ _ = Parsed _ _ => injection H as <- <-
    end; try done.
  - intros s acc v r H. cbn [parse_members] in H.
    repeat match type of H with
    | (if ?b then _ else _) = _ => destruct b
    | parse_members _ _ _ = _ => apply IHm in H
    | match ?x with _ => _ end = _ => destruct x eqn:?
    | Parsed _ _ = Parsed _ _ => injection H as <- <-
    end; try done.
Qed.

Lemma safeParse_is_json (str : jsstring) (data : jsval) :
  safeParse str = Some data -> is_json data = true.
Proof.
  unfold safeParse, JSON_parse. intros H.
  destruct (parse_value _ str) as [| | v rest] eqn:E; try done.
  apply (proj1 (parse_is_json _)) in E.
  destruct (skip_ws rest); [| done]. congruence.
Qed.

(** A text that parses to something else than [null] comes back as the
    parsed value. *)
Lemma deserializeError_parsed (str : jsstring) (data : jsval) :
  safeParse str = Some data -> data <> VNull ->
  deserializeError str = Normal data /\ is_json data = true.
Proof.
  intros Hs Hn. pose proof (safeParse_is_json str data Hs) as Hj.
  split; [| exact Hj]. unfold deserializeError. rewrite Hs.
  destruct data as [| | b | lit | s | items | props | cname msg props];
    try done; cbn [Object_keys]; try reflexivity.
  - destruct (map KIndex (seq 0 (length s))) as [| k [| k' ks]] eqn:E; try done.
    destruct s as [| c0 s]; [done |]. cbn in E. injection E as <- _. reflexivity.
  - destruct (map KIndex (seq 0 (length items))) as [| k [| k' ks]] eqn:E; try done.
    destruct items as [| c0 items]; [done |]. cbn in E. injection E as <- _.
    reflexivity.
  - destruct props as [| [k v] [| kv props]]; cbn [map]; try done.
    cbn [key_is_jsError fst]. destruct (bool_decide_reflect (k = js "$jsError"));
      [| done].
    subst k. reflexivity.
Qed.

Lemma deserializeError_Normal (str : jsstring) (v : jsval) :
  deserializeError str = Normal v -> v <> VNull /\ isError v = false.
Proof.
  intros Hv. destruct (safeParse str) as [data |] eqn:Hs.
  - assert (Hc : data = VNull \/ data <> VNull)
      by (destruct data; (now left) || (now right)).
    destruct Hc as [-> | Hn].
    + unfold deserializeError in Hv. rewrite Hs in Hv. done.
    + destruct (deserializeError_parsed str data Hs Hn) as [Hd Hj].
      assert (v = data) as -> by congruence.
      split; [exact Hn | now destruct data].
  - unfold deserializeError in Hv. rewrite Hs in Hv. now injection Hv as <-.
Qed.

(** X10. What [deserializeError] returns.  A text that [JSON.parse] refuses
    comes back as the string it is; the text [null] makes [Object.keys]
    throw; a text that parses to an object or an array comes back as the
    parsed value.  The branch that rebuilds an [Error] from an envelope is
    never taken, since an object whose only key is [$jsError] has no [name]:
    the envelope comes back as the plain object, and no result of
    [deserializeError] is an error object. *)
Theorem deserializeError_never_builds_error (str : jsstring) :
  (safeParse str = None -> deserializeError str = Normal (VString str)) /\
  (safeParse str = Some VNull -> deserializeError str = Throws TypeError_not_object) /\
  (forall props, safeParse str = Some (VObject props) ->
     deserializeError str = Normal (VObject props)) /\
  (forall items, safeParse str = Some (VArray items) ->
     deserializeError str = Normal (VArray items)) /\
  (forall v, deserializeError str = Normal v -> isError v = false).
Proof.
  split; [| split; [| split; [| split]]].
  - intros Hs. unfold deserializeError. now rewrite Hs.
  - intros Hs. unfold deserializeError. now rewrite Hs.
  - intros props Hs. now apply deserializeError_parsed.
  - intros items Hs. now apply deserializeError_parsed.
  - intros v Hv. now apply deserializeError_Normal in Hv.
Qed.

(** ** The connection: errors, resets and the handshake *)

(** X11. [errorForCode] returns [null] for the code OK and for no other
    code: with OK the message is not even parsed, so that nothing can be
    thrown; with any other code the result, if there is one, is the payload
    or an [Error] that holds it, never [null]. *)
Theorem errorForCode_null_iff_OK (toString : Buf -> jsstring) (code : Z)
    (message : Buf) :
  errorForCode toString code message = Normal VNull <-> code = Code_OK.
Proof.
  unfold errorForCode. split.
  - destruct (Z.eqb_spec code Code_OK) as [-> | Hne]; [done |].
    destruct (deserializeError (toString message)) as [v | e] eqn:Hd; [| done].
    apply deserializeError_Normal in Hd as [Hn _].
    destruct (code =? Code_AppException); [congruence | done].
  - intros ->. reflexivity.
Qed.

(** X12. [getTimeoutDelay] stays in the range that its comment gives, from
    [base - fuzz/2] to [base + fuzz/2] (the halves rounded down), whenever
    the random source has drawn a number of the range of
    [Math.floor(random() * fuzz)]; it draws one number and touches nothing
    else. *)
Theorem getTimeoutDelay_range (s : St) :
  0 <= chan_random (st_chan s) (chan_random_calls (st_chan s))
    < chan_timeoutFuzz (st_chan s) ->
  exists delay s',
    getTimeoutDelay s = Done delay s' [] /\
    chan_timeoutCheckInterval (st_chan s) - chan_timeoutFuzz (st_chan s) / 2 <= delay /\
    delay <= chan_timeoutCheckInterval (st_chan s) + chan_timeoutFuzz (st_chan s) / 2 /\
    st_conn s' = st_conn s /\
    st_chan s' = set_random_calls (st_chan s) (S (chan_random_calls (st_chan s))).
Proof.
  intros Hd. destruct s as [ch c]. cbn [st_chan st_conn] in *.
  unfold getTimeoutDelay. mrun. eexists _, _. split; [reflexivity |].
  set (d := chan_random ch (chan_random_calls ch)) in *.
  set (f := chan_timeoutFuzz ch) in *.
  pose proof (Z.div_mod (2 * d - f + 1) 2 ltac:(lia)) as H1.
  pose proof (Z.mod_pos_bound (2 * d - f + 1) 2 ltac:(lia)) as H2.
  pose proof (Z.div_mod f 2 ltac:(lia)) as H3.
  pose proof (Z.mod_pos_bound f 2 ltac:(lia)) as H4.
  repeat split; lia.
Qed.

Lemma getTimeoutDelay_range_witness :
  exists delay s',
    getTimeoutDelay (mkSt example_channel example_identified) = Done delay s' [] /\
    chan_timeoutCheckInterval example_channel - chan_timeoutFuzz example_channel / 2
      <= delay /\
    delay <= chan_timeoutCheckInterval example_channel
             + chan_timeoutFuzz example_channel / 2 /\
    st_conn s' = example_identified /\
    st_chan s' = set_random_calls example_channel (S (chan_random_calls example_channel)).
Proof.
  apply (getTimeoutDelay_range (mkSt example_channel example_identified)).
  vm_compute. split; congruence.
Defined.

(** A reset leaves the connection closing. *)
Lemma resetAll_outcome (err : jsval) (s : St) :
  exists s' t, resetAll err s = Done tt s' t /\ conn_closing (st_conn s') = true /\
    conn_remoteName (st_conn s') = conn_remoteName (st_conn s) /\
    conn_lastTimeoutTime (st_conn s') = conn_lastTimeoutTime (st_conn s).
Proof.
  destruct s as [ch c]. destruct (conn_closing c) eqn:Hc.
  - exists (mkSt ch c), []. split; [now apply resetAll_closing | auto].
  - rewrite resetAll_run by done. eexists _, _. split; [reflexivity |].
    repeat split.
Qed.

(** X13. After [resetAll] nothing more happens on the connection: a second
    [resetAll], [onSocketErr] (which the listeners of the socket call for an
    error and for the close), a frame from the parser and a tick of the
    timer all return at once, with no effect and no change of state.  So
    the callbacks of the operations are called by one reset only. *)
Theorem after_reset_nothing_happens (toString : Buf -> jsstring)
    (digest : Z -> Buf -> Z) (err err' : jsval) (frame : Frame) (s : St) :
  let s1 := outcome_state (resetAll err s) in
  resetAll err' s1 = Done tt s1 [] /\
  onSocketErr err' s1 = Done tt s1 [] /\
  onParserFrame toString digest frame s1 = Done tt s1 [] /\
  onTimeoutCheck s1 = Done tt s1 [] /\
  (resetAll err ;; resetAll err') s = resetAll err s.
Proof.
  destruct (resetAll_outcome err s) as (s' & t & Hrun & Hcl & _).
  rewrite Hrun. cbn [outcome_state].
  assert (Hr : resetAll err' s' = Done tt s' []) by now apply resetAll_closing.
  split; [exact Hr |]. split; [| split; [| split]].
  - unfold onSocketErr. mrun. now rewrite Hcl.
  - unfold onParserFrame. mrun. now rewrite Hcl.
  - unfold onTimeoutCheck. mrun. now rewrite Hcl.
  - rewrite (bind_Done _ _ _ _ _ _ Hrun), Hr. now rewrite app_nil_r.
Qed.

Lemma handleCallResponse_run (toString : Buf -> jsstring) (resFrame : Frame)
    (body : CallResponseBody) (s : St) :
  conn_remoteName (st_conn s) <> RemoteNull ->
  handleCallResponse toString resFrame body s
  = match errorForCode toString (res_code body) (res_arg1 body) with
    | Throws e => Raise e s []
    | Normal err =>
        completeOutOp (frame_id resFrame) err (Some (res_arg2 body))
          (Some (res_arg3 body)) s
    end.
Proof.
  intros Hn. unfold handleCallResponse.
  rewrite (bind_Done _ _ _ s (st_conn s) []) by reflexivity.
  destruct (conn_remoteName (st_conn s)) as [| hp]; [done |].
  unfold bind, call.
  destruct (errorForCode toString (res_code body) (res_arg1 body)) as [err | e].
  - unfold ret.
    now destruct (completeOutOp (frame_id resFrame) err _ _ s).
  - reflexivity.
Qed.

(** X14. An operation is completed at most once.  Once [handleCallResponse]
    has returned for a frame id on a connection that was not closing,
    whether it called the callback of the operation, found no operation, or
    reset the connection, a further response and a further error frame with
    the same id call nothing and change nothing. *)
Theorem response_completes_at_most_once (toString : Buf -> jsstring)
    (resFrame : Frame) (body : CallResponseBody) (s s1 : St) (t1 : list Effect)
    (resFrame2 : Frame) (body2 : CallResponseBody)
    (errFrame2 : Frame) (errBody2 : ErrorBody) :
  conn_closing (st_conn s) = false ->
  handleCallResponse toString resFrame body s = Done tt s1 t1 ->
  frame_id resFrame2 = frame_id resFrame ->
  frame_id errFrame2 = frame_id resFrame ->
  outcome_state (handleCallResponse toString resFrame2 body2 s1) = s1 /\
  outcome_trace (handleCallResponse toString resFrame2 body2 s1) = [] /\
  outcome_state (handleError toString errFrame2 errBody2 s1) = s1 /\
  outcome_trace (handleError toString errFrame2 errBody2 s1) = [].
Proof.
  intros Hcl Hrun Hid2 Hid3.
  assert (H1 : conn_outOps (st_conn s1) !! frame_id resFrame = None /\
               (conn_remoteName (st_conn s1) = RemoteNull ->
                conn_closing (st_conn s1) = true)).
  { destruct (conn_remoteName (st_conn s)) as [| hp] eqn:Hn.
    - rewrite handleCallResponse_before_init in Hrun by done.
      destruct s as [ch c]. cbn [st_conn] in *.
      rewrite resetAll_run in Hrun by done. injection Hrun as <- <-.
      split; [apply lookup_empty | reflexivity].
    - rewrite handleCallResponse_run in Hrun by congruence.
      destruct (errorForCode toString (res_code body) (res_arg1 body)) as [err | e];
        [| done].
      rewrite completeOutOp_run in Hrun.
      destruct (conn_outOps (st_conn s) !! frame_id resFrame) as [op |] eqn:Hop.
      + injection Hrun as <- <-. cbn. split; [apply lookup_delete_eq | congruence].
      + injection Hrun as <- <-. split; [exact Hop | congruence]. }
  destruct H1 as [Hgone Hnull].
  assert (Hc : forall err a1 a2,
            completeOutOp (frame_id resFrame) err a1 a2 s1 = Done tt s1 []).
  { intros err a1 a2. rewrite completeOutOp_run. now rewrite Hgone. }
  assert (H2 : outcome_state (handleCallResponse toString resFrame2 body2 s1) = s1 /\
               outcome_trace (handleCallResponse toString resFrame2 body2 s1) = []).
  { destruct (conn_remoteName (st_conn s1)) as [| hp] eqn:Hn1.
    - rewrite handleCallResponse_before_init by done.
      rewrite resetAll_closing by auto. done.
    - rewrite handleCallResponse_run by congruence.
      destruct (errorForCode toString (res_code body2) (res_arg1 body2)); [| done].
      rewrite Hid2, Hc. done. }
  destruct H2 as [H2 H3]. split; [exact H2 | split; [exact H3 |]].
  rewrite handleError_run.
  destruct (errorForCode toString (err_code errBody2) (err_message errBody2)); [| done].
  rewrite Hid3, Hc. done.
Qed.

Lemma response_completes_at_most_once_witness :
  let s := mkSt example_peered_channel example_peered in
  let s1 := outcome_state
              (handleCallResponse ascii_toString example_response
                 example_response_body s) in
  outcome_state (handleCallResponse ascii_toString example_response
                   example_response_body s1) = s1 /\
  outcome_trace (handleCallResponse ascii_toString example_response
                   example_response_body s1) = [] /\
  outcome_state (handleError ascii_toString example_error example_error_busy s1) = s1 /\
  outcome_trace (handleError ascii_toString example_error example_error_busy s1) = [].
Proof.
  apply (response_completes_at_most_once ascii_toString example_response
           example_response_body (mkSt example_peered_channel example_peered)
           _ [CallbackCall 11 VNull (Some (bytes_of "r2")) (Some (bytes_of "r3"))]
           example_response example_response_body example_error example_error_busy).
  - reflexivity.
  - vm_compute. reflexivity.
  - reflexivity.
  - reflexivity.
Defined.

(** [send] when the frame can be written. *)
Lemma send_run (digest : Z -> Buf -> Z) (reqBody : Body) (callback : nat)
    (ch : Channel) (c : Connection) (buffer : Buf) (written : Frame) :
  let id := Z.rem (conn_lastSentFrameId c + 1) 4294967295 in
  Frame_write digest (mkFrame id 0 reqBody) = Some (buffer, written) ->
  send digest reqBody callback (mkSt ch c)
  = Done tt
      (mkSt (set_now_calls ch (S (chan_now_calls ch)))
         (set_outOps (set_lastSentFrameId c id)
            (<[id := mkClientOp written callback (chan_now ch (chan_now_calls ch))
                       (body_ttl reqBody) false]> (conn_outOps c))))
      [SocketWrite buffer].
Proof.
  intros id Hw. unfold send, nextFrameId, channel_now. mrun. fold id.
  rewrite Hw. mrun. now rewrite insert_insert_eq.
Qed.

(** X15. A call and its response.  [send] enters the operation under the
    next frame id and writes the frame; the response with this id then calls
    the callback of the call, once, with the error that [errorForCode] gives
    for its code and with its two results, and takes the operation out of
    the table again.  Whatever stood under the id before is gone, and
    [outPending], which [send] does not count up, is one less than before
    the call. *)
Theorem send_then_response (toString : Buf -> jsstring) (digest : Z -> Buf -> Z)
    (s : St) (reqBody : Body) (callback : nat) (buffer : Buf) (written : Frame)
    (flags : Z) (resBody : CallResponseBody) (err : jsval) :
  let id := Z.rem (conn_lastSentFrameId (st_conn s) + 1) 4294967295 in
  conn_remoteName (st_conn s) <> RemoteNull ->
  Frame_write digest (mkFrame id 0 reqBody) = Some (buffer, written) ->
  errorForCode toString (res_code resBody) (res_arg1 resBody) = Normal err ->
  exists s',
    (send digest reqBody callback ;;
     handleCallResponse toString (mkFrame id flags (CallResponse resBody)) resBody) s
    = Done tt s'
        [SocketWrite buffer;
         CallbackCall callback err (Some (res_arg2 resBody)) (Some (res_arg3 resBody))] /\
    conn_outOps (st_conn s') = delete id (conn_outOps (st_conn s)) /\
    conn_outPending (st_conn s') = conn_outPending (st_conn s) - 1 /\
    conn_lastSentFrameId (st_conn s') = id.
Proof.
  intros id Hn Hw He. destruct s as [ch c]. cbn [st_conn] in *.
  rewrite (bind_Done _ _ _ _ _ _ (send_run digest reqBody callback ch c buffer written Hw)).
  rewrite handleCallResponse_run by (cbn; exact Hn).
  rewrite He, completeOutOp_run. cbn [st_conn conn_outOps set_outOps frame_id].
  fold id. rewrite lookup_insert_eq. cbn [op_callback].
  eexists. split; [reflexivity |]. cbn.
  split; [apply delete_insert_eq | done].
Qed.

Lemma send_then_response_witness :
  exists s',
    (send sum32 (frame_body example_call) 7 ;;
     handleCallResponse ascii_toString
       (mkFrame (Z.rem (conn_lastSentFrameId example_identified + 1) 4294967295) 0
          (CallResponse example_response_body)) example_response_body)
      (mkSt example_channel example_identified)
    = Done tt s'
        [SocketWrite example_sent.1;
         CallbackCall 7 VNull (Some (res_arg2 example_response_body))
           (Some (res_arg3 example_response_body))] /\
    conn_outOps (st_conn s')
    = delete (Z.rem (conn_lastSentFrameId example_identified + 1) 4294967295)
        (conn_outOps example_identified) /\
    conn_outPending (st_conn s') = conn_outPending example_identified - 1 /\
    conn_lastSentFrameId (st_conn s')
    = Z.rem (conn_lastSentFrameId example_identified + 1) 4294967295.
Proof.
  apply (send_then_response ascii_toString sum32
           (mkSt example_channel example_identified) (frame_body example_call) 7
           example_sent.1 example_sent.2 0 example_response_body VNull).
  - discriminate.
  - vm_compute. reflexivity.
  - reflexivity.
Defined.

(** Writing an init frame cannot fail. *)
Lemma write_frame_init (digest : Z -> Buf -> Z) (id : Z) (Type_ : InitBody -> Body)
    (version : Z) (hostPort processName : Buf) :
  Type_ = InitRequest \/ Type_ = InitResponse ->
  exists buffer,
    Frame_toBuffer digest
      (mkFrame id 0 (Type_ (mkInitBody version (Some hostPort) (Some processName))))
    = Some buffer /\
    forall s,
      write_frame digest
        (mkFrame id 0 (Type_ (mkInitBody version (Some hostPort) (Some processName)))) s
      = Done tt s [SocketWrite buffer].
Proof.
  intros [-> | ->]; unfold write_frame, Frame_toBuffer, Frame_write;
    cbn [frame_body Body_write InitRequest_write init_hostPort init_processName
         fmap option_fmap option_map fst];
    eexists; split; reflexivity.
Qed.

(** X16. The init request on a connection that has not been identified.
    [handleInitRequest] takes the [hostPort] of the frame as the remote
    name, enters the connection among the peers of the channel under it (in
    front for an outgoing connection, at the end for an incoming one, under
    "undefined" when the frame had no [host_port]), emits ['identified'] and
    writes an init response with the next frame id and the names of the
    channel.  The listener that [addPeer] installs takes the connection out
    again: after a later [resetAll] it stands under no [hostPort]. *)
Theorem handleInitRequest_identifies (digest : Z -> Buf -> Z) (reqFrame : Frame)
    (body : InitBody) (s : St) :
  conn_remoteName (st_conn s) = RemoteNull ->
  peer_key (init_hostPort body) <> chan_hostPort (st_chan s) ->
  exists s' buffer,
    handleInitRequest digest reqFrame body s
    = Done tt s' [ChannelEmit "identified" [init_hostPort body; init_processName body];
                  SocketWrite buffer] /\
    Frame_toBuffer digest
      (mkFrame (Z.rem (conn_lastSentFrameId (st_conn s) + 1) 4294967295) 0
         (InitResponse (mkInitBody VERSION (Some (chan_hostPort (st_chan s)))
                          (Some (chan_processName (st_chan s))))))
    = Some buffer /\
    conn_remoteName (st_conn s') = RemoteIs (init_hostPort body) /\
    peers_of (st_chan s') (peer_key (init_hostPort body))
    = match conn_direction (st_conn s) with
      | DirOut => conn_id (st_conn s) :: peers_of (st_chan s) (peer_key (init_hostPort body))
      | DirIn => peers_of (st_chan s) (peer_key (init_hostPort body)) ++ [conn_id (st_conn s)]
      end /\
    (forall h, h <> peer_key (init_hostPort body) ->
       peers_of (st_chan s') h = peers_of (st_chan s) h) /\
    (forall err h,
       conn_closing (st_conn s) = false ->
       peers_listened (st_chan s) (st_conn s) ->
       conn_id (st_conn s) ∉ peers_of (st_chan (outcome_state (resetAll err s'))) h).
Proof.
  intros Hn Hself. destruct s as [ch c]. cbn [st_conn st_chan] in *.
  set (key := peer_key (init_hostPort body)) in *.
  set (id := Z.rem (conn_lastSentFrameId c + 1) 4294967295).
  destruct (write_frame_init digest id InitResponse VERSION (chan_hostPort ch)
              (chan_processName ch) ltac:(now right)) as (buffer & Hbuf & Hwrite).
  eexists _, buffer. split.
  { unfold handleInitRequest. mrun. rewrite Hn. mrun.
    unfold addPeer. mrun. fold key. rewrite decide_False by exact Hself. mrun.
    unfold setPeer. fold key. rewrite decide_False by exact Hself.
    mrun. unfold sendInitResponse, nextFrameId. mrun. fold id.
    rewrite Hwrite. reflexivity. }
  split; [exact Hbuf |]. cbn [st_conn st_chan]. split; [reflexivity |].
  split; [| split].
  - unfold peers_of. cbn [chan_peers set_peers]. rewrite lookup_insert_eq.
    now destruct (conn_direction c).
  - intros h Hh. unfold peers_of. cbn [chan_peers set_peers].
    now rewrite lookup_insert_ne.
  - intros err h Hcl Hl.
    rewrite resetAll_run by (cbn; exact Hcl). cbn [outcome_state st_chan].
    match goal with
    | |- _ ∉ peers_of (peers_after_reset ?ch' ?c') _ =>
        apply (peers_after_reset_gone ch' c')
    end.
    intros h'. unfold peers_of.
    cbn [chan_peers set_peers conn_id conn_reset_once set_lastSentFrameId
         set_socketClose_once set_reset_once set_remoteName].
    rewrite occurrences_app. specialize (Hl h'). unfold peers_of in Hl.
    destruct (decide (h' = key)) as [-> | Hne].
    + rewrite lookup_insert_eq.
      match goal with
      | |- context [default [] (Some ?x)] => change (default [] (Some x)) with x
      end.
      destruct (conn_direction c).
      * rewrite occurrences_app, !occurrences_cons, !occurrences_nil.
        rewrite !decide_True by done. lia.
      * rewrite !occurrences_cons, occurrences_nil.
        rewrite !decide_True by done. lia.
    + rewrite lookup_insert_ne by done.
      rewrite occurrences_cons, occurrences_nil, decide_False by done. lia.
Qed.

Lemma handleInitRequest_identifies_witness :
  let s := mkSt example_channel example_unidentified in
  exists s' buffer,
    handleInitRequest sum32 example_init example_init_body s
    = Done tt s' [ChannelEmit "identified" [init_hostPort example_init_body;
                                            init_processName example_init_body];
                  SocketWrite buffer] /\
    Frame_toBuffer sum32
      (mkFrame (Z.rem (conn_lastSentFrameId (st_conn s) + 1) 4294967295) 0
         (InitResponse (mkInitBody VERSION (Some (chan_hostPort (st_chan s)))
                          (Some (chan_processName (st_chan s))))))
    = Some buffer /\
    conn_remoteName (st_conn s') = RemoteIs (init_hostPort example_init_body) /\
    peers_of (st_chan s') (peer_key (init_hostPort example_init_body))
    = match conn_direction (st_conn s) with
      | DirOut => conn_id (st_conn s)
                  :: peers_of (st_chan s) (peer_key (init_hostPort example_init_body))
      | DirIn => peers_of (st_chan s) (peer_key (init_hostPort example_init_body))
                 ++ [conn_id (st_conn s)]
      end /\
    (forall h, h <> peer_key (init_hostPort example_init_body) ->
       peers_of (st_chan s') h = peers_of (st_chan s) h) /\
    (forall err h,
       conn_closing (st_conn s) = false ->
       peers_listened (st_chan s) (st_conn s) ->
       conn_id (st_conn s) ∉ peers_of (st_chan (outcome_state (resetAll err s'))) h).
Proof.
  apply (handleInitRequest_identifies sum32 example_init example_init_body
           (mkSt example_channel example_unidentified)).
  - reflexivity.
  - vm_compute. congruence.
Defined.

(** X17. An init request that names the channel itself.  When the
    [hostPort] of the frame is the channel's own, [addPeer] throws
    "refusing to add self peer": nothing is entered among the peers, nothing
    is emitted and no init response is written; yet the remote name has been
    set before, so that the connection counts as identified from then on. *)
Theorem handleInitRequest_self_peer (digest : Z -> Buf -> Z) (reqFrame : Frame)
    (body : InitBody) (s : St) :
  conn_remoteName (st_conn s) = RemoteNull ->
  peer_key (init_hostPort body) = chan_hostPort (st_chan s) ->
  handleInitRequest digest reqFrame body s
  = Raise (Error_new (js "refusing to add self peer"))
      (mkSt (st_chan s) (set_remoteName (st_conn s) (RemoteIs (init_hostPort body))))
      [].
Proof.
  intros Hn Hself. destruct s as [ch c]. cbn [st_conn st_chan] in *.
  unfold handleInitRequest. mrun. rewrite Hn. mrun.
  unfold addPeer. mrun. now rewrite decide_True by exact Hself.
Qed.

Lemma handleInitRequest_self_peer_witness :
  handleInitRequest sum32 example_init
    (mkInitBody 2 (Some (bytes_of "127.0.0.1:4041")) (Some (bytes_of "B[1]")))
    (mkSt example_channel example_unidentified)
  = Raise (Error_new (js "refusing to add self peer"))
      (mkSt example_channel
         (set_remoteName example_unidentified
            (RemoteIs (Some (bytes_of "127.0.0.1:4041")))))
      [].
Proof.
  apply (handleInitRequest_self_peer sum32 example_init
           (mkInitBody 2 (Some (bytes_of "127.0.0.1:4041")) (Some (bytes_of "B[1]")))
           (mkSt example_channel example_unidentified)).
  - reflexivity.
  - reflexivity.
Defined.

(** X18. The handshake happens once.  The init response on a connection
    that has not been identified sets the remote name and emits
    ['identified'], without touching the peers of the channel; any init
    frame after it, response or request, resets the connection. *)
Theorem init_frames_after_the_first_reset (digest : Z -> Buf -> Z)
    (resFrame : Frame) (body : InitBody) (frame2 : Frame) (body2 : InitBody) (s : St) :
  conn_remoteName (st_conn s) = RemoteNull ->
  exists s1,
    handleInitResponse resFrame body s
    = Done tt s1 [ChannelEmit "identified" [init_hostPort body; init_processName body]] /\
    s1 = mkSt (st_chan s) (set_remoteName (st_conn s) (RemoteIs (init_hostPort body))) /\
    handleInitResponse frame2 body2 s1
    = resetAll (Error_new (js "duplicate init response")) s1 /\
    handleInitRequest digest frame2 body2 s1
    = resetAll (Error_new (js "duplicate init request")) s1.
Proof.
  intros Hn. destruct s as [ch c]. cbn [st_conn st_chan] in *.
  eexists. split; [| split; [reflexivity |]].
  - unfold handleInitResponse. mrun. rewrite Hn. mrun. reflexivity.
  - split.
    + unfold handleInitResponse.
      rewrite (bind_Done _ _ _ _ _ [] eq_refl). cbn [st_conn conn_remoteName set_remoteName].
      now destruct (resetAll _ _); rewrite ?app_nil_r.
    + unfold handleInitRequest.
      rewrite (bind_Done _ _ _ _ _ [] eq_refl). cbn [st_conn conn_remoteName set_remoteName].
      now destruct (resetAll _ _); rewrite ?app_nil_r.
Qed.

Lemma init_frames_after_the_first_reset_witness :
  exists s1,
    handleInitResponse example_init example_init_body
      (mkSt example_channel example_unidentified)
    = Done tt s1 [ChannelEmit "identified" [init_hostPort example_init_body;
                                            init_processName example_init_body]] /\
    s1 = mkSt example_channel
           (set_remoteName example_unidentified
              (RemoteIs (init_hostPort example_init_body))) /\
    handleInitResponse example_init example_init_body s1
    = resetAll (Error_new (js "duplicate init response")) s1 /\
    handleInitRequest sum32 example_init example_init_body s1
    = resetAll (Error_new (js "duplicate init request")) s1.
Proof.
  apply (init_frames_after_the_first_reset sum32 example_init example_init_body
           example_init example_init_body (mkSt example_channel example_unidentified)).
  reflexivity.
Defined.



(** *** What the handlers of frames leave alone *)

Lemma keeps_bind {A B} (m : M A) (k : A -> M B) :
  keeps_lastTimeoutTime m -> (forall v, keeps_lastTimeoutTime (k v)) ->
  keeps_lastTimeoutTime (bind m k).
Proof.
  intros Hm Hk s. unfold bind. specialize (Hm s).
  destruct (m s) as [v s' t | e s' t]; cbn [outcome_state] in *; [| exact Hm].
  specialize (Hk v s').
  destruct (k v s') as [w s'' t' | e s'' t']; cbn [outcome_state] in *; congruence.
Qed.

Lemma keeps_ret {A} (v : A) : keeps_lastTimeoutTime (ret v).
Proof. now intros s. Qed.

Lemma keeps_throw {A} (e : jsval) : keeps_lastTimeoutTime (throw (A:=A) e).
Proof. now intros s. Qed.

Lemma keeps_effect (e : Effect) : keeps_lastTimeoutTime (effect e).
Proof. now intros s. Qed.

Lemma keeps_get_conn : keeps_lastTimeoutTime get_conn.
Proof. now intros s. Qed.

Lemma keeps_get_chan : keeps_lastTimeoutTime get_chan.
Proof. now intros s. Qed.

Lemma keeps_modify_chan (f : Channel -> Channel) : keeps_lastTimeoutTime (modify_chan f).
Proof. now intros s. Qed.

Lemma keeps_modify_conn (f : Connection -> Connection) :
  (forall c, conn_lastTimeoutTime (f c) = conn_lastTimeoutTime c) ->
  keeps_lastTimeoutTime (modify_conn f).
Proof. intros Hf s. apply Hf. Qed.

Lemma keeps_call {A} (r : Completion A) : keeps_lastTimeoutTime (call r).
Proof. destruct r; [apply keeps_ret | apply keeps_throw]. Qed.

Lemma keeps_resetAll (err : jsval) : keeps_lastTimeoutTime (resetAll err).
Proof.
  intros s. destruct (resetAll_outcome err s) as (s' & t & -> & _ & _ & H). exact H.
Qed.

Ltac keeps_step :=
  first
    [ apply keeps_resetAll
    | apply keeps_bind; [| intros ?]
    | apply keeps_ret | apply keeps_throw | apply keeps_effect
    | apply keeps_get_conn | apply keeps_get_chan | apply keeps_modify_chan
    | apply keeps_call
    | apply keeps_modify_conn; intros ?; reflexivity
    | match goal with
      | |- keeps_lastTimeoutTime (match ?x with _ => _ end) => destruct x
      | |- keeps_lastTimeoutTime (if ?b then _ else _) => destruct b
      end ].

Lemma keeps_handlers (toString : Buf -> jsstring) (digest : Z -> Buf -> Z)
    (frame : Frame) :
  keeps_lastTimeoutTime
    match frame_body frame with
    | InitRequest b => handleInitRequest digest frame b
    | InitResponse b => handleInitResponse frame b
    | CallRequest b => handleCallRequest frame b
    | CallResponse b => handleCallResponse toString frame b
    | ErrorFrame b => handleError toString frame b
    end.
Proof.
  destruct (frame_body frame);
    unfold handleInitRequest, handleInitResponse, handleCallRequest,
      handleCallResponse, handleError, addPeer, sendInitResponse, nextFrameId,
      write_frame, completeOutOp, channel_now;
    repeat keeps_step.
Qed.

Lemma destroys_bind {A B} (m : M A) (k : A -> M B) :
  never_destroys m -> (forall v, never_destroys (k v)) -> never_destroys (bind m k).
Proof.
  intros Hm Hk s. unfold bind. specialize (Hm s).
  destruct (m s) as [v s' t | e s' t]; cbn [outcome_trace] in *; [| exact Hm].
  specialize (Hk v s').
  destruct (k v s') as [w s'' t' | e s'' t']; cbn [outcome_trace] in *;
    rewrite elem_of_app; tauto.
Qed.

Lemma destroys_nil {A} (m : M A) :
  (forall s, outcome_trace (m s) = []) -> never_destroys m.
Proof. intros H s. rewrite H. apply not_elem_of_nil. Qed.

Lemma destroys_effect (e : Effect) : e <> SocketDestroy -> never_destroys (effect e).
Proof.
  intros He s. cbn. rewrite list_elem_of_singleton. congruence.
Qed.

Lemma destroys_forEach {A} (l : list A) (f : A -> M unit) :
  (forall x, never_destroys (f x)) -> never_destroys (forEach l f).
Proof.
  intros Hf. induction l as [| x l IH]; cbn [forEach].
  - now apply destroys_nil.
  - apply destroys_bind; [apply Hf | intros _; exact IH].
Qed.

Ltac destroys_step :=
  first
    [ apply destroys_bind; [| intros ?]
    | apply destroys_forEach; intros ?
    | apply destroys_effect; discriminate
    | apply destroys_nil; intros ?; reflexivity
    | match goal with
      | |- never_destroys (match ?x with _ => _ end) => destruct x
      | |- never_destroys (if ?b then _ else _) => destruct b
      end ].

Lemma never_destroys_sweep :
  never_destroys (checkOutOpsForTimeout ;; checkInOpsForTimeout ;; startTimeoutTimer).
Proof.
  unfold checkOutOpsForTimeout, checkInOpsForTimeout, startTimeoutTimer,
    getTimeoutDelay, channel_now, checkOutOp, checkInOp, onReqTimeout, channel_now.
  repeat destroys_step.
Qed.

(** X20. Any frame disarms the escalation of the sweeper.  [onFrame] sets
    [lastTimeoutTime] to 0 before it looks at the frame, and no handler of a
    frame sets it again, however the handler ends (by returning, by a reset
    or by an exception); so the next tick of the timer after a frame does
    not destroy the socket. *)
Theorem frame_disarms_escalation (toString : Buf -> jsstring)
    (digest : Z -> Buf -> Z) (frame : Frame) (s : St) :
  let s1 := outcome_state (onFrame toString digest frame s) in
  conn_lastTimeoutTime (st_conn s1) = 0 /\
  SocketDestroy ∉ outcome_trace (onTimeoutCheck s1).
Proof.
  cbv zeta.
  assert (H0 : conn_lastTimeoutTime
                 (st_conn (outcome_state (onFrame toString digest frame s))) = 0).
  { unfold onFrame.
    rewrite (bind_Done _ _ _
               (mkSt (st_chan s) (set_lastTimeoutTime (st_conn s) 0)) tt [] eq_refl).
    pose proof (keeps_handlers toString digest frame
                  (mkSt (st_chan s) (set_lastTimeoutTime (st_conn s) 0))) as Hk.
    cbn [st_conn conn_lastTimeoutTime set_lastTimeoutTime] in Hk.
    destruct (match frame_body frame with
              | InitRequest b => handleInitRequest digest frame b
              | InitResponse b => handleInitResponse frame b
              | CallRequest b => handleCallRequest frame b
              | CallResponse b => handleCallResponse toString frame b
              | ErrorFrame b => handleError toString frame b
              end _); exact Hk. }
  split; [exact H0 |].
  set (s1 := outcome_state (onFrame toString digest frame s)) in *.
  unfold onTimeoutCheck. rewrite (bind_Done _ _ _ s1 (st_conn s1) [] eq_refl).
  rewrite H0. cbn [Z.eqb negb].
  destruct (conn_closing (st_conn s1)).
  - cbn. apply not_elem_of_nil.
  - pose proof (never_destroys_sweep s1) as Hs.
    destruct ((checkOutOpsForTimeout ;; checkInOpsForTimeout ;; startTimeoutTimer) s1);
      cbn [outcome_trace app] in *; exact Hs.
Qed.

(** *** The sweep of the inbound operations *)

Lemma in_swept_keys_delete (now d : Z) (ops : gmap Z ServerOp) (k : Z) (keys : list Z) :
  k ∉ keys -> in_swept_keys now d (delete k ops) keys = in_swept_keys now d ops keys.
Proof.
  induction keys as [| k' keys IH]; intros Hk; [done |].
  apply not_elem_of_cons in Hk as [Hne Hk]. unfold in_swept_keys in *.
  cbn [flat_map]. rewrite IH by done. now rewrite lookup_delete_ne.
Qed.

Lemma forEach_checkInOp_run (now : Z) (keys : list Z) (ch : Channel) (c : Connection) :
  NoDup keys ->
  let gone := in_swept_keys now (chan_serverTimeoutDefault ch) (conn_inOps c) keys in
  forEach keys (checkInOp now) (mkSt ch c)
  = Done tt
      (mkSt ch
         (set_inPending
            (set_inOps c (foldl (fun m id => delete id m) (conn_inOps c) gone))
            (conn_inPending c - Z.of_nat (length gone))))
      [].
Proof.
  intros Hnd. revert c. induction Hnd as [| k keys Hk Hnd IH]; intros c gone.
  - subst gone. cbn. rewrite Z.sub_0_r. now destruct c.
  - rewrite forEach_cons. subst gone. unfold in_swept_keys. cbn [flat_map].
    fold (in_swept_keys now (chan_serverTimeoutDefault ch) (conn_inOps c) keys).
    destruct (conn_inOps c !! k) as [op |] eqn:Hop.
    + destruct (sop_expired now (chan_serverTimeoutDefault ch) op) eqn:Hex.
      * rewrite (bind_Done _ _ _
          (mkSt ch (set_inPending (set_inOps c (delete k (conn_inOps c)))
                      (conn_inPending c - 1))) tt []).
        2:{ unfold checkInOp. mrun. rewrite Hop. mrun.
            unfold sop_expired in Hex. now rewrite Hex. }
        rewrite IH. cbn [conn_inOps conn_inPending set_inOps set_inPending app foldl].
        rewrite in_swept_keys_delete by done. cbn [length].
        unfold set_inPending, set_inOps. msimpl. f_equal. f_equal. f_equal. lia.
      * rewrite (bind_Done _ _ _ (mkSt ch c) tt []).
        2:{ unfold checkInOp. mrun. rewrite Hop. mrun.
            unfold sop_expired in Hex. now rewrite Hex. }
        rewrite IH. reflexivity.
    + rewrite (bind_Done _ _ _ (mkSt ch c) tt []).
      2:{ unfold checkInOp. mrun. now rewrite Hop. }
      rewrite IH. reflexivity.
Qed.

(** X21. [checkInOpsForTimeout].  With one reading [now] of the clock, every
    inbound operation that started more than [serverTimeoutDefault] before
    it is taken out of [inOps] and [inPending] is counted down for each;
    the other operations stay.  Nothing else is done: no frame is written
    to the caller, no handler is told, the outbound operations and
    [lastTimeoutTime] are as before. *)
Theorem checkInOpsForTimeout_sweeps (s : St) :
  let now := chan_now (st_chan s) (chan_now_calls (st_chan s)) in
  let d := chan_serverTimeoutDefault (st_chan s) in
  exists s',
    checkInOpsForTimeout s = Done tt s' [] /\
    (forall id,
       conn_inOps (st_conn s') !! id
       = match conn_inOps (st_conn s) !! id with
         | Some op => if d <? now - sop_start op then None else Some op
         | None => None
         end) /\
    conn_inPending (st_conn s')
    = conn_inPending (st_conn s)
      - Z.of_nat (length (in_swept_keys now d (conn_inOps (st_conn s))
                            (Object_keys_ops (conn_inOps (st_conn s))))) /\
    conn_outOps (st_conn s') = conn_outOps (st_conn s) /\
    conn_lastTimeoutTime (st_conn s') = conn_lastTimeoutTime (st_conn s) /\
    st_chan s' = set_now_calls (st_chan s) (S (chan_now_calls (st_chan s))).
Proof.
  destruct s as [ch c]. intros now d. cbn [st_chan st_conn] in *.
  eexists. split.
  { unfold checkInOpsForTimeout.
    rewrite (bind_Done _ _ _ (mkSt ch c) c []) by reflexivity.
    rewrite (bind_Done _ _ _ (mkSt (set_now_calls ch (S (chan_now_calls ch))) c)
               now []) by reflexivity.
    rewrite forEach_checkInOp_run by apply NoDup_Object_keys_ops. reflexivity. }
  cbn [st_conn st_chan conn_inOps conn_inPending conn_outOps conn_lastTimeoutTime
       set_inOps set_inPending chan_serverTimeoutDefault set_now_calls].
  split; [| repeat split].
  intros id. rewrite lookup_foldl_delete. fold d.
  destruct (conn_inOps c !! id) as [op |] eqn:Hop.
  - unfold in_swept_keys.
    destruct (d <? now - sop_start op) eqn:Hex.
    + rewrite decide_True; [done |].
      apply elem_of_flat_map. exists id. split.
      * apply elem_of_Object_keys_ops. eauto.
      * rewrite Hop. unfold sop_expired. rewrite Hex. apply list_elem_of_singleton.
        reflexivity.
    + rewrite decide_False; [done |].
      intros (k & _ & Hin)%elem_of_flat_map.
      destruct (conn_inOps c !! k) as [op' |] eqn:Hk; [| now apply not_elem_of_nil in Hin].
      destruct (sop_expired now d op') eqn:He; [| now apply not_elem_of_nil in Hin].
      apply list_elem_of_singleton in Hin. subst k.
      unfold sop_expired in He. congruence.
  - destruct (decide _); done.
Qed.

(** *** The peers of a channel *)

Lemma splice_first_app_new (conn : nat) (l : list nat) :
  conn ∉ l -> splice_first conn (l ++ [conn]) = Some l.
Proof.
  induction l as [| x l IH]; intros Hn; cbn [app splice_first].
  - now rewrite decide_True.
  - apply not_elem_of_cons in Hn as [Hne Hn].
    rewrite decide_False by congruence. now rewrite IH.
Qed.

(** X22. Entering and removing a peer.  [setPeer] refuses the [hostPort] of
    the channel itself.  For any other [hostPort] it enters the connection
    in the sequence of the peers, an outgoing connection in front and an
    incoming one at the end, so that [getPeer] prefers outgoing connections
    and, among incoming ones, the oldest; [removePeer] of a connection that
    was not among the peers before puts the sequence of every [hostPort]
    back as it was. *)
Theorem setPeer_then_removePeer (self : Channel) (hostPort : Buf) (conn : nat)
    (direction : Direction) :
  hostPort <> chan_hostPort self ->
  conn ∉ peers_of self hostPort ->
  setPeer self (chan_hostPort self) conn direction
  = inl (Error_new (js "refusing to set self peer")) /\
  exists self',
    setPeer self hostPort conn direction = inr self' /\
    peers_of self' hostPort
    = match direction with
      | DirOut => conn :: peers_of self hostPort
      | DirIn => peers_of self hostPort ++ [conn]
      end /\
    getPeer self' hostPort
    = match direction with
      | DirOut => Some conn
      | DirIn => Some (default conn (head (peers_of self hostPort)))
      end /\
    (forall h, peers_of (removePeer self' hostPort conn) h = peers_of self h) /\
    getPeer (removePeer self' hostPort conn) hostPort = head (peers_of self hostPort).
Proof.
  intros Hne Hnew. split.
  { unfold setPeer. now rewrite decide_True. }
  eexists. split.
  { unfold setPeer. rewrite decide_False by done. reflexivity. }
  fold (peers_of self hostPort).
  set (old := peers_of self hostPort) in *.
  set (new := match direction with DirIn => old ++ [conn] | DirOut => conn :: old end).
  assert (Hsp : splice_first conn new = Some old).
  { subst new. destruct direction.
    - now apply splice_first_app_new.
    - cbn [splice_first]. now rewrite decide_True. }
  assert (Hrm : removePeer (set_peers self (<[hostPort := new]> (chan_peers self)))
                  hostPort conn
                = set_peers self (<[hostPort := old]> (chan_peers self))).
  { unfold removePeer. cbn [chan_peers set_peers]. rewrite lookup_insert_eq, Hsp.
    unfold set_peers. cbn. now rewrite insert_insert_eq. }
  split; [| split; [| split]].
  - unfold peers_of. cbn [chan_peers set_peers]. rewrite lookup_insert_eq.
    subst new. now destruct direction.
  - unfold getPeer. cbn [chan_peers set_peers]. rewrite lookup_insert_eq.
    subst new. destruct direction; [| done]. now destruct old.
  - intros h. rewrite Hrm. unfold peers_of. cbn [chan_peers set_peers].
    destruct (decide (h = hostPort)) as [-> | Hh].
    + now rewrite lookup_insert_eq.
    + now rewrite lookup_insert_ne.
  - rewrite Hrm. unfold getPeer. cbn [chan_peers set_peers].
    rewrite lookup_insert_eq. now destruct old.
Qed.

Lemma setPeer_then_removePeer_witness :
  setPeer example_peered_channel (chan_hostPort example_peered_channel) 9%nat DirIn
  = inl (Error_new (js "refusing to set self peer")) /\
  exists self',
    setPeer example_peered_channel (bytes_of "127.0.0.1:4040") 9%nat DirIn = inr self' /\
    peers_of self' (bytes_of "127.0.0.1:4040")
    = peers_of example_peered_channel (bytes_of "127.0.0.1:4040") ++ [9%nat] /\
    getPeer self' (bytes_of "127.0.0.1:4040")
    = Some (default 9%nat
              (head (peers_of example_peered_channel (bytes_of "127.0.0.1:4040")))) /\
    (forall h, peers_of (removePeer self' (bytes_of "127.0.0.1:4040") 9%nat) h
               = peers_of example_peered_channel h) /\
    getPeer (removePeer self' (bytes_of "127.0.0.1:4040") 9%nat)
      (bytes_of "127.0.0.1:4040")
    = head (peers_of example_peered_channel (bytes_of "127.0.0.1:4040")).
Proof.
  apply (setPeer_then_removePeer example_peered_channel (bytes_of "127.0.0.1:4040")
           9%nat DirIn).
  - vm_compute. congruence.
  - vm_compute. intros H. apply list_elem_of_singleton in H. discriminate.
Defined.

(** ** The router *)

(** X23. Registering an endpoint on a [TRouterService] and routing to it.
    [register] of a function under a name that is free stores it: the
    service then calls it for a request with this name, and treats every
    other name as before.  A value that is no function is refused with
    "invalid handler" and a name that is taken with
    [EndpointAlreadyDefinedError] (which comes first when both apply); the
    service is then as before.  A request for a name that is free is
    answered with [NoSuchEndpointError]. *)
Theorem TRouterService_register_routes (self : TRouterService.t) (name : Buf)
    (f : nat) :
  TRouterService.endpoints self !! name = None ->
  TRouterService_handleRequest self name
  = ResSend (NoSuchEndpointError (TRouterService.name self) name) /\
  TRouterService.register self name TRouterService.NotAFunction
  = inl TRouterService.InvalidHandler /\
  exists self',
    TRouterService.register self name (TRouterService.Function f)
    = inr (self', TRouterService.Function f) /\
    TRouterService.name self' = TRouterService.name self /\
    TRouterService_handleRequest self' name = HandlerCall f /\
    (forall other, other <> name ->
       TRouterService_handleRequest self' other
       = TRouterService_handleRequest self other) /\
    (forall handler,
       TRouterService.register self' name handler
       = inl (TRouterService.EndpointAlreadyDefinedError (TRouterService.name self)
                name (TRouterService.Function f) handler)).
Proof.
  intros Hfree. unfold TRouterService_handleRequest, TRouterService.register.
  rewrite Hfree. split; [reflexivity |]. split; [reflexivity |].
  eexists. split; [reflexivity |].
  cbn [TRouterService.name TRouterService.endpoints]. rewrite lookup_insert_eq.
  split; [reflexivity |]. split; [reflexivity |]. split; [| reflexivity].
  intros other Hne. now rewrite lookup_insert_ne.
Qed.

Lemma TRouterService_register_routes_witness :
  TRouterService_handleRequest (TRouterService.new (bytes_of "svc")) (bytes_of "echo")
  = ResSend (NoSuchEndpointError
               (TRouterService.name (TRouterService.new (bytes_of "svc")))
               (bytes_of "echo")) /\
  TRouterService.register (TRouterService.new (bytes_of "svc")) (bytes_of "echo")
    TRouterService.NotAFunction
  = inl TRouterService.InvalidHandler /\
  exists self',
    TRouterService.register (TRouterService.new (bytes_of "svc")) (bytes_of "echo")
      (TRouterService.Function 1)
    = inr (self', TRouterService.Function 1) /\
    TRouterService.name self'
    = TRouterService.name (TRouterService.new (bytes_of "svc")) /\
    TRouterService_handleRequest self' (bytes_of "echo") = HandlerCall 1 /\
    (forall other, other <> bytes_of "echo" ->
       TRouterService_handleRequest self' other
       = TRouterService_handleRequest (TRouterService.new (bytes_of "svc")) other) /\
    (forall handler,
       TRouterService.register self' (bytes_of "echo") handler
       = inl (TRouterService.EndpointAlreadyDefinedError
                (TRouterService.name (TRouterService.new (bytes_of "svc")))
                (bytes_of "echo") (TRouterService.Function 1) handler)).
Proof.
  apply (TRouterService_register_routes (TRouterService.new (bytes_of "svc"))
           (bytes_of "echo") 1).
  reflexivity.
Defined.

(** X24. The first endpoint of a service.  [TRouter.prototype.register] for
    a service that the router does not know registers a new, empty
    [TRouterService] under the name and then throws
    [ServiceAlreadyDefinedError]: the endpoint is not registered, and a
    request for it is answered with [NoSuchEndpointError].  The same call
    again finds the service and registers the endpoint; requests for it are
    then handed to the handler. *)
Theorem TRouter_register_first_endpoint (self : TRouter.t) (service endpoint : Buf)
    (f : nat) :
  TRouter.services self !! service = None ->
  TRouter.handleRequest self service endpoint = ResSend (NoSuchServiceError service) /\
  exists self1 self2,
    TRouter.registerEndpoint self service endpoint (TRouterService.Function f)
    = (self1, inl (TRouter.ServiceAlreadyDefinedError service
                     (TRouter.Service (TRouterService.new service))
                     (inl (TRouterService.Function f)))) /\
    TRouter.services self1 !! service
    = Some (TRouter.Service (TRouterService.new service)) /\
    TRouter.handleRequest self1 service endpoint
    = ResSend (NoSuchEndpointError service endpoint) /\
    TRouter.registerEndpoint self1 service endpoint (TRouterService.Function f)
    = (self2, inr (TRouterService.Function f)) /\
    TRouter.handleRequest self2 service endpoint = HandlerCall f /\
    (forall other, other <> service ->
       TRouter.services self2 !! other = TRouter.services self !! other).
Proof.
  intros Hfree. split.
  { unfold TRouter.handleRequest. now rewrite Hfree. }
  eexists _, _. split.
  { unfold TRouter.registerEndpoint, TRouter.registerService. rewrite Hfree.
    cbn [TRouter.services]. rewrite lookup_insert_eq. reflexivity. }
  cbn [TRouter.services]. rewrite lookup_insert_eq.
  split; [reflexivity |]. split.
  { unfold TRouter.handleRequest. cbn [TRouter.services].
    now rewrite lookup_insert_eq. }
  split.
  { unfold TRouter.registerEndpoint. cbn [TRouter.services].
    rewrite lookup_insert_eq. reflexivity. }
  split.
  { unfold TRouter.handleRequest, TRouterService_handleRequest.
    cbn [TRouter.services TRouterService.endpoints TRouterService.new].
    rewrite lookup_insert_eq. cbn [TRouterService.endpoints].
    now rewrite lookup_insert_eq. }
  intros other Hne. cbn [TRouter.services]. now rewrite !lookup_insert_ne.
Qed.

Lemma TRouter_register_first_endpoint_witness :
  TRouter.handleRequest TRouter.new (bytes_of "svc") (bytes_of "echo")
  = ResSend (NoSuchServiceError (bytes_of "svc")) /\
  exists self1 self2,
    TRouter.registerEndpoint TRouter.new (bytes_of "svc") (bytes_of "echo")
      (TRouterService.Function 1)
    = (self1, inl (TRouter.ServiceAlreadyDefinedError (bytes_of "svc")
                     (TRouter.Service (TRouterService.new (bytes_of "svc")))
                     (inl (TRouterService.Function 1)))) /\
    TRouter.services self1 !! bytes_of "svc"
    = Some (TRouter.Service (TRouterService.new (bytes_of "svc"))) /\
    TRouter.handleRequest self1 (bytes_of "svc") (bytes_of "echo")
    = ResSend (NoSuchEndpointError (bytes_of "svc") (bytes_of "echo")) /\
    TRouter.registerEndpoint self1 (bytes_of "svc") (bytes_of "echo")
      (TRouterService.Function 1)
    = (self2, inr (TRouterService.Function 1)) /\
    TRouter.handleRequest self2 (bytes_of "svc") (bytes_of "echo") = HandlerCall 1 /\
    (forall other, other <> bytes_of "svc" ->
       TRouter.services self2 !! other = TRouter.services TRouter.new !! other).
Proof.
  apply (TRouter_register_first_endpoint TRouter.new (bytes_of "svc")
           (bytes_of "echo") 1).
  reflexivity.
Defined.

(** X25. Registering a service.  [registerService] under a name that is
    free stores a [TRouterService] as it is, and a function as an object
    whose [handleRequest] is the function, so that the router hands it every
    request for the service, whatever the endpoint; under a name that is
    taken it throws [ServiceAlreadyDefinedError] and the router is as
    before.  An endpoint cannot be registered on a service that is a
    function. *)
Theorem TRouter_registerService_routes (self : TRouter.t) (service : Buf) (f : nat)
    (svc : TRouterService.t) :
  TRouter.services self !! service = None ->
  (exists self',
     TRouter.registerService self service (TRouter.HFunction f)
     = inr (self', TRouter.HFunction f) /\
     (forall name, TRouter.handleRequest self' service name = HandlerCall f) /\
     (forall handler,
        TRouter.registerService self' service handler
        = inl (TRouter.ServiceAlreadyDefinedError service (TRouter.Wrapped f)
                 (inr handler))) /\
     (forall endpoint handler,
        TRouter.registerEndpoint self' service endpoint handler
        = (self', inl TRouter.TypeError_register_not_a_function))) /\
  (exists self',
     TRouter.registerService self service (TRouter.HService svc)
     = inr (self', TRouter.HService svc) /\
     (forall name,
        TRouter.handleRequest self' service name
        = TRouterService_handleRequest svc name) /\
     (forall handler,
        TRouter.registerService self' service handler
        = inl (TRouter.ServiceAlreadyDefinedError service (TRouter.Service svc)
                 (inr handler)))).
Proof.
  intros Hfree. unfold TRouter.registerService. rewrite Hfree. split.
  - eexists. split; [reflexivity |].
    unfold TRouter.handleRequest, TRouter.registerEndpoint.
    cbn [TRouter.services]. rewrite !lookup_insert_eq. repeat split.
  - eexists. split; [reflexivity |].
    unfold TRouter.handleRequest. cbn [TRouter.services].
    rewrite !lookup_insert_eq. repeat split.
Qed.

Lemma TRouter_registerService_routes_witness :
  (exists self',
     TRouter.registerService TRouter.new (bytes_of "svc") (TRouter.HFunction 1)
     = inr (self', TRouter.HFunction 1) /\
     (forall name, TRouter.handleRequest self' (bytes_of "svc") name = HandlerCall 1) /\
     (forall handler,
        TRouter.registerService self' (bytes_of "svc") handler
        = inl (TRouter.ServiceAlreadyDefinedError (bytes_of "svc") (TRouter.Wrapped 1)
                 (inr handler))) /\
     (forall endpoint handler,
        TRouter.registerEndpoint self' (bytes_of "svc") endpoint handler
        = (self', inl TRouter.TypeError_register_not_a_function))) /\
  (exists self',
     TRouter.registerService TRouter.new (bytes_of "svc")
       (TRouter.HService (TRouterService.new (bytes_of "svc")))
     = inr (self', TRouter.HService (TRouterService.new (bytes_of "svc"))) /\
     (forall name,
        TRouter.handleRequest self' (bytes_of "svc") name
        = TRouterService_handleRequest (TRouterService.new (bytes_of "svc")) name) /\
     (forall handler,
        TRouter.registerService self' (bytes_of "svc") handler
        = inl (TRouter.ServiceAlreadyDefinedError (bytes_of "svc")
                 (TRouter.Service (TRouterService.new (bytes_of "svc")))
                 (inr handler)))).
Proof.
  apply (TRouter_registerService_routes TRouter.new (bytes_of "svc") 1
           (TRouterService.new (bytes_of "svc"))).
  reflexivity.
Defined.

(** ** Shutting the channel down *)

Lemma quit_eachPeer_run (st : ChannelState) (conn : nat) (c : Connection) :
  cs_connections st !! conn = Some c ->
  quit_eachPeer st conn
  = (mkChannelState (cs_channel st) (<[conn := Connection_quit c]> (cs_connections st)),
     SocketOnceClose conn
     :: match conn_timer c with
        | Some timer => [OnConnection conn (ClearTimeout timer)]
        | None => []
        end ++ [SocketEnd conn],
     None).
Proof.
  intros Hc. unfold quit_eachPeer. rewrite Hc.
  assert (Hrun : (clearTimeoutTimer ;;
                  modify_conn (fun c => set_closing c true) ;;
                  resetAll (Error_new (js "shutdown from quit")))
                   (mkSt (cs_channel st) c)
                 = Done tt (mkSt (cs_channel st) (Connection_quit c))
                     match conn_timer c with
                     | Some timer => [ClearTimeout timer]
                     | None => []
                     end).
  { rewrite (bind_Done _ _ _ _ _ _ (clearTimeoutTimer_run (cs_channel st) c)).
    rewrite (bind_Done _ _ _ (mkSt (cs_channel st) (Connection_quit c)) tt [])
      by reflexivity.
    rewrite resetAll_closing by reflexivity.
    now rewrite !app_nil_r. }
  rewrite Hrun. cbn [outcome_state st_chan st_conn].
  now destruct (conn_timer c).
Qed.

Lemma quit_forEach_run (peers : list nat) (st : ChannelState) :
  exists conns' t,
    quit_forEach st peers = (mkChannelState (cs_channel st) conns', t, None) /\
    (forall i, conns' !! i
               = if decide (i ∈ peers)
                 then Connection_quit <$> cs_connections st !! i
                 else cs_connections st !! i) /\
    Forall quit_effect_expected t.
Proof.
  revert st. induction peers as [| conn rest IH]; intros st.
  - exists (cs_connections st), []. destruct st. repeat split. constructor.
  - cbn [quit_forEach].
    destruct (cs_connections st !! conn) as [c |] eqn:Hc.
    + rewrite (quit_eachPeer_run st conn c Hc).
      destruct (IH (mkChannelState (cs_channel st)
                      (<[conn := Connection_quit c]> (cs_connections st))))
        as (conns' & t & Hrun & Hlook & Ht).
      rewrite Hrun. cbn [cs_channel cs_connections] in *.
      eexists conns', _. split; [reflexivity |]. split.
      * intros i. rewrite Hlook.
        destruct (decide (i = conn)) as [-> | Hne];
          [rewrite lookup_insert_eq, Hc | rewrite lookup_insert_ne by done];
          repeat destruct (decide _); try done; exfalso; set_solver.
      * constructor; [exact I |]. apply Forall_app. split; [| exact Ht].
        apply Forall_app. split; [| repeat constructor].
        destruct (conn_timer c); repeat constructor.
    + unfold quit_eachPeer at 1. rewrite Hc.
      destruct (IH st) as (conns' & t & Hrun & Hlook & Ht).
      rewrite Hrun. eexists conns', _. split; [reflexivity |]. split; [| exact Ht].
      intros i. rewrite Hlook.
      destruct (decide (i = conn)) as [-> | Hne]; [rewrite Hc |];
        repeat destruct (decide _); try done; exfalso; set_solver.
Qed.

(** X27. [TChannel.prototype.quit] does not complete the operations under
    way.  It marks the channel as destroyed and, on every connection among
    the peers, cancels the timer, sets [closing] and ends the socket; since
    [closing] is set before [resetAll] is called, the reset does nothing:
    no callback of an outbound operation is called, the tables of the
    operations stay as they are, ['reset'] is not emitted and the
    connections stay among the peers.  No call throws, and the server
    socket is closed, at once or when it is listening. *)
Theorem quit_leaves_operations (st : ChannelState) (keys : list Buf) (listening : bool) :
  exists conns' t,
    quit st keys listening
    = (mkChannelState (set_destroyed (cs_channel st) true) conns', t, None) /\
    (forall i, conns' !! i
               = if decide (i ∈ getPeers (cs_channel st) keys)
                 then Connection_quit <$> cs_connections st !! i
                 else cs_connections st !! i) /\
    (forall i c c', cs_connections st !! i = Some c -> conns' !! i = Some c' ->
       conn_outOps c' = conn_outOps c /\ conn_inOps c' = conn_inOps c /\
       conn_outPending c' = conn_outPending c) /\
    Forall quit_effect_expected t /\
    (if listening then ServerSocketClose ∈ t else ServerSocketOnceListening ∈ t).
Proof.
  unfold quit.
  destruct (quit_forEach_run (getPeers (cs_channel st) keys)
              (mkChannelState (set_destroyed (cs_channel st) true) (cs_connections st)))
    as (conns' & t & Hrun & Hlook & Ht).
  cbn [cs_channel cs_connections] in *.
  change (getPeers (set_destroyed (cs_channel st) true) keys)
    with (getPeers (cs_channel st) keys).
  rewrite Hrun. eexists conns', _. split; [reflexivity |]. split; [exact Hlook |].
  split; [| split].
  - intros i c c' Hc Hc'. rewrite Hlook, Hc in Hc'.
    destruct (decide _); cbn in Hc'; injection Hc' as <-; repeat split.
  - apply Forall_app. split; [exact Ht |]. destruct listening; repeat constructor.
  - destruct listening; rewrite elem_of_app; right.
    + apply elem_of_cons. right. apply elem_of_cons. now left.
    + apply elem_of_cons. now left.
Qed.

(** ** The handshake between two channels *)





(** ** Timeouts and late responses *)

Lemma checkInOpsForTimeout_run (ch : Channel) (c : Connection) :
  let now := chan_now ch (chan_now_calls ch) in
  let gone := in_swept_keys now (chan_serverTimeoutDefault ch) (conn_inOps c)
                (Object_keys_ops (conn_inOps c)) in
  checkInOpsForTimeout (mkSt ch c)
  = Done tt
      (mkSt (set_now_calls ch (S (chan_now_calls ch)))
         (set_inPending
            (set_inOps c (foldl (fun m id => delete id m) (conn_inOps c) gone))
            (conn_inPending c - Z.of_nat (length gone))))
      [].
Proof.
  intros now gone. unfold checkInOpsForTimeout.
  rewrite (bind_Done _ _ _ (mkSt ch c) c []) by reflexivity.
  rewrite (bind_Done _ _ _ (mkSt (set_now_calls ch (S (chan_now_calls ch))) c)
             now []) by reflexivity.
  rewrite forEach_checkInOp_run by apply NoDup_Object_keys_ops. reflexivity.
Qed.

Lemma onTimeoutCheck_run (ch0 : Channel) (c0 : Connection) :
  conn_closing c0 = false -> conn_lastTimeoutTime c0 = 0 ->
  let now := chan_now ch0 (chan_now_calls ch0) in
  let dflt := chan_reqTimeoutDefault ch0 in
  exists s' timer delay,
    onTimeoutCheck (mkSt ch0 c0)
    = Done tt s'
        (timeout_callbacks now dflt (conn_outOps c0) (Object_keys_ops (conn_outOps c0))
         ++ [SetTimeout timer delay]) /\
    (forall id,
       conn_outOps (st_conn s') !! id
       = match conn_outOps c0 !! id with
         | Some op => if op_timedOut op || op_expired now dflt op then None else Some op
         | None => None
         end) /\
    conn_remoteName (st_conn s') = conn_remoteName c0 /\
    conn_closing (st_conn s') = false.
Proof.
  intros Hc Hl now dflt. unfold onTimeoutCheck.
  rewrite (bind_Done _ _ _ (mkSt ch0 c0) c0 []) by reflexivity.
  rewrite Hc, Hl. cbn [Z.eqb negb].
  rewrite (bind_Done _ _ _
    (mkSt (swept_channel now (set_now_calls ch0 (S (chan_now_calls ch0))) c0
             (Object_keys_ops (conn_outOps c0)))
          (swept_connection now (set_now_calls ch0 (S (chan_now_calls ch0))) c0
             (Object_keys_ops (conn_outOps c0)))) tt
    (timeout_callbacks now dflt (conn_outOps c0) (Object_keys_ops (conn_outOps c0)))).
  2:{ unfold checkOutOpsForTimeout.
      rewrite (bind_Done _ _ _ (mkSt ch0 c0) c0 []) by reflexivity.
      rewrite (bind_Done _ _ _ (mkSt (set_now_calls ch0 (S (chan_now_calls ch0))) c0)
                 now []) by reflexivity.
      rewrite forEach_checkOutOp;
        [reflexivity | apply NoDup_Object_keys_ops |].
      intros k Hk. now apply elem_of_Object_keys_ops. }
  rewrite (bind_Done _ _ _ _ _ _ (checkInOpsForTimeout_run _ _)).
  unfold startTimeoutTimer, getTimeoutDelay. mrun.
  eexists _, _, _. split; [reflexivity |].
  unfold swept_connection, swept_channel. msimpl.
  split; [| split; [reflexivity | exact Hc]].
  intros id. apply lookup_swept.
Qed.

(** X29. An operation that has timed out is not completed later.  When the
    sweeper finds an outbound operation whose timeout has passed, it calls
    the callback of the operation with the timeout error and takes the
    operation out of [outOps]; the response that arrives afterwards for the
    frame id finds no operation: it calls nothing and changes nothing, and
    the same holds for an error frame with the id. *)
Theorem timed_out_operation_ignores_late_response (toString : Buf -> jsstring)
    (s : St) (id : Z) (op : ClientOp) (resFrame : Frame) (body : CallResponseBody)
    (errFrame : Frame) (errBody : ErrorBody) :
  conn_closing (st_conn s) = false ->
  conn_lastTimeoutTime (st_conn s) = 0 ->
  conn_remoteName (st_conn s) <> RemoteNull ->
  conn_outOps (st_conn s) !! id = Some op ->
  op_timedOut op = false ->
  op_expired (chan_now (st_chan s) (chan_now_calls (st_chan s)))
    (chan_reqTimeoutDefault (st_chan s)) op = true ->
  frame_id resFrame = id -> frame_id errFrame = id ->
  exists s' t,
    onTimeoutCheck s = Done tt s' t /\
    CallbackCall (op_callback op) (Error_new (js "timed out")) None None ∈ t /\
    conn_outOps (st_conn s') !! id = None /\
    outcome_state (handleCallResponse toString resFrame body s') = s' /\
    outcome_trace (handleCallResponse toString resFrame body s') = [] /\
    outcome_state (handleError toString errFrame errBody s') = s' /\
    outcome_trace (handleError toString errFrame errBody s') = [].
Proof.
  intros Hc Hl Hn Hop Hto Hex Hid1 Hid2. destruct s as [ch c].
  cbn [st_conn st_chan] in *.
  destruct (onTimeoutCheck_run ch c Hc Hl) as (s' & timer & delay & Hrun & Hlook & Hname & _).
  eexists s', _. split; [exact Hrun |].
  assert (Hgone : conn_outOps (st_conn s') !! id = None).
  { rewrite Hlook, Hop, Hex. now rewrite orb_true_r. }
  split.
  { apply elem_of_app. left. now apply (elem_of_timeout_callbacks _ _ _ id). }
  split; [exact Hgone |].
  assert (Hcomp : forall err a1 a2, completeOutOp id err a1 a2 s' = Done tt s' []).
  { intros err a1 a2. rewrite completeOutOp_run. now rewrite Hgone. }
  rewrite handleCallResponse_run by congruence. rewrite handleError_run.
  rewrite Hid1, Hid2.
  destruct (errorForCode toString (res_code body) (res_arg1 body));
    destruct (errorForCode toString (err_code errBody) (err_message errBody));
    rewrite ?Hcomp; repeat split.
Qed.

Lemma timed_out_operation_ignores_late_response_witness :
  exists s' t,
    onTimeoutCheck (mkSt example_peered_channel example_peered) = Done tt s' t /\
    CallbackCall (op_callback (example_op 2 11 9000 50)) (Error_new (js "timed out"))
      None None ∈ t /\
    conn_outOps (st_conn s') !! 2 = None /\
    outcome_state (handleCallResponse ascii_toString example_response
                     example_response_body s') = s' /\
    outcome_trace (handleCallResponse ascii_toString example_response
                     example_response_body s') = [] /\
    outcome_state (handleError ascii_toString example_error example_error_busy s') = s' /\
    outcome_trace (handleError ascii_toString example_error example_error_busy s') = [].
Proof.
  apply (timed_out_operation_ignores_late_response ascii_toString
           (mkSt example_peered_channel example_peered) 2 (example_op 2 11 9000 50)
           example_response example_response_body example_error example_error_busy).
  - reflexivity.
  - reflexivity.
  - discriminate.
  - vm_compute. reflexivity.
  - reflexivity.
  - vm_compute. reflexivity.
  - reflexivity.
  - reflexivity.
Defined.
